(** * A shallow embedding of deal.II's MappingQGeneric point inversion and
    [fill_fe_values], and of the cell-batch / constraint-pool set-up of
    MatrixFree.

    Sources: source/fe/mapping_q_generic.cc and
    include/deal.II/matrix_free/matrix_free.templates.h.

    Floating-point code that runs in [double] is modelled with Rocq's
    primitive binary64 floats ([PrimFloat]), so that the iteration logic,
    its comparisons and its literal constants behave as in the C++ code;
    code that runs in [long double] is modelled with the Standard Library's
    [SpecFloat] at the parameters of the x87 extended format.
    The tensor library (Tensor, determinant, invert, norms) is not part of
    the sources: it is a parameter of the Newton model. *)

From Stdlib Require Import Floats ZArith List Lia Bool Arith PeanoNat.
From Stdlib Require Import Permutation.
Import ListNotations.
Set Warnings "-inexact-float".

(** Results of functions that may raise a deal.II exception. [Assert] is
    only active in debug builds; [AssertThrow] is always active. *)
Inductive exc_result (A : Type) : Type :=
| Ret (a : A)
| Throw_ExcTransformationFailed
| Abort_ExcNotImplemented
| Abort_ExcMessage.
Arguments Ret {A} a.
Arguments Throw_ExcTransformationFailed {A}.
Arguments Abort_ExcNotImplemented {A}.
Arguments Abort_ExcMessage {A}.

(** ** The Newton inversion of [do_transform_real_to_unit_cell_internal]
    (dim == spacedim) and its codimension-one variant. *)
Module MappingQGenericImplementation.
Local Open Scope float_scope.

(** The outcome of the Newton iteration, one constructor per [return]
    statement of the C++ function. [Newton_out_of_fuel] is the outcome of
    the model only, when the (generous) recursion budget runs out. *)
Inductive newton_outcome (UPt : Type) : Type :=
| Newton_early_out (p_unit : UPt)
| Newton_converged (p_unit : UPt)
| Newton_fail_determinant
| Newton_fail_line_search
| Newton_fail_iterations
| Newton_out_of_fuel.
Arguments Newton_early_out {UPt} p_unit.
Arguments Newton_converged {UPt} p_unit.
Arguments Newton_fail_determinant {UPt}.
Arguments Newton_fail_line_search {UPt}.
Arguments Newton_fail_iterations {UPt}.
Arguments Newton_out_of_fuel {UPt}.

Inductive line_search_outcome (UPt Vec Mat : Type) : Type :=
| LS_accept (p_unit : UPt) (p_real : Vec * Mat) (f : Vec)
| LS_fail
| LS_out_of_fuel.
Arguments LS_accept {UPt Vec Mat} p_unit p_real f.
Arguments LS_fail {UPt Vec Mat}.
Arguments LS_out_of_fuel {UPt Vec Mat}.

Definition eps : float := 1e-11.
Definition newton_iteration_limit : nat := 20.
Definition line_search_fuel : nat := 64.
Definition newton_fuel : nat := 64.

Section Newton.
(** [UPt] is [Point<dim>], [Vec] is [Point<spacedim>] / [Tensor<1,spacedim>],
    [Mat] is [Tensor<2,spacedim>]. *)
Variables UPt Vec Mat : Type.
(** [compute_mapped_location_of_point(points, polynomials_1d, renumber, .)]:
    the mapped point and the Jacobian at a unit point. *)
Variable mapped_location : UPt -> Vec * Mat.
Variable vsub : Vec -> Vec -> Vec.
Variable norm_square : Vec -> float.
Variable mat_norm_square : Mat -> float.
Variable determinant : Mat -> float.
Variable invert : Mat -> Mat.
Variable mat_vec : Mat -> Vec -> Vec.
(** [p_unit_trial[i] -= step_length * delta[i]] for [i < dim]. *)
Variable unit_update : UPt -> float -> Vec -> UPt.
(** [Point<dim> invalid_point; invalid_point[0] = infinity]. *)
Variable origin : UPt.
Variable set_first_coord : UPt -> float -> UPt.
Variable first_coord : UPt -> float.

Definition invalid_point : UPt := set_first_coord origin infinity.

(** The inner [do { ... } while (true)] line search. *)
Fixpoint line_search (fuel : nat) (p : Vec) (p_unit : UPt) (f delta : Vec)
    (step_length : float) : line_search_outcome UPt Vec Mat :=
  match fuel with
  | O => LS_out_of_fuel
  | S fuel' =>
      let p_unit_trial := unit_update p_unit step_length delta in
      let p_real_trial := mapped_location p_unit_trial in
      let f_trial := vsub (fst p_real_trial) p in
      if norm_square f_trial <? norm_square f
      then LS_accept p_unit_trial p_real_trial f_trial
      else if 0.05 <? step_length
      then line_search fuel' p p_unit f delta (step_length / 2)
      else LS_fail
  end.

(** The outer [do { ... } while (last_f_weighted_norm_square > eps * eps)]
    loop. Besides the outcome it returns the number of executions of the
    loop body (an instrumentation counter). *)
Fixpoint newton_loop (fuel : nat) (p : Vec) (newton_iteration : nat)
    (p_unit : UPt) (p_real : Vec * Mat) (f : Vec) : newton_outcome UPt * nat :=
  match fuel with
  | O => (Newton_out_of_fuel, 0%nat)
  | S fuel' =>
      let df := snd p_real in
      if determinant df <=? 0 then (Newton_fail_determinant, 1%nat)
      else
        let df_inverse := invert df in
        let delta := mat_vec df_inverse f in
        match line_search line_search_fuel p p_unit f delta 1 with
        | LS_out_of_fuel => (Newton_out_of_fuel, 1%nat)
        | LS_fail => (Newton_fail_line_search, 1%nat)
        | LS_accept p_unit' p_real' f' =>
            let newton_iteration' := S newton_iteration in
            if Nat.ltb newton_iteration_limit newton_iteration'
            then (Newton_fail_iterations, 1%nat)
            else
              let last_f_weighted_norm_square :=
                norm_square (mat_vec df_inverse f') in
              if eps * eps <? last_f_weighted_norm_square
              then
                let r := newton_loop fuel' p newton_iteration' p_unit' p_real' f' in
                (fst r, S (snd r))
              else (Newton_converged p_unit', 1%nat)
        end
  end.

(** The whole function, with its early exit. *)
Definition newton_run (p : Vec) (initial_p_unit : UPt) : newton_outcome UPt * nat :=
  let p_unit := initial_p_unit in
  let p_real := mapped_location p_unit in
  let f := vsub (fst p_real) p in
  if norm_square f <? 1e-24 * mat_norm_square (snd p_real)
  then (Newton_early_out p_unit, 0%nat)
  else newton_loop newton_fuel p 0 p_unit p_real f.

Definition do_transform_real_to_unit_cell_internal (p : Vec) (initial_p_unit : UPt)
  : UPt :=
  match fst (newton_run p initial_p_unit) with
  | Newton_early_out u => u
  | Newton_converged u => u
  | _ => invalid_point
  end.

(** The tail of [MappingQGeneric::transform_real_to_unit_cell] once the
    initial guess is known (dim == spacedim). *)
Definition transform_real_to_unit_cell_newton (p : Vec) (initial_p_unit : UPt)
  : exc_result UPt :=
  let p_unit := do_transform_real_to_unit_cell_internal p initial_p_unit in
  if PrimFloat.eqb (first_coord p_unit) infinity
  then Throw_ExcTransformationFailed
  else Ret p_unit.

(** [MappingQGeneric::transform_points_real_to_unit_cell]. [initial_guess]
    is [project_to_unit_cell(apply_transformation(A_inv, x - b))]. The
    internal function does not throw, so the [catch] branch is never
    taken. *)
Variable initial_guess : Vec -> UPt.

Definition transform_points_real_to_unit_cell (real_points : list Vec) : list UPt :=
  map (fun x => do_transform_real_to_unit_cell_internal x (initial_guess x))
    real_points.

Definition newton_failed (o : newton_outcome UPt) : bool :=
  match o with
  | Newton_fail_determinant | Newton_fail_line_search | Newton_fail_iterations => true
  | _ => false
  end.

(** The states [(p_unit, p_real, f, newton_iteration)] found at the top of
    the loop body, when the early exit is not taken. *)
Inductive visited (p : Vec) (u0 : UPt) : UPt -> Vec * Mat -> Vec -> nat -> Prop :=
| visited_initial :
    (norm_square (vsub (fst (mapped_location u0)) p)
       <? 1e-24 * mat_norm_square (snd (mapped_location u0))) = false ->
    visited p u0 u0 (mapped_location u0) (vsub (fst (mapped_location u0)) p) 0
| visited_next u pr f it u' pr' f' :
    visited p u0 u pr f it ->
    (determinant (snd pr) <=? 0) = false ->
    line_search line_search_fuel p u f (mat_vec (invert (snd pr)) f) 1
      = LS_accept u' pr' f' ->
    Nat.ltb newton_iteration_limit (S it) = false ->
    (eps * eps <? norm_square (mat_vec (invert (snd pr)) f')) = true ->
    visited p u0 u' pr' f' (S it).

(** The three failure conditions, at a visited state. *)
Definition failure_at (p : Vec) (u : UPt) (pr : Vec * Mat) (f : Vec) (it : nat) : Prop :=
  (determinant (snd pr) <=? 0) = true \/
  ((determinant (snd pr) <=? 0) = false /\
   line_search line_search_fuel p u f (mat_vec (invert (snd pr)) f) 1 = LS_fail) \/
  ((determinant (snd pr) <=? 0) = false /\
   exists u' pr' f',
     line_search line_search_fuel p u f (mat_vec (invert (snd pr)) f) 1
       = LS_accept u' pr' f' /\
     Nat.ltb newton_iteration_limit (S it) = true).

(** The step lengths tried by the line search: 1, 1/2, ..., 1/32. *)
Definition step_lengths : list float := [1; 0.5; 0.25; 0.125; 0.0625; 0.03125].

End Newton.


Section Codim1.
Variables UPt FVec : Type.
Variable residual : UPt -> FVec.
Variable newton_update : UPt -> UPt.
Variable norm : FVec -> float.
Variable diameter : float.


End Codim1.

(** One-dimensional instances ([dim = spacedim = 1]): a point, a tensor of
    rank one and a tensor of rank two are a single [double];
    [determinant(J) = J], [invert(J) = 1/J], [norm_square(v) = v*v]. *)
Definition mapped_location_q1_1d (v0 v1 : float) (u : float) : float * float :=
  ((1 - u) * v0 + u * v1, v1 - v0).

Definition update_1d (u step_length delta : float) : float := u - step_length * delta.
Definition sq_1d (v : float) : float := v * v.
Definition inv_1d (m : float) : float := 1 / m.
Definition id_1d (m : float) : float := m.
Definition set_first_1d (_ x : float) : float := x.

Definition newton_run_1d (loc : float -> float * float) (p u0 : float)
  : newton_outcome float * nat :=
  newton_run float float float loc sub sq_1d sq_1d id_1d inv_1d mul update_1d p u0.

Definition do_transform_1d (loc : float -> float * float) (p u0 : float) : float :=
  do_transform_real_to_unit_cell_internal float float float loc sub sq_1d sq_1d
    id_1d inv_1d mul update_1d 0 set_first_1d p u0.

Definition pub_1d (loc : float -> float * float) (p u0 : float) : exc_result float :=
  transform_real_to_unit_cell_newton float float float loc sub sq_1d sq_1d id_1d
    inv_1d mul update_1d 0 set_first_1d id_1d p u0.

(** The map of a 1d cell of degree 3 whose Jacobian vanishes at the
    reference vertex 0: x(xi) = xi^3, x'(xi) = 3 xi^2. *)
Definition mapped_location_cubic_1d (u : float) : float * float :=
  (u * u * u, 3 * u * u).

End MappingQGenericImplementation.

(** ** The closed-form inversion of a bilinear quadrilateral,
    [internal::MappingQ1::transform_real_to_unit_cell] for dim = spacedim = 2.
    The C++ code converts its [double] inputs to [long double] and computes
    in it: on x86-64 the x87 extended format, a binary format with a 64-bit
    significand and the exponent range of emax = 16384, rounding to nearest
    even. It is modelled with the Standard Library's [SpecFloat] at these
    parameters; the results are rounded back to [double]. *)
Module MappingQ1.

Definition ld_prec : Z := 64.
Definition ld_emax : Z := 16384.

(** The [long double] values and operations. *)
Definition ld := spec_float.
Definition ld_add : ld -> ld -> ld := SFadd ld_prec ld_emax.
Definition ld_sub : ld -> ld -> ld := SFsub ld_prec ld_emax.
Definition ld_mul : ld -> ld -> ld := SFmul ld_prec ld_emax.
Definition ld_div : ld -> ld -> ld := SFdiv ld_prec ld_emax.
Definition ld_sqrt : ld -> ld := SFsqrt ld_prec ld_emax.
Definition ld_opp : ld -> ld := SFopp.
Definition ld_abs : ld -> ld := SFabs.
(** [<] and [==] of IEEE arithmetic: false when an operand is NaN. *)
Definition ld_lt : ld -> ld -> bool := SFltb.
Definition ld_eqb : ld -> ld -> bool := SFeqb.
(** [std::max(a, b)] is [(a < b) ? b : a]. *)
Definition ld_max (a b : ld) : ld := if ld_lt a b then b else a.

(** The conversion of a [double] to [long double] (exact), and the rounding
    of a [long double] to [double]. *)
Definition ld_of_double (x : float) : ld :=
  match Prim2SF x with
  | S754_finite s m e => binary_round ld_prec ld_emax s m e
  | y => y
  end.
Definition double_of_ld (x : ld) : float :=
  SF2Prim (match x with
           | S754_finite s m e => binary_round 53 1024 s m e
           | y => y
           end).

(** The constants of the code: the integers 1, 2, 4 and the [double]
    literals 0.0, 0.5, 1e-8 and 1e-10, all promoted to [long double]. *)
Definition ld_0 : ld := ld_of_double 0.
Definition ld_half : ld := ld_of_double 0.5.
Definition ld_1 : ld := ld_of_double 1.
Definition ld_2 : ld := ld_of_double 2.
Definition ld_4 : ld := ld_of_double 4.
Definition ld_1e_8 : ld := ld_of_double 1e-8.
Definition ld_1e_10 : ld := ld_of_double 1e-10.

Declare Scope ld_scope.
Delimit Scope ld_scope with ld.
Infix "+" := ld_add : ld_scope.
Infix "-" := ld_sub : ld_scope.
Infix "*" := ld_mul : ld_scope.
Infix "/" := ld_div : ld_scope.
Notation "- x" := (ld_opp x) : ld_scope.
Local Open Scope ld_scope.

(** The coefficients of the quadratic a eta^2 + b eta + c = 0 for eta,
    evaluated in the order of the C++ expressions. *)
Definition qa (x0 y0 x1 y1 x2 y2 x3 y3 : ld) : ld :=
  (x1 - x3) * (y0 - y2) - (x0 - x2) * (y1 - y3).

Definition qb (x0 y0 x1 y1 x2 y2 x3 y3 x y : ld) : ld :=
  - (x0 - x1 - x2 + x3) * y + (x - ld_2 * x1 + x3) * y0 - (x - ld_2 * x0 + x2) * y1
  - (x - x1) * y2 + (x - x0) * y3.

Definition qc (x0 y0 x1 y1 x y : ld) : ld :=
  (x0 - x1) * y - (x - x1) * y0 + (x - x0) * y1.

(** Special case #1: [b != 0.0 && std::abs(b) == sqrt_discriminant]. *)
Definition special_case_1 (b sqrt_discriminant : ld) : bool :=
  negb (ld_eqb b ld_0) && ld_eqb (ld_abs b) sqrt_discriminant.

(** The two candidate roots (eta1, eta2), by the three branches. *)
Definition eta_candidates (a b c sqrt_discriminant : ld) : ld * ld :=
  if special_case_1 b sqrt_discriminant then (- c / b, - c / b)
  else if ld_lt (ld_abs a) (ld_1e_8 * ld_abs b)
  then (ld_2 * c / (- b - sqrt_discriminant), ld_2 * c / (- b + sqrt_discriminant))
  else ((- b - sqrt_discriminant) / (ld_2 * a), (- b + sqrt_discriminant) / (ld_2 * a)).

(** [(std::abs(eta1 - 0.5) < std::abs(eta2 - 0.5)) ? eta1 : eta2] *)
Definition pick_eta (eta12 : ld * ld) : ld :=
  let '(eta1, eta2) := eta12 in
  if ld_lt (ld_abs (eta1 - ld_half)) (ld_abs (eta2 - ld_half)) then eta1 else eta2.

Definition subexpr (eta c0 c2 : ld) : ld := - eta * c2 + c0 * (eta - ld_1).
Definition xi_denominator (eta c0 c1 c2 c3 : ld) : ld :=
  eta * c3 - c1 * (eta - ld_1) + subexpr eta c0 c2.
Definition max_abs (c0 c1 c2 c3 : ld) : ld :=
  ld_max (ld_max (ld_abs c0) (ld_abs c1)) (ld_max (ld_abs c2) (ld_abs c3)).

Definition transform_real_to_unit_cell_q1_2d (v0 v1 v2 v3 p : float * float)
  : exc_result (float * float) :=
  let x := ld_of_double (fst p) in
  let y := ld_of_double (snd p) in
  let x0 := ld_of_double (fst v0) in
  let x1 := ld_of_double (fst v1) in
  let x2 := ld_of_double (fst v2) in
  let x3 := ld_of_double (fst v3) in
  let y0 := ld_of_double (snd v0) in
  let y1 := ld_of_double (snd v1) in
  let y2 := ld_of_double (snd v2) in
  let y3 := ld_of_double (snd v3) in
  let a := qa x0 y0 x1 y1 x2 y2 x3 y3 in
  let b := qb x0 y0 x1 y1 x2 y2 x3 y3 x y in
  let c := qc x0 y0 x1 y1 x y in
  let discriminant := b * b - ld_4 * a * c in
  (* AssertThrow (discriminant > 0.0, ExcTransformationFailed ()) *)
  if ld_lt ld_0 discriminant then
    let sqrt_discriminant := ld_sqrt discriminant in
    let eta := pick_eta (eta_candidates a b c sqrt_discriminant) in
    let subexpr0 := subexpr eta x0 x2 in
    let xi_denominator0 := xi_denominator eta x0 x1 x2 x3 in
    let max_x := max_abs x0 x1 x2 x3 in
    if ld_lt (ld_1e_10 * max_x) (ld_abs xi_denominator0) then
      Ret (double_of_ld ((x + subexpr0) / xi_denominator0), double_of_ld eta)
    else
      let max_y := max_abs y0 y1 y2 y3 in
      let subexpr1 := subexpr eta y0 y2 in
      let xi_denominator1 := xi_denominator eta y0 y1 y2 y3 in
      if ld_lt (ld_1e_10 * max_y) (ld_abs xi_denominator1) then
        Ret (double_of_ld ((subexpr1 + y) / xi_denominator1), double_of_ld eta)
      else Throw_ExcTransformationFailed
  else Throw_ExcTransformationFailed.

End MappingQ1.

(** ** Cell batches of MatrixFree ([internal::compute_dof_info] in
    matrix_free.templates.h): the regrouping of cells by active FE index in
    the task-parallel schemes with hp functionality, and the construction
    of [cell_level_index] from [renumbering] and [irregular_cells]. *)
Module MatrixFreeImplementation.

(** A [std::vector<unsigned char> irregular_cells] that is only written at
    indices inside its (sufficiently large) size, as a total function. *)
Definition set_irregular (irregular_cells : nat -> nat) (i v : nat) : nat -> nat :=
  fun k => if Nat.eqb k i then v else irregular_cells k.

Section Batches.
Variable n_lanes : nat.

(** The number of filled lanes of batch [i]:
    [irregular_cells[i] > 0 ? irregular_cells[i] : n_lanes]. *)
Definition n_comp (irregular_cells : nat -> nat) (i : nat) : nat :=
  if Nat.ltb 0 (irregular_cells i) then irregular_cells i else n_lanes.

Definition batch_lanes (irregular_cells : nat -> nat) (n_batches : nat) : list nat :=
  map (n_comp irregular_cells) (seq 0 n_batches).

(** The lanes of the batches of one group of [n] cells: full batches and one
    final partial batch if [n] is not a multiple of [n_lanes]. *)
Definition group_lanes (n : nat) : list nat :=
  repeat n_lanes (n / n_lanes) ++
  (if Nat.eqb (n mod n_lanes) 0 then [] else [n mod n_lanes]).

Definition n_batches_of (n : nat) : nat := (n + n_lanes - 1) / n_lanes.

Section HpRegroup.
Variable max_fe_index : nat.
Variable cell_active_fe_index : nat -> nat.

(** [renumbering_fe_index[cell_active_fe_index[cell]].push_back(cell)] *)
Definition push_by_fe_index (renumbering_fe_index : nat -> list nat) (cell : nat)
  : nat -> list nat :=
  fun j => if Nat.eqb j (cell_active_fe_index cell)
           then renumbering_fe_index j ++ [cell] else renumbering_fe_index j.

(** One iteration of the write-back loop over [j < max_fe_index]: the cells
    of group [j] are written to [renumbering], the lane count of the group's
    last batch to [irregular_cells], and [n_macro_cells_before] advances by
    the number of batches of the group. *)
Definition write_group (st : list nat * (nat -> nat) * nat) (group : list nat)
  : list nat * (nat -> nat) * nat :=
  let '(renumbering, irregular_cells, n_macro_cells_before) := st in
  (renumbering ++ group,
   set_irregular irregular_cells (length group / n_lanes + n_macro_cells_before)
     (length group mod n_lanes),
   n_macro_cells_before + (length group + n_lanes - 1) / n_lanes).

(** Bucket the cells of one segment by active FE index and write the
    buckets back in FE index order. *)
Definition regroup_segment (cells : list nat) (irregular_cells : nat -> nat)
  (n_macro_cells_before : nat) : list nat * (nat -> nat) * nat :=
  let renumbering_fe_index := fold_left push_by_fe_index cells (fun _ => []) in
  fold_left write_group (map renumbering_fe_index (seq 0 max_fe_index))
    ([], irregular_cells, n_macro_cells_before).

(** The [hp_functionality_enabled] branch of the color schemes: the cells
    before [start_nonboundary * n_lanes] and the remaining locally owned
    cells are regrouped separately; ghost cells keep their place. Returns
    the new [renumbering], [irregular_cells] and [n_macro_cells_before]. *)
Definition hp_regroup (renumbering : list nat) (n_active_cells start_nonboundary : nat)
  : list nat * (nat -> nat) * nat :=
  let owned := firstn n_active_cells renumbering in
  let n_boundary := Nat.min (start_nonboundary * n_lanes) n_active_cells in
  let '(r1, irr1, before1) :=
    regroup_segment (firstn n_boundary owned) (fun _ => 0) 0 in
  let '(r2, irr2, before2) :=
    regroup_segment (skipn n_boundary owned) irr1 before1 in
  (r1 ++ r2 ++ skipn n_active_cells renumbering, irr2, before2).

(** The number of cells of each active FE index in a segment. *)
Definition group_sizes (cells : list nat) : list nat :=
  map (fun j => length (filter (fun c => Nat.eqb (cell_active_fe_index c) j) cells))
    (seq 0 max_fe_index).

End HpRegroup.

Section CellLevelIndex.
Variable A : Type.

(** [cell_level_index_old[renumbering[k]]], [None] when out of range. *)
Definition lookup_cell (cell_level_index_old : list A) (renumbering : list nat) (k : nat)
  : option A :=
  match nth_error renumbering k with
  | Some c => nth_error cell_level_index_old c
  | None => None
  end.

(** The [n] lanes starting at [position_cell]. *)
Fixpoint collect_lanes (old : list A) (renumbering : list nat) (position_cell n : nat)
  : option (list A) :=
  match n with
  | 0 => Some []
  | S n' =>
      match lookup_cell old renumbering position_cell with
      | Some x =>
          match collect_lanes old renumbering (S position_cell) n' with
          | Some l => Some (x :: l)
          | None => None
          end
      | None => None
      end
  end.

(** The loop over the batches [i] building [cell_level_index]: the
    [n_comp] cells of the batch, then [n_lanes - n_comp] copies of the last
    of them; [position_cell] advances by [n_comp]. *)
Fixpoint fill_cell_level_index (old : list A) (renumbering : list nat)
  (irregular_cells : nat -> nat) (i n_batches position_cell : nat) : option (list A) :=
  match n_batches with
  | 0 => Some []
  | S n_batches' =>
      let nc := n_comp irregular_cells i in
      match collect_lanes old renumbering position_cell nc,
            lookup_cell old renumbering (position_cell + nc - 1),
            fill_cell_level_index old renumbering irregular_cells (S i) n_batches'
              (position_cell + nc) with
      | Some filled, Some last, Some rest =>
          Some (filled ++ repeat last (n_lanes - nc) ++ rest)
      | _, _, _ => None
      end
  end.

Definition cell_level_index (old : list A) (renumbering : list nat)
  (irregular_cells : nat -> nat) (n_batches : nat) : option (list A) :=
  fill_cell_level_index old renumbering irregular_cells 0 n_batches 0.

End CellLevelIndex.

(** The first cell of batch [i]: the sum of the lane counts of the batches
    before it. *)
Definition batch_offset (irregular_cells : nat -> nat) (i : nat) : nat :=
  list_sum (batch_lanes irregular_cells i).

End Batches.

Arguments lookup_cell {A}.
Arguments collect_lanes {A}.
Arguments fill_cell_level_index n_lanes {A}.
Arguments cell_level_index n_lanes {A}.

End MatrixFreeImplementation.

(** ** The constraint pool of MatrixFree ([MatrixFree::initialize_indices]). *)
Module ConstraintPool.

Section Pool.
Variable C : Type.
Variable C_eq_dec : forall x y : C, {x = y} + {x <> y}.

(** Modelled from the spec: [ConstraintValues::constraints], a map from a
    coefficient vector to its pool row, content addressed. As an association
    list in insertion order; the order in which the [std::map] iterates is a
    separate argument of [set_constraint_pool]. *)
Definition constraint_map := list (list C * nat).

Fixpoint find_constraint (constraints : constraint_map) (v : list C) : option nat :=
  match constraints with
  | [] => None
  | (w, i) :: rest =>
      if list_eq_dec C_eq_dec w v then Some i else find_constraint rest v
  end.

(** Modelled from the spec: inserting a coefficient vector returns the row
    of an equal vector already present, or gives the vector the next row
    index [constraints.size()]. *)
Definition insert_constraint (constraints : constraint_map) (v : list C)
  : constraint_map * nat :=
  match find_constraint constraints v with
  | Some i => (constraints, i)
  | None => (constraints ++ [(v, length constraints)], length constraints)
  end.

(** Modelled from the spec: the map after the constraints of all cells have
    been inserted, starting from an empty map. *)
Definition insert_all (vs : list (list C)) : constraint_map :=
  fold_left (fun cs v => fst (insert_constraint cs v)) vs [].

(** [constraints[it.second] = &it.first], with [AssertIndexRange]. *)
Definition set_slot (slots : list (option (list C))) (i : nat) (v : list C)
  : option (list (option (list C))) :=
  if Nat.ltb i (length slots)
  then Some (firstn i slots ++ Some v :: skipn (S i) slots) else None.

Fixpoint fill_slots (entries : constraint_map) (slots : list (option (list C)))
  : option (list (option (list C))) :=
  match entries with
  | [] => Some slots
  | (v, i) :: rest =>
      match set_slot slots i v with
      | Some slots' => fill_slots rest slots'
      | None => None
      end
  end.

(** [Assert(constraint != nullptr, ExcInternalError())] for every slot. *)
Fixpoint all_set (slots : list (option (list C))) : option (list (list C)) :=
  match slots with
  | [] => Some []
  | Some v :: rest =>
      match all_set rest with Some l => Some (v :: l) | None => None end
  | None :: _ => None
  end.

(** One iteration of the loop over [constraints]: append the coefficients
    to [constraint_pool_data] and push its new size to
    [constraint_pool_row_index]. *)
Definition pool_step (st : list C * list nat) (row : list C) : list C * list nat :=
  let '(constraint_pool_data, constraint_pool_row_index) := st in
  (constraint_pool_data ++ row,
   constraint_pool_row_index ++ [length (constraint_pool_data ++ row)]).

(** The pool set-up of [initialize_indices]; [map_entries] is the
    iteration sequence of [constraint_values.constraints]. *)
Definition set_constraint_pool (map_entries : constraint_map)
  : option (list C * list nat) :=
  match fill_slots map_entries (repeat None (length map_entries)) with
  | Some slots =>
      match all_set slots with
      | Some constraints => Some (fold_left pool_step constraints ([], [0]))
      | None => None
      end
  | None => None
  end.

End Pool.

Arguments find_constraint {C} C_eq_dec constraints v.
Arguments insert_constraint {C} C_eq_dec constraints v.
Arguments insert_all {C} C_eq_dec vs.
Arguments set_slot {C} slots i v.
Arguments fill_slots {C} entries slots.
Arguments all_set {C} slots.
Arguments pool_step {C} st row.
Arguments set_constraint_pool {C} map_entries.

End ConstraintPool.

(** ** [MappingQGeneric::fill_fe_values] and its [maybe_update_*] helpers:
    which cached quantities are recomputed for a cell, depending on the
    update flags and on the cell-similarity tag. The numerical content of
    each quantity (sums over shape functions, push-forwards, determinants)
    is a parameter; the model keeps the control flow: which array is
    written, at which points, and under which condition. Debug-mode
    [Assert]s on array sizes are not modelled (release build). *)
Module FillFEValues.

(** [CellSimilarity::Similarity]. *)
Inductive Similarity :=
| none
| translation
| inverted_translation
| invalid_next_cell.

Definition Similarity_eqb (s t : Similarity) : bool :=
  match s, t with
  | none, none | translation, translation
  | inverted_translation, inverted_translation
  | invalid_next_cell, invalid_next_cell => true
  | _, _ => false
  end.

(** The bits of [UpdateFlags] read by [fill_fe_values]. *)
Record UpdateFlags := {
  update_quadrature_points : bool;
  update_contravariant_transformation : bool;
  update_covariant_transformation : bool;
  update_volume_elements : bool;
  update_jacobian_grads : bool;
  update_jacobian_pushed_forward_grads : bool;
  update_jacobian_2nd_derivatives : bool;
  update_jacobian_pushed_forward_2nd_derivatives : bool;
  update_jacobian_3rd_derivatives : bool;
  update_jacobian_pushed_forward_3rd_derivatives : bool;
  update_JxW_values : bool;
  update_normal_vectors : bool;
  update_jacobians : bool;
  update_inverse_jacobians : bool
}.

(** [for (point = 0; point < n; ++point) arr[point] = f(point, arr[point]);]
    starting at index [p]. *)
Fixpoint update_from {X : Type} (p n : nat) (f : nat -> X -> X) (arr : list X)
  : list X :=
  match arr with
  | [] => []
  | x :: r => (if p <? n then f p x else x) :: update_from (S p) n f r
  end.

Definition update_points {X : Type} (n : nat) (f : nat -> X -> X) (arr : list X)
  : list X := update_from 0 n f arr.

Section Fill.
(** Types of the per-point quantities: support points, quadrature points,
    [DerivativeForm<1,dim,spacedim>] (contravariant), its covariant form,
    scalars (volume elements, JxW, weights), [DerivativeForm<2..4>] and
    [Tensor<3..5,spacedim>] (pushed-forward derivatives), normal vectors. *)
Variables (Cell SupportPoint QPoint Contra Cov Scalar
           JacGrad PFGrad Jac2nd PF2nd Jac3rd PF3rd Normal : Type).

(** [compute_mapping_support_points(cell)]. *)
Variable compute_mapping_support_points : Cell -> list SupportPoint.
(** The values computed at quadrature point [point] from the support points
    (and, for the pushed-forward quantities, from [data.covariant]). *)
Variable q_point_at : list SupportPoint -> nat -> QPoint.
Variable contravariant_at : list SupportPoint -> nat -> Contra.
Variable jacobian_grad_at : list SupportPoint -> nat -> JacGrad.
Variable pushed_forward_grad_at : list SupportPoint -> list Cov -> nat -> PFGrad.
Variable jacobian_2nd_at : list SupportPoint -> nat -> Jac2nd.
Variable pushed_forward_2nd_at : list SupportPoint -> list Cov -> nat -> PF2nd.
Variable jacobian_3rd_at : list SupportPoint -> nat -> Jac3rd.
Variable pushed_forward_3rd_at : list SupportPoint -> list Cov -> nat -> PF3rd.
(** The tensor-product evaluation ([FEEvaluationFactory::evaluate]) and the
    collocation shortcut of [maybe_update_q_points_Jacobians_and_grads_tensor]. *)
Variable tensor_q_point_at : list SupportPoint -> nat -> QPoint.
Variable tensor_contravariant_at : list SupportPoint -> nat -> Contra.
Variable tensor_jacobian_grad_at : list SupportPoint -> nat -> JacGrad.
Variable collocation_q_point_at : list SupportPoint -> nat -> QPoint.
(** [covariant_form()], [determinant()], [transpose()] (of the covariant
    form, stored as an inverse Jacobian of type [Contra]), the codim > 0 area
    element sqrt(det G), products of scalars, and the cell normal
    (cross product, normalised, flipped if [direction_flag() == false]). *)
Variable covariant_form : Contra -> Cov.
Variable determinant : Contra -> Scalar.
Variable transpose : Cov -> Contra.
Variable area_element : Contra -> Scalar.
Variable mult : Scalar -> Scalar -> Scalar.
Variable cell_normal : Cell -> Contra -> Normal.
Variable neg_normal : Normal -> Normal.
(** Default-constructed values ([DerivativeForm<1,dim,spacedim>()] and the
    like), also used for reads out of range, which the C++ code excludes by
    its size assertions. *)
Variables (zero_contra : Contra) (zero_cov : Cov) (zero_scalar : Scalar).

Record InternalData := {
  update_each : UpdateFlags;
  tensor_product_quadrature : bool;
  (* data.shape_info.element_type == tensor_symmetric_collocation *)
  tensor_symmetric_collocation : bool;
  (* data.shape_info.n_q_points *)
  shape_info_n_q_points : nat;
  mapping_support_points : list SupportPoint;
  contravariant : list Contra;
  covariant : list Cov;
  volume_elements : list Scalar
}.

Record OutputData := {
  quadrature_points : list QPoint;
  jacobian_grads : list JacGrad;
  jacobian_pushed_forward_grads : list PFGrad;
  jacobian_2nd_derivatives : list Jac2nd;
  jacobian_pushed_forward_2nd_derivatives : list PF2nd;
  jacobian_3rd_derivatives : list Jac3rd;
  jacobian_pushed_forward_3rd_derivatives : list PF3rd;
  JxW_values : list Scalar;
  normal_vectors : list Normal;
  jacobians : list Contra;
  inverse_jacobians : list Contra
}.

Definition set_support_points (data : InternalData) sp : InternalData :=
  {| update_each := update_each data;
     tensor_product_quadrature := tensor_product_quadrature data;
     tensor_symmetric_collocation := tensor_symmetric_collocation data;
     shape_info_n_q_points := shape_info_n_q_points data;
     mapping_support_points := sp;
     contravariant := contravariant data;
     covariant := covariant data;
     volume_elements := volume_elements data |}.

Definition set_jacobians_data (data : InternalData) contra cov vol : InternalData :=
  {| update_each := update_each data;
     tensor_product_quadrature := tensor_product_quadrature data;
     tensor_symmetric_collocation := tensor_symmetric_collocation data;
     shape_info_n_q_points := shape_info_n_q_points data;
     mapping_support_points := mapping_support_points data;
     contravariant := contra;
     covariant := cov;
     volume_elements := vol |}.

Definition not_translation (s : Similarity) : bool :=
  negb (Similarity_eqb s translation).

(** [maybe_compute_q_points]. *)
Definition maybe_compute_q_points (data : InternalData) (qp : list QPoint)
  : list QPoint :=
  if update_quadrature_points (update_each data)
  then update_points (length qp)
         (fun point _ => q_point_at (mapping_support_points data) point) qp
  else qp.

(** The covariant and volume-element updates shared by
    [maybe_update_Jacobians] and the tensor-product path; the loop bound is
    [n_q_points] and reads [data.contravariant]. *)
Definition update_covariant_and_volume (cell_similarity : Similarity)
  (n_q_points : nat) (flags : UpdateFlags) (contra : list Contra)
  (cov : list Cov) (vol : list Scalar) : list Cov * list Scalar :=
  let cov' :=
    if update_covariant_transformation flags then
      if not_translation cell_similarity
      then update_points n_q_points
             (fun point _ => covariant_form (nth point contra zero_contra)) cov
      else cov
    else cov in
  let vol' :=
    if update_volume_elements flags then
      if not_translation cell_similarity
      then update_points n_q_points
             (fun point _ => determinant (nth point contra zero_contra)) vol
      else vol
    else vol in
  (cov', vol').

(** [maybe_update_Jacobians]. *)
Definition maybe_update_Jacobians (cell_similarity : Similarity)
  (data : InternalData) : InternalData :=
  let flags := update_each data in
  let contra :=
    if update_contravariant_transformation flags then
      if not_translation cell_similarity
      then update_points (length (contravariant data))
             (fun point _ => contravariant_at (mapping_support_points data) point)
             (map (fun _ => zero_contra) (contravariant data))
      else contravariant data
    else contravariant data in
  let '(cov, vol) :=
    update_covariant_and_volume cell_similarity (length contra) flags contra
      (covariant data) (volume_elements data) in
  set_jacobians_data data contra cov vol.

(** [maybe_update_jacobian_grads]. *)
Definition maybe_update_jacobian_grads (cell_similarity : Similarity)
  (data : InternalData) (jg : list JacGrad) : list JacGrad :=
  if update_jacobian_grads (update_each data) then
    if not_translation cell_similarity
    then update_points (length jg)
           (fun point _ => jacobian_grad_at (mapping_support_points data) point) jg
    else jg
  else jg.

(** [maybe_update_q_points_Jacobians_and_grads_tensor]: the evaluation
    flags, the collocation shortcut (which returns early), then the
    post-processing of values, gradients, covariant forms, volume elements
    and hessians. *)
Definition maybe_update_q_points_Jacobians_and_grads_tensor
  (cell_similarity : Similarity) (data : InternalData)
  (qp : list QPoint) (jg : list JacGrad)
  : InternalData * list QPoint * list JacGrad :=
  let flags := update_each data in
  let n_q_points := shape_info_n_q_points data in
  let sp := mapping_support_points data in
  let eval_values := update_quadrature_points flags in
  let eval_gradients :=
    not_translation cell_similarity && update_contravariant_transformation flags in
  let eval_hessians :=
    not_translation cell_similarity && update_jacobian_grads flags in
  if eval_values && negb eval_gradients && negb eval_hessians
     && tensor_symmetric_collocation data
  then (data, update_points n_q_points (fun q _ => collocation_q_point_at sp q) qp, jg)
  else
    let qp' :=
      if eval_values
      then update_points n_q_points (fun i _ => tensor_q_point_at sp i) qp
      else qp in
    let contra :=
      if eval_gradients
      then update_points n_q_points (fun point _ => tensor_contravariant_at sp point)
             (map (fun _ => zero_contra) (contravariant data))
      else contravariant data in
    let '(cov, vol) :=
      update_covariant_and_volume cell_similarity n_q_points flags contra
        (covariant data) (volume_elements data) in
    let jg' :=
      if eval_hessians
      then update_points n_q_points (fun point _ => tensor_jacobian_grad_at sp point) jg
      else jg in
    (set_jacobians_data data contra cov vol, qp', jg').

(** The six [maybe_update_jacobian_*] helpers for the higher derivatives
    share one shape: [if (flag) if (cell_similarity != translation) loop]. *)
Definition maybe_update_higher {X : Type} (flag : bool) (cell_similarity : Similarity)
  (f : nat -> X) (arr : list X) : list X :=
  if flag then
    if not_translation cell_similarity
    then update_points (length arr) (fun point _ => f point) arr
    else arr
  else arr.

(** The JxW / normal-vector loop of [fill_fe_values]. *)
Definition update_JxW_and_normals (dim spacedim : nat) (cell : Cell)
  (computed_cell_similarity : Similarity) (flags : UpdateFlags)
  (weights : list Scalar) (contra : list Contra) (n_q_points : nat)
  (jxw : list Scalar) (normals : list Normal) : list Scalar * list Normal :=
  if update_normal_vectors flags || update_JxW_values flags then
    if not_translation computed_cell_similarity then
      let J point := nth point contra zero_contra in
      let w point := nth point weights zero_scalar in
      if dim =? spacedim then
        (update_points n_q_points (fun point _ => mult (w point) (determinant (J point))) jxw,
         normals)
      else
        (update_points n_q_points (fun point _ => mult (area_element (J point)) (w point)) jxw,
         if Similarity_eqb computed_cell_similarity inverted_translation then
           (if update_normal_vectors flags
            then update_points n_q_points (fun _ n => neg_normal n) normals
            else normals)
         else
           (if update_normal_vectors flags
            then update_points n_q_points (fun point _ => cell_normal cell (J point)) normals
            else normals))
    else (jxw, normals)
  else (jxw, normals).

(** [MappingQGeneric::fill_fe_values]: returns the computed cell similarity,
    the updated internal data and the updated output data. *)
Definition fill_fe_values (dim spacedim polynomial_degree : nat) (cell : Cell)
  (cell_similarity : Similarity) (weights : list Scalar)
  (data0 : InternalData) (output_data : OutputData)
  : Similarity * InternalData * OutputData :=
  let n_q_points := length weights in
  let data := set_support_points data0 (compute_mapping_support_points cell) in
  let computed_cell_similarity :=
    if polynomial_degree =? 1 then cell_similarity else none in
  let '(data, qp, jg) :=
    if (1 <? dim) && tensor_product_quadrature data then
      maybe_update_q_points_Jacobians_and_grads_tensor computed_cell_similarity
        data (quadrature_points output_data) (jacobian_grads output_data)
    else
      let qp := maybe_compute_q_points data (quadrature_points output_data) in
      let data := maybe_update_Jacobians computed_cell_similarity data in
      let jg := maybe_update_jacobian_grads computed_cell_similarity data
                  (jacobian_grads output_data) in
      (data, qp, jg) in
  let flags := update_each data in
  let sp := mapping_support_points data in
  let pfg := maybe_update_higher (update_jacobian_pushed_forward_grads flags)
               computed_cell_similarity (pushed_forward_grad_at sp (covariant data))
               (jacobian_pushed_forward_grads output_data) in
  let j2 := maybe_update_higher (update_jacobian_2nd_derivatives flags)
              computed_cell_similarity (jacobian_2nd_at sp)
              (jacobian_2nd_derivatives output_data) in
  let pf2 := maybe_update_higher (update_jacobian_pushed_forward_2nd_derivatives flags)
               computed_cell_similarity (pushed_forward_2nd_at sp (covariant data))
               (jacobian_pushed_forward_2nd_derivatives output_data) in
  let j3 := maybe_update_higher (update_jacobian_3rd_derivatives flags)
              computed_cell_similarity (jacobian_3rd_at sp)
              (jacobian_3rd_derivatives output_data) in
  let pf3 := maybe_update_higher (update_jacobian_pushed_forward_3rd_derivatives flags)
               computed_cell_similarity (pushed_forward_3rd_at sp (covariant data))
               (jacobian_pushed_forward_3rd_derivatives output_data) in
  let '(jxw, normals) :=
    update_JxW_and_normals dim spacedim cell computed_cell_similarity flags
      weights (contravariant data) n_q_points
      (JxW_values output_data) (normal_vectors output_data) in
  let jac :=
    if update_jacobians flags then
      if not_translation computed_cell_similarity
      then update_points n_q_points
             (fun point _ => nth point (contravariant data) zero_contra)
             (jacobians output_data)
      else jacobians output_data
    else jacobians output_data in
  let inv :=
    if update_inverse_jacobians flags then
      if not_translation computed_cell_similarity
      then update_points n_q_points
             (fun point _ => transpose (nth point (covariant data) zero_cov))
             (inverse_jacobians output_data)
      else inverse_jacobians output_data
    else inverse_jacobians output_data in
  (computed_cell_similarity, data,
   {| quadrature_points := qp;
      jacobian_grads := jg;
      jacobian_pushed_forward_grads := pfg;
      jacobian_2nd_derivatives := j2;
      jacobian_pushed_forward_2nd_derivatives := pf2;
      jacobian_3rd_derivatives := j3;
      jacobian_pushed_forward_3rd_derivatives := pf3;
      JxW_values := jxw;
      normal_vectors := normals;
      jacobians := jac;
      inverse_jacobians := inv |}).

End Fill.
End FillFEValues.

(** ** The order of checks and phases in
    [internal::MatrixFreeFunctions::compute_dof_info] (matrix_free.templates.h)
    that concerns [cell_vectorization_category] and the task-parallel scheme.
    The per-cell work is recorded as a trace of phases; a failed debug-mode
    [Assert] ends the trace with the exception it raises. *)
Module ComputeDofInfo.

(** [TaskInfo::TasksParallelScheme]. *)
Inductive TasksParallelScheme :=
| none
| partition_partition
| partition_color
| color.

Definition scheme_is_none (s : TasksParallelScheme) : bool :=
  match s with none => true | _ => false end.

(** Exceptions raised by the [Assert]s on this path. *)
Inductive AssertError :=
| ExcNotImplemented
| ExcIndexRange
| ExcMessage.

Inductive Phase :=
(* the loop over all cells that reads the DoF indices (read_dof_indices) and
   copies the categories into cell_active_fe_index *)
| Read_dof_indices
(* task_info.create_blocks_serial (scheme == none) *)
| Create_blocks_serial
(* make_boundary_cells_divisible, initial_setup_blocks_tasks, ... (scheme != none) *)
| Task_partitioning.

(** [debug]: whether [Assert] is active. [fe_collection_sizes]: the size of
    the FE collection of each DoF handler. [on_mg_level]: whether
    [mg_level != invalid_unsigned_int]. [cell_indices]: the index used to
    look up each cell's category ([active_cell_index()] resp. the level
    index). The result is the trace of phases run and the failed assertion,
    if any. *)
Definition compute_dof_info_categories (debug : bool)
  (fe_collection_sizes : list nat) (on_mg_level : bool)
  (cell_indices : list nat) (scheme : TasksParallelScheme)
  (cell_vectorization_category : list nat) : list Phase * option AssertError :=
  let cell_categorization_enabled :=
    negb (Nat.eqb (length cell_vectorization_category) 0) in
  (* if (fes.size() > 1) Assert(cell_vectorization_category.empty(),
     ExcNotImplemented()) *)
  if debug && existsb (fun n => 1 <? n) fe_collection_sizes
     && cell_categorization_enabled
  then ([], Some ExcNotImplemented)
  else
  (* AssertIndexRange(index, cell_vectorization_category.size()) in the loop
     over the cells, for the handlers whose categories are copied *)
  if debug && cell_categorization_enabled
     && existsb (fun n => on_mg_level || (n =? 1)) fe_collection_sizes
     && existsb (fun i => length cell_vectorization_category <=? i) cell_indices
  then ([Read_dof_indices], Some ExcIndexRange)
  else
  (* Assert(task_info.scheme == none || cell_vectorization_category.empty(),
     ExcMessage(...)) *)
  if debug && negb (scheme_is_none scheme || negb cell_categorization_enabled)
  then ([Read_dof_indices], Some ExcMessage)
  else if scheme_is_none scheme
  then ([Read_dof_indices; Create_blocks_serial], None)
  else ([Read_dof_indices; Task_partitioning], None).

End ComputeDofInfo.

(** ** The public [MappingQGeneric<dim,spacedim>::transform_real_to_unit_cell]
    and the dispatch of [transform_real_to_unit_cell_internal] over the six
    instantiated (dim, spacedim) pairs. Points are lists of coordinates
    ([Point<dim>] has [dim] entries, [Point<spacedim>] has [spacedim]). *)
Module MappingQGenericPublic.
Local Open Scope float_scope.

Definition point := list float.

(** [internal::MappingQ1::transform_real_to_unit_cell] for dim = 1:
    [Point<1>((p[0] - vertices[0](0)) / (vertices[1](0) - vertices[0](0)))]. *)
Definition q1_transform_real_to_unit_cell_1d (v0 v1 p : point) : point :=
  [(nth 0 p 0 - nth 0 v0 0) / (nth 0 v1 0 - nth 0 v0 0)].

(** [-eps <= point(1) <= 1 + eps && -eps <= point(0) <= 1 + eps],
    eps = 1e-15. *)
Definition in_unit_square_eps (u : point) : bool :=
  let eps := 1e-15 in
  (- eps <=? nth 1 u 0) && (nth 1 u 0 <=? 1 + eps) &&
  (- eps <=? nth 0 u 0) && (nth 0 u 0 <=? 1 + eps).

Section Public.
(** [debug]: whether [Assert] is active. *)
Variable debug : bool.
Variables (dim spacedim polynomial_degree : nat).
(** [this->preserves_vertex_locations()]. *)
Variable preserves_vertex_locations : bool.
(** The first two vertices of the cell ([get_vertices(cell)]), used by the
    1d formula. *)
Variables (v0 v1 : point).
(** [internal::MappingQ1::transform_real_to_unit_cell(vertices, p)] for
    dim = spacedim = 2 (the closed form, modelled over the reals in
    [MappingQ1]); it may throw [ExcTransformationFailed]. *)
Variable q1_transform_real_to_unit_cell_2d : point -> exc_result point.
(** [cell->real_to_unit_cell_affine_approximation(p)] and
    [GeometryInfo<dim>::project_to_unit_cell]. *)
Variable real_to_unit_cell_affine_approximation : point -> point.
Variable project_to_unit_cell : point -> point.
(** [do_transform_real_to_unit_cell_internal<dim>] (the Newton iteration
    of [MappingQGenericImplementation], which does not throw) and
    [do_transform_real_to_unit_cell_internal_codim1<dim>] (which may throw). *)
Variable newton_internal : point -> point -> point.
Variable codim1_internal : point -> point -> exc_result point.

(** [transform_real_to_unit_cell_internal]: the specialisations for
    (1,1), (2,2), (3,3) call the Newton iteration, those for (1,2) and
    (2,3) the codimension-one iteration, and the one for (1,3) is
    [Assert(false, ExcNotImplemented()); return {};]. *)
Definition transform_real_to_unit_cell_internal (p initial_p_unit : point)
  : exc_result point :=
  if Nat.eqb dim spacedim then Ret (newton_internal p initial_p_unit)
  else if (Nat.eqb dim 1 && Nat.eqb spacedim 2) || (Nat.eqb dim 2 && Nat.eqb spacedim 3)
  then codim1_internal p initial_p_unit
  else if debug then Abort_ExcNotImplemented
  else Ret (repeat 0 dim).

(** The [try] block of the exact formulas: [Some r] when the function
    returns [r] there, [None] when it breaks out of the [switch] or catches
    [ExcTransformationFailed] and falls through to the Newton code. *)
Definition exact_formula (p : point) : option (exc_result point) :=
  if preserves_vertex_locations && Nat.eqb polynomial_degree 1 &&
     (Nat.eqb dim 1 || (Nat.eqb dim 2 && Nat.eqb dim spacedim))
  then
    if Nat.eqb dim 1 then
      if Nat.eqb spacedim 1 then Some (Ret (q1_transform_real_to_unit_cell_1d v0 v1 p))
      else None
    else
      match q1_transform_real_to_unit_cell_2d p with
      | Ret point => if in_unit_square_eps point then Some (Ret point) else None
      | Throw_ExcTransformationFailed => None
      | Abort_ExcNotImplemented => Some Abort_ExcNotImplemented
      | Abort_ExcMessage => Some Abort_ExcMessage
      end
  else None.

Definition transform_real_to_unit_cell (p : point) : exc_result point :=
  match exact_formula p with
  | Some r => r
  | None =>
      let initial_p_unit :=
        if preserves_vertex_locations then real_to_unit_cell_affine_approximation p
        else repeat 0.5 dim in
      if preserves_vertex_locations && Nat.eqb dim 1 && Nat.eqb polynomial_degree 1
      then Ret initial_p_unit
      else
        let initial_p_unit := project_to_unit_cell initial_p_unit in
        match transform_real_to_unit_cell_internal p initial_p_unit with
        | Ret p_unit =>
            if PrimFloat.eqb (nth 0 p_unit 0) infinity
            then Throw_ExcTransformationFailed
            else Ret p_unit
        | Throw_ExcTransformationFailed => Throw_ExcTransformationFailed
        | Abort_ExcNotImplemented => Abort_ExcNotImplemented
        | Abort_ExcMessage => Abort_ExcMessage
        end
  end.

End Public.

(** A degree-2 segment in 3d along the first axis, with support points
    (0,0,0), (1,0,0) and the midpoint (1/2,0,0): the Lagrange basis on the
    support points 0, 1, 1/2 of the reference segment. *)
Definition q2_segment_unit_to_real (xi : float) : point :=
  let phi0 := (1 - xi) * (1 - 2 * xi) in
  let phi1 := xi * (2 * xi - 1) in
  let phim := 4 * xi * (1 - xi) in
  [phi0 * 0 + phi1 * 1 + phim * 0.5; 0; 0].

(** The clamp of [GeometryInfo<dim>::project_to_unit_cell], coordinate-wise. *)
Definition clamp_unit (u : point) : point :=
  map (fun x => if x <? 0 then 0 else if 1 <? x then 1 else x) u.

(** [transform_real_to_unit_cell] for this (1,3) cell of degree 2; the
    Newton and codim-1 iterations are not reached for (1,3). *)
Definition segment_1_3_transform (debug : bool) (p : point) : exc_result point :=
  transform_real_to_unit_cell debug 1 3 2 true [0] [1]
    (fun _ => Throw_ExcTransformationFailed) (fun q => [nth 0 q 0]) clamp_unit
    (fun _ u => u) (fun _ u => Ret u) p.

End MappingQGenericPublic.

(* ================================================================== *)
(** ** The update flags of MappingQGeneric and its [InternalData]
    ([requires_update_flags], [InternalData::initialize],
    [initialize_face], [get_data], [get_face_data]) and the debug checks
    of the [transform] functions, all in mapping_q_generic.cc. *)
Module MappingQGenericData.

(** The [UpdateFlags] bits that these functions test or set. In the C++
    code they are distinct bits of one mask; a mask is modelled as the set
    of its bits, a function to [bool]. *)
Inductive UpdateFlag :=
| update_quadrature_points
| update_JxW_values
| update_normal_vectors
| update_boundary_forms
| update_jacobians
| update_jacobian_grads
| update_inverse_jacobians
| update_covariant_transformation
| update_contravariant_transformation
| update_volume_elements
| update_jacobian_pushed_forward_grads
| update_jacobian_2nd_derivatives
| update_jacobian_pushed_forward_2nd_derivatives
| update_jacobian_3rd_derivatives
| update_jacobian_pushed_forward_3rd_derivatives.

Definition UpdateFlag_eq_dec (f g : UpdateFlag) : {f = g} + {f <> g}.
Proof. decide equality. Defined.

Definition flag_eqb (f g : UpdateFlag) : bool :=
  if UpdateFlag_eq_dec f g then true else false.

Definition UpdateFlags := UpdateFlag -> bool.

(** [update_default]: no bit set. *)
Definition update_default : UpdateFlags := fun _ => false.

(** [flags & (f1 | ... | fn)] converted to [bool]. *)
Definition any_of (flags : UpdateFlags) (fs : list UpdateFlag) : bool :=
  existsb flags fs.

(** [if (cond) out |= g;]: bit [g] is set if [cond] holds, the other
    bits are kept. *)
Definition or_flag_if (cond : bool) (out : UpdateFlags) (g : UpdateFlag) : UpdateFlags :=
  fun f => if flag_eqb f g then out f || cond else out f.

(** A mask of the listed bits. *)
Definition mask_of (fs : list UpdateFlag) : UpdateFlags :=
  fun f => existsb (flag_eqb f) fs.

(** The body of the loop of [requires_update_flags]: its five
    [if]-clauses, in their order. *)
Definition requires_update_flags_step (out : UpdateFlags) : UpdateFlags :=
  let out := or_flag_if
    (any_of out [update_JxW_values; update_normal_vectors])
    out update_boundary_forms in
  let out := or_flag_if
    (any_of out [update_covariant_transformation; update_JxW_values;
                 update_jacobians; update_jacobian_grads;
                 update_boundary_forms; update_normal_vectors])
    out update_contravariant_transformation in
  let out := or_flag_if
    (any_of out [update_inverse_jacobians; update_jacobian_pushed_forward_grads;
                 update_jacobian_pushed_forward_2nd_derivatives;
                 update_jacobian_pushed_forward_3rd_derivatives])
    out update_covariant_transformation in
  let out := or_flag_if
    (any_of out [update_contravariant_transformation])
    out update_volume_elements in
  let out := or_flag_if
    (any_of out [update_normal_vectors])
    out update_volume_elements in
  out.

(** [for (unsigned int i = 0; i < n; ++i) { ... }] *)
Fixpoint iterate_steps (n : nat) (out : UpdateFlags) : UpdateFlags :=
  match n with
  | 0 => out
  | S n' => iterate_steps n' (requires_update_flags_step out)
  end.

(** [MappingQGeneric::requires_update_flags]: [out = in], five passes of
    the loop. *)
Definition requires_update_flags (in_flags : UpdateFlags) : UpdateFlags :=
  iterate_steps 5 in_flags.

(** A [Quadrature<dim>] as far as [initialize] inspects it: its size, whether
    it is a tensor product, and (if so) the one-dimensional formulas of its
    [get_tensor_basis()], each a list of (point, weight) pairs. *)
Record Quadrature := {
  q_size : nat;
  q_is_tensor_product : bool;
  q_tensor_basis : list (list (float * float))
}.

(** The inner loop over [j]: no point or weight differs by more than
    [1.e-10] ([std::abs(a - b) > 1.e-10]). *)
Definition formulas_agree (a b : list (float * float)) : bool :=
  forallb (fun '((p1, w1), (p2, w2)) =>
             negb (PrimFloat.ltb 1e-10 (PrimFloat.abs (p1 - p2)) ||
                   PrimFloat.ltb 1e-10 (PrimFloat.abs (w1 - w2))))
          (combine a b).

(** The outer loop over [i = 1, ..., dim-1] over consecutive formulas of
    [quad_array]: sizes must agree, then points and weights. *)
Fixpoint tensor_basis_agrees (quad_array : list (list (float * float))) : bool :=
  match quad_array with
  | a :: ((b :: _) as rest) =>
      if negb (Nat.eqb (length a) (length b)) then false
      else if formulas_agree a b then tensor_basis_agrees rest
      else false
  | _ => true
  end.

(** The fields of [InternalData] that [initialize] and [initialize_face]
    set. A [std::vector] that is only resized here is modelled by its
    size; [shape_info_n_q_points] is [None] while [shape_info] has not
    been set up. *)
Record InternalData := {
  update_each : UpdateFlags;
  polynomial_degree : nat;
  n_shape_functions : nat;
  tensor_product_quadrature : bool;
  covariant : nat;
  contravariant : nat;
  volume_elements : nat;
  shape_values : nat;
  shape_derivatives : nat;
  shape_second_derivatives : nat;
  shape_third_derivatives : nat;
  shape_fourth_derivatives : nat;
  shape_info_n_q_points : option nat;
  aux : list nat;
  unit_tangentials : list nat
}.

(** [InternalData(polynomial_degree)]: [n_shape_functions] is
    [(polynomial_degree+1)^dim], [tensor_product_quadrature] is [false],
    all vectors empty. [unit_tangentials] is an array of
    [GeometryInfo<dim>::faces_per_cell * (dim-1)] empty vectors. *)
Definition new_internal_data (dim degree : nat) : InternalData := {|
  update_each := update_default;
  polynomial_degree := degree;
  n_shape_functions := Nat.pow (degree + 1) dim;
  tensor_product_quadrature := false;
  covariant := 0; contravariant := 0; volume_elements := 0;
  shape_values := 0; shape_derivatives := 0; shape_second_derivatives := 0;
  shape_third_derivatives := 0; shape_fourth_derivatives := 0;
  shape_info_n_q_points := None;
  aux := [];
  unit_tangentials := repeat 0 (2 * dim * (dim - 1))
|}.

(** [v.resize(n)] when [cond] holds. *)
Definition resize_if (cond : bool) (old n : nat) : nat := if cond then n else old.

(** [InternalData::initialize(update_flags, q, n_original_q_points)].
    [compute_shape_function_values] fills the resized arrays and leaves
    their sizes as they are. *)
Definition initialize (dim : nat) (data : InternalData) (update_flags : UpdateFlags)
  (q : Quadrature) (n_original_q_points : nat) : InternalData :=
  let n_q_points := q_size q in
  let needs_higher_order_terms :=
    any_of update_flags
      [update_jacobian_pushed_forward_grads; update_jacobian_2nd_derivatives;
       update_jacobian_pushed_forward_2nd_derivatives;
       update_jacobian_3rd_derivatives;
       update_jacobian_pushed_forward_3rd_derivatives] in
  let cov := resize_if (update_flags update_covariant_transformation)
               (covariant data) n_original_q_points in
  let contra := resize_if (update_flags update_contravariant_transformation)
                  (contravariant data) n_original_q_points in
  let vol := resize_if (update_flags update_volume_elements)
               (volume_elements data) n_original_q_points in
  let tp := q_is_tensor_product q in
  let tp := if Nat.ltb (polynomial_degree data) 2 || Nat.eqb n_q_points 1
            then false else tp in
  let '(tp, info) :=
    if Nat.ltb 1 dim then
      if tp then
        let tp := tensor_basis_agrees (q_tensor_basis q) in
        if tp then (true, Some n_q_points) else (false, shape_info_n_q_points data)
      else (tp, shape_info_n_q_points data)
    else (tp, shape_info_n_q_points data) in
  let n := n_shape_functions data * n_q_points in
  let big := Nat.eqb dim 1 || negb tp || needs_higher_order_terms in
  {| update_each := update_flags;
     polynomial_degree := polynomial_degree data;
     n_shape_functions := n_shape_functions data;
     tensor_product_quadrature := tp;
     covariant := cov; contravariant := contra; volume_elements := vol;
     shape_values :=
       resize_if (big && update_flags update_quadrature_points) (shape_values data) n;
     shape_derivatives :=
       resize_if (big && any_of update_flags
         [update_covariant_transformation; update_contravariant_transformation;
          update_JxW_values; update_boundary_forms; update_normal_vectors;
          update_jacobians; update_jacobian_grads; update_inverse_jacobians;
          update_jacobian_pushed_forward_grads; update_jacobian_2nd_derivatives;
          update_jacobian_pushed_forward_2nd_derivatives;
          update_jacobian_3rd_derivatives;
          update_jacobian_pushed_forward_3rd_derivatives])
         (shape_derivatives data) n;
     shape_second_derivatives :=
       resize_if (big && any_of update_flags
         [update_jacobian_grads; update_jacobian_pushed_forward_grads])
         (shape_second_derivatives data) n;
     shape_third_derivatives :=
       resize_if (big && any_of update_flags
         [update_jacobian_2nd_derivatives;
          update_jacobian_pushed_forward_2nd_derivatives])
         (shape_third_derivatives data) n;
     shape_fourth_derivatives :=
       resize_if (big && any_of update_flags
         [update_jacobian_3rd_derivatives;
          update_jacobian_pushed_forward_3rd_derivatives])
         (shape_fourth_derivatives data) n;
     shape_info_n_q_points := info;
     aux := aux data;
     unit_tangentials := unit_tangentials data |}.

(** [v.resize(n, value)] on a vector of vectors, each inner vector
    modelled by its size: existing entries are kept. *)
Definition resize_with (v : list nat) (n value : nat) : list nat :=
  firstn n v ++ repeat value (n - length v).

(** [InternalData::initialize_face]: [initialize], then [shape_info] for
    the face quadrature, and [aux] ([dim-1] vectors) and the
    [unit_tangentials] vectors of the faces [i] and, if [dim > 2],
    [faces_per_cell + i] (with [faces_per_cell = 2 * dim]) resized to
    [n_original_q_points]. *)
Definition initialize_face (dim : nat) (data : InternalData) (update_flags : UpdateFlags)
  (q : Quadrature) (n_original_q_points : nat) : InternalData :=
  let d := initialize dim data update_flags q n_original_q_points in
  let info := if Nat.ltb 1 dim && tensor_product_quadrature d
              then Some n_original_q_points else shape_info_n_q_points d in
  let tangential :=
    Nat.ltb 1 dim &&
    any_of (update_each d)
      [update_boundary_forms; update_normal_vectors; update_jacobians;
       update_JxW_values; update_inverse_jacobians] in
  {| update_each := update_each d;
     polynomial_degree := polynomial_degree d;
     n_shape_functions := n_shape_functions d;
     tensor_product_quadrature := tensor_product_quadrature d;
     covariant := covariant d; contravariant := contravariant d;
     volume_elements := volume_elements d;
     shape_values := shape_values d; shape_derivatives := shape_derivatives d;
     shape_second_derivatives := shape_second_derivatives d;
     shape_third_derivatives := shape_third_derivatives d;
     shape_fourth_derivatives := shape_fourth_derivatives d;
     shape_info_n_q_points := info;
     aux := if tangential then resize_with (aux d) (dim - 1) n_original_q_points
            else aux d;
     unit_tangentials :=
       if tangential then
         map (fun '(k, old) =>
                if Nat.ltb k (2 * dim) || (Nat.ltb 2 dim && Nat.ltb k (4 * dim))
                then n_original_q_points else old)
             (combine (seq 0 (length (unit_tangentials d))) (unit_tangentials d))
       else unit_tangentials d |}.

(** [MappingQGeneric::get_data(update_flags, q)]. *)
Definition get_data (dim polynomial_degree : nat) (update_flags : UpdateFlags)
  (q : Quadrature) : InternalData :=
  initialize dim (new_internal_data dim polynomial_degree)
    (requires_update_flags update_flags) q (q_size q).

(** [MappingQGeneric::get_face_data(update_flags, quadrature)] (and
    [get_subface_data]): [projected] is the quadrature that
    [QProjector<dim>::project_to_all_faces] (or [_subfaces]) makes of the
    face quadrature of size [n_face_q_points]. *)
Definition get_face_data (dim polynomial_degree : nat) (update_flags : UpdateFlags)
  (projected : Quadrature) (n_face_q_points : nat) : InternalData :=
  initialize_face dim (new_internal_data dim polynomial_degree)
    (requires_update_flags update_flags) projected n_face_q_points.

(** The mapping kinds the [transform] functions distinguish; [mapping_other]
    stands for the remaining enumerators of [MappingKind] (none of the
    functions here names them: they reach the [default] branches). *)
Inductive MappingKind :=
| mapping_covariant
| mapping_contravariant
| mapping_piola
| mapping_covariant_gradient
| mapping_contravariant_gradient
| mapping_piola_gradient
| mapping_covariant_hessian
| mapping_contravariant_hessian
| mapping_piola_hessian
| mapping_other.

(** The exceptions of the debug checks. [ExcAccessToUninitializedField]
    carries the flag its message names. *)
Inductive TransformError :=
| ExcDimensionMismatch
| ExcAccessToUninitializedField (named : UpdateFlag)
| ExcMessage_only_for_rank (rank : nat)
| ExcNotImplemented
| ExcInternalError.

(** The arrays of [InternalData] a transformation indexes. *)
Inductive InternalArray := a_covariant | a_contravariant | a_volume_elements.

Definition array_size (data : InternalData) (a : InternalArray) : nat :=
  match a with
  | a_covariant => covariant data
  | a_contravariant => contravariant data
  | a_volume_elements => volume_elements data
  end.

(** The [Mapping<dim, spacedim>::InternalDataBase] object passed to a
    [transform] call: the [InternalData] of this mapping, or the data object
    of another mapping (another class derived from [InternalDataBase]). *)
Inductive InternalDataBase :=
| QGeneric_data (data : InternalData)
| other_mapping_data.

(** What a call does: it stops at a failed [Assert]; in a release build,
    it [static_cast]s data of another mapping to [InternalData], which is
    undefined behaviour; or it runs its loop
    [for (i = 0; i < output.size(); ++i)], reading the listed arrays at the
    indices [0 .. n-1]. *)
Inductive TransformOutcome :=
| Assert_failed (e : TransformError)
| Undefined_static_cast
| Reads (arrays : list InternalArray) (n : nat).

(** [Assert(cond, e)]: active only in debug builds. *)
Definition assert_that (debug cond : bool) (e : TransformError)
  (k : TransformOutcome) : TransformOutcome :=
  if debug && negb cond then Assert_failed e else k.

Section Transform.
Variable debug : bool.

(** [Assert(dynamic_cast<const InternalData *>(&mapping_data) != nullptr,
    ExcInternalError())], then [static_cast<const InternalData &>]. *)
Definition with_internal_data (mapping_data : InternalDataBase)
  (k : InternalData -> TransformOutcome) : TransformOutcome :=
  match mapping_data with
  | QGeneric_data data => k data
  | other_mapping_data =>
      if debug then Assert_failed ExcInternalError else Undefined_static_cast
  end.

(** [transform_fields<dim, spacedim, rank>]. *)
Definition transform_fields (rank : nat) (kind : MappingKind) (mapping_data : InternalDataBase)
  (n_input n_output : nat) : TransformOutcome :=
  assert_that debug (Nat.eqb n_input n_output) ExcDimensionMismatch
  (with_internal_data mapping_data (fun data =>
  match kind with
  | mapping_contravariant =>
      assert_that debug (update_each data update_contravariant_transformation)
        (ExcAccessToUninitializedField update_contravariant_transformation)
        (Reads [a_contravariant] n_output)
  | mapping_piola =>
      assert_that debug (update_each data update_contravariant_transformation)
        (ExcAccessToUninitializedField update_contravariant_transformation)
      (assert_that debug (update_each data update_volume_elements)
        (ExcAccessToUninitializedField update_volume_elements)
      (assert_that debug (Nat.eqb rank 1) (ExcMessage_only_for_rank 1)
        (if negb (Nat.eqb rank 1) then Reads [] 0
         else Reads [a_contravariant; a_volume_elements] n_output)))
  | mapping_covariant =>
      assert_that debug (update_each data update_contravariant_transformation)
        (ExcAccessToUninitializedField update_covariant_transformation)
        (Reads [a_covariant] n_output)
  | _ => assert_that debug false ExcNotImplemented (Reads [] 0)
  end)).

(** [transform_gradients<dim, spacedim, rank>]. *)
Definition transform_gradients (rank : nat) (kind : MappingKind) (mapping_data : InternalDataBase)
  (n_input n_output : nat) : TransformOutcome :=
  assert_that debug (Nat.eqb n_input n_output) ExcDimensionMismatch
  (with_internal_data mapping_data (fun data =>
  match kind with
  | mapping_contravariant_gradient =>
      assert_that debug (update_each data update_covariant_transformation)
        (ExcAccessToUninitializedField update_covariant_transformation)
      (assert_that debug (update_each data update_contravariant_transformation)
        (ExcAccessToUninitializedField update_contravariant_transformation)
      (assert_that debug (Nat.eqb rank 2) (ExcMessage_only_for_rank 2)
        (Reads [a_contravariant; a_covariant] n_output)))
  | mapping_covariant_gradient =>
      assert_that debug (update_each data update_covariant_transformation)
        (ExcAccessToUninitializedField update_covariant_transformation)
      (assert_that debug (Nat.eqb rank 2) (ExcMessage_only_for_rank 2)
        (Reads [a_covariant] n_output))
  | mapping_piola_gradient =>
      assert_that debug (update_each data update_covariant_transformation)
        (ExcAccessToUninitializedField update_covariant_transformation)
      (assert_that debug (update_each data update_contravariant_transformation)
        (ExcAccessToUninitializedField update_contravariant_transformation)
      (assert_that debug (update_each data update_volume_elements)
        (ExcAccessToUninitializedField update_volume_elements)
      (assert_that debug (Nat.eqb rank 2) (ExcMessage_only_for_rank 2)
        (Reads [a_covariant; a_contravariant; a_volume_elements] n_output))))
  | _ => assert_that debug false ExcNotImplemented (Reads [] 0)
  end)).

(** [transform_hessians<dim, spacedim>]. *)
Definition transform_hessians (kind : MappingKind) (mapping_data : InternalDataBase)
  (n_input n_output : nat) : TransformOutcome :=
  assert_that debug (Nat.eqb n_input n_output) ExcDimensionMismatch
  (with_internal_data mapping_data (fun data =>
  match kind with
  | mapping_contravariant_hessian =>
      assert_that debug (update_each data update_covariant_transformation)
        (ExcAccessToUninitializedField update_covariant_transformation)
      (assert_that debug (update_each data update_contravariant_transformation)
        (ExcAccessToUninitializedField update_contravariant_transformation)
        (Reads [a_contravariant; a_covariant] n_output))
  | mapping_covariant_hessian =>
      assert_that debug (update_each data update_covariant_transformation)
        (ExcAccessToUninitializedField update_covariant_transformation)
        (Reads [a_covariant] n_output)
  | mapping_piola_hessian =>
      assert_that debug (update_each data update_covariant_transformation)
        (ExcAccessToUninitializedField update_covariant_transformation)
      (assert_that debug (update_each data update_contravariant_transformation)
        (ExcAccessToUninitializedField update_contravariant_transformation)
      (assert_that debug (update_each data update_volume_elements)
        (ExcAccessToUninitializedField update_volume_elements)
        (Reads [a_contravariant; a_volume_elements; a_covariant] n_output)))
  | _ => assert_that debug false ExcNotImplemented (Reads [] 0)
  end)).

(** [transform_differential_forms<dim, spacedim, rank>]. *)
Definition transform_differential_forms (kind : MappingKind) (mapping_data : InternalDataBase)
  (n_input n_output : nat) : TransformOutcome :=
  assert_that debug (Nat.eqb n_input n_output) ExcDimensionMismatch
  (with_internal_data mapping_data (fun data =>
  match kind with
  | mapping_covariant =>
      assert_that debug (update_each data update_contravariant_transformation)
        (ExcAccessToUninitializedField update_covariant_transformation)
        (Reads [a_covariant] n_output)
  | _ => assert_that debug false ExcNotImplemented (Reads [] 0)
  end)).

(** The argument types of the [MappingQGeneric::transform] overloads. *)
Inductive TransformInput :=
| Tensor_1 | DerivativeForm_1 | Tensor_2 | DerivativeForm_2 | Tensor_3.

(** [MappingQGeneric::transform], dispatched on the overload. *)
Definition transform (input : TransformInput) (kind : MappingKind)
  (mapping_data : InternalDataBase) (n_input n_output : nat) : TransformOutcome :=
  match input with
  | Tensor_1 => transform_fields 1 kind mapping_data n_input n_output
  | DerivativeForm_1 => transform_differential_forms kind mapping_data n_input n_output
  | Tensor_2 =>
      match kind with
      | mapping_contravariant =>
          transform_fields 2 kind mapping_data n_input n_output
      | mapping_piola_gradient | mapping_contravariant_gradient
      | mapping_covariant_gradient =>
          transform_gradients 2 kind mapping_data n_input n_output
      | _ => assert_that debug false ExcNotImplemented (Reads [] 0)
      end
  | DerivativeForm_2 =>
      assert_that debug (Nat.eqb n_input n_output) ExcDimensionMismatch
      (with_internal_data mapping_data (fun data =>
      match kind with
      | mapping_covariant_gradient =>
          assert_that debug (update_each data update_contravariant_transformation)
            (ExcAccessToUninitializedField update_covariant_transformation)
            (Reads [a_covariant] n_output)
      | _ => assert_that debug false ExcNotImplemented (Reads [] 0)
      end))
  | Tensor_3 =>
      match kind with
      | mapping_piola_hessian | mapping_contravariant_hessian
      | mapping_covariant_hessian =>
          transform_hessians kind mapping_data n_input n_output
      | _ => assert_that debug false ExcNotImplemented (Reads [] 0)
      end
  end.

End Transform.

End MappingQGenericData.

(* ================================================================== *)
(** ** [MatrixFree::create_cell_subrange_hp_by_index]
    (matrix_free.templates.h): the sub-range of a cell range whose cells
    have a given active FE index, found by two [std::lower_bound] calls. *)
Module CellSubrangeHp.

(** [std::lower_bound(v.begin() + first, v.begin() + first + count, value)
    - v.begin()], the binary search of the C++ library:
    [while (count > 0) { step = count / 2; it = first + step;
    if ( *it < value) { first = ++it; count -= step + 1; } else count = step; }].
    Each pass shrinks [count], so [count] passes suffice; [None] is a read
    outside the vector. *)
Fixpoint lower_bound_loop (fuel : nat) (v : list nat) (first count value : nat)
  : option nat :=
  match fuel with
  | 0 => Some first
  | S fuel' =>
      if Nat.ltb 0 count then
        let step := count / 2 in
        let it := first + step in
        match nth_error v it with
        | None => None
        | Some x =>
            if Nat.ltb x value
            then lower_bound_loop fuel' v (it + 1) (count - (step + 1)) value
            else lower_bound_loop fuel' v first step value
        end
      else Some first
  end.

Definition lower_bound (v : list nat) (first last value : nat) : option nat :=
  lower_bound_loop (last - first) v first (last - first) value.

(** The exceptions of the function's assertions. *)
Inductive SubrangeError :=
| ExcIndexRange
| ExcMessage_unsorted_range
| ExcInternalError
| Read_out_of_range.

(** The debug loop [for (i = range.first + 1; i < range.second; ++i)
    Assert(fe_indices[i] >= fe_indices[i - 1], ...)]: the first failing
    [i], or a read outside the vector. *)
Fixpoint first_unsorted (fe_indices : list nat) (i n : nat) : option SubrangeError :=
  match n with
  | 0 => None
  | S n' =>
      match nth_error fe_indices i, nth_error fe_indices (i - 1) with
      | Some a, Some b =>
          if Nat.leb b a then first_unsorted fe_indices (S i) n'
          else Some ExcMessage_unsorted_range
      | _, _ => Some Read_out_of_range
      end
  end.

(** [create_cell_subrange_hp_by_index(range, fe_index, vector_component)]
    with [max_fe_index] and [fe_indices] the [max_fe_index] and
    [cell_active_fe_index] of [dof_info[vector_component]]. *)
Definition create_cell_subrange_hp_by_index (debug : bool) (max_fe_index : nat)
  (fe_indices : list nat) (range : nat * nat) (fe_index : nat)
  : SubrangeError + (nat * nat) :=
  let '(range_first, range_second) := range in
  if debug && negb (Nat.ltb fe_index max_fe_index) then inl ExcIndexRange
  else
  match fe_indices with
  | [] => inr range
  | _ =>
      let checks :=
        if debug then
          match first_unsorted fe_indices (range_first + 1)
                  (range_second - (range_first + 1)) with
          | Some e => Some e
          | None =>
              if negb (Nat.ltb range_first (length fe_indices + 1)) then Some ExcIndexRange
              else if negb (Nat.ltb range_second (length fe_indices + 1))
              then Some ExcIndexRange
              else None
          end
        else None in
      match checks with
      | Some e => inl e
      | None =>
          match lower_bound fe_indices range_first range_second fe_index with
          | None => inl Read_out_of_range
          | Some first =>
              match lower_bound fe_indices first range_second (fe_index + 1) with
              | None => inl Read_out_of_range
              | Some second =>
                  if debug && negb (Nat.leb range_first first &&
                                    Nat.leb second range_second)
                  then inl ExcInternalError
                  else inr (first, second)
              end
          end
      end
  end.

End CellSubrangeHp.

(* ================================================================== *)
(** ** The ghost slots of [irregular_cells] in [internal::compute_dof_info]
    (matrix_free.templates.h), after [make_thread_graph]: the batches
    [back, ..., back + n_ghost_slots - 1] (with [back] the last entry of
    [cell_partition_data]) hold the ghost cells, full batches except the
    last, which gets [n_ghost_cells % n_lanes]. *)
Module GhostSlots.
Import MatrixFreeImplementation.

Section Ghost.
Variable n_lanes : nat.

(** [irregular_cells.resize(back + n_ghost_slots)], then the writes of the
    [if (n_ghost_slots > 0)] block; the entries before [back] are kept. *)
Definition write_ghost_slots (irregular_cells : nat -> nat)
  (back n_ghost_slots n_ghost_cells : nat) : nat -> nat :=
  if Nat.ltb 0 n_ghost_slots then
    set_irregular
      (fold_left (fun irr i => set_irregular irr i 0)
         (seq back (n_ghost_slots - 1)) irregular_cells)
      (back + n_ghost_slots - 1) (n_ghost_cells mod n_lanes)
  else irregular_cells.

(** The two counting loops before [AssertDimension(n_cells,
    task_info.n_active_cells)] and [AssertDimension(n_cells,
    task_info.n_ghost_cells)]. *)
Definition count_lanes (irregular_cells : nat -> nat) (start n : nat) : nat :=
  list_sum (map (n_comp n_lanes irregular_cells) (seq start n)).

End Ghost.

End GhostSlots.

(* ================================================================== *)
(** ** [internal::fill_index_subrange] (matrix_free.templates.h): the map
    from a cell's (level, index) pair to its position in
    [cell_level_index], built by [parallel::apply_to_subranges(0,
    cell_level_index.size(), ...)] before the face connectivity is
    computed. *)
Module FillIndexSubrange.

Definition level_index : Type := (nat * nat)%type.

Definition li_eqb (a b : level_index) : bool :=
  Nat.eqb (fst a) (fst b) && Nat.eqb (snd a) (snd b).

(** A [tbb::concurrent_unordered_map<std::pair<unsigned int, unsigned int>,
    unsigned int>] as an association list. *)
Definition index_map : Type := list (level_index * nat).

(** [map.find(key)] *)
Fixpoint map_find (m : index_map) (k : level_index) : option nat :=
  match m with
  | [] => None
  | (k', v) :: rest => if li_eqb k' k then Some v else map_find rest k
  end.

(** [map.insert(std::make_pair(key, value))]: no effect if the key is
    already present. *)
Definition map_insert (m : index_map) (k : level_index) (v : nat) : index_map :=
  match map_find m k with
  | Some _ => m
  | None => m ++ [(k, v)]
  end.

(** [for (; cell < end; ++cell) if (cell_level_index[cell] !=
    cell_level_index[cell - 1]) map.insert(...)], with [fuel = end - cell]
    passes; [None] is a read outside [cell_level_index]. *)
Fixpoint fill_index_loop (cell_level_index : list level_index) (cell fuel : nat)
  (m : index_map) : option index_map :=
  match fuel with
  | 0 => Some m
  | S fuel' =>
      match nth_error cell_level_index cell, nth_error cell_level_index (cell - 1) with
      | Some a, Some b =>
          fill_index_loop cell_level_index (S cell) fuel'
            (if li_eqb a b then m else map_insert m a cell)
      | _, _ => None
      end
  end.

Definition fill_index_subrange (begin end_ : nat) (cell_level_index : list level_index)
  (m : index_map) : option index_map :=
  match cell_level_index with
  | [] => Some m
  | _ =>
      if Nat.eqb begin 0 then
        match nth_error cell_level_index 0 with
        | Some a => fill_index_loop cell_level_index 1 (end_ - 1) (map_insert m a 0)
        | None => None
        end
      else fill_index_loop cell_level_index begin (end_ - begin) m
  end.

(** [apply_to_subranges], run as the calls for its subranges one after the
    other, in the order of [ranges]. *)
Fixpoint fill_index_subranges (ranges : list (nat * nat))
  (cell_level_index : list level_index) (m : index_map) : option index_map :=
  match ranges with
  | [] => Some m
  | (b, e) :: rest =>
      match fill_index_subrange b e cell_level_index m with
      | Some m' => fill_index_subranges rest cell_level_index m'
      | None => None
      end
  end.

End FillIndexSubrange.

(* ================================================================== *)
(** * Proofs *)

Module NewtonProofs.
Import MappingQGenericImplementation.
Local Open Scope float_scope.

Section Proofs.
Variables UPt Vec Mat : Type.
Variable mapped_location : UPt -> Vec * Mat.
Variable vsub : Vec -> Vec -> Vec.
Variable norm_square : Vec -> float.
Variable mat_norm_square : Mat -> float.
Variable determinant : Mat -> float.
Variable invert : Mat -> Mat.
Variable mat_vec : Mat -> Vec -> Vec.
Variable unit_update : UPt -> float -> Vec -> UPt.
Variable origin : UPt.
Variable set_first_coord : UPt -> float -> UPt.
Variable first_coord : UPt -> float.
Variable initial_guess : Vec -> UPt.
(** The codimension-one variant works on its own point and residual types. *)
Variables UPt1 FVec : Type.
Variable residual : UPt1 -> FVec.
Variable newton_update : UPt1 -> UPt1.
Variable norm : FVec -> float.
Variable diameter : float.

Local Abbreviation LS := (line_search UPt Vec Mat mapped_location vsub norm_square unit_update).
Local Abbreviation loop := (newton_loop UPt Vec Mat mapped_location vsub norm_square
                          determinant invert mat_vec unit_update).
Local Abbreviation run := (newton_run UPt Vec Mat mapped_location vsub norm_square
                         mat_norm_square determinant invert mat_vec unit_update).
Local Abbreviation vis := (visited UPt Vec Mat mapped_location vsub norm_square
                         mat_norm_square determinant invert mat_vec unit_update).
Local Abbreviation fail_at := (failure_at UPt Vec Mat mapped_location vsub norm_square
                             determinant invert mat_vec unit_update).

Ltac split_ifs :=
  repeat match goal with
         | |- context [if ?b then _ else _] => destruct b eqn:?
         end.

Lemma line_search_fuel_indep fuel p u f d :
  (6 <= fuel)%nat -> LS fuel p u f d 1 = LS 6 p u f d 1.
Proof.
  intros H.
  do 6 (destruct fuel as [|fuel]; [lia|]).
  cbn [line_search]. split_ifs; try reflexivity;
  match goal with H : (0.05 <? _) = _ |- _ => vm_compute in H; discriminate end.
Qed.

Lemma line_search_terminates p u f d :
  LS line_search_fuel p u f d 1 <> LS_out_of_fuel.
Proof.
  rewrite line_search_fuel_indep by (unfold line_search_fuel; lia).
  cbn [line_search]. split_ifs; try discriminate;
  match goal with H : (0.05 <? _) = _ |- _ => vm_compute in H; discriminate end.
Qed.

Lemma line_search_explicit p u f d :
  LS line_search_fuel p u f d 1 =
  let ftr s := vsub (fst (mapped_location (unit_update u s d))) p in
  let acc s := LS_accept (unit_update u s d) (mapped_location (unit_update u s d)) (ftr s) in
  if norm_square (ftr 1) <? norm_square f then acc 1 else
  if norm_square (ftr 0.5) <? norm_square f then acc 0.5 else
  if norm_square (ftr 0.25) <? norm_square f then acc 0.25 else
  if norm_square (ftr 0.125) <? norm_square f then acc 0.125 else
  if norm_square (ftr 0.0625) <? norm_square f then acc 0.0625 else
  if norm_square (ftr 0.03125) <? norm_square f then acc 0.03125 else
  LS_fail.
Proof.
  rewrite line_search_fuel_indep by (unfold line_search_fuel; lia).
  reflexivity.
Qed.

Lemma line_search_fail_iff p u f d :
  LS line_search_fuel p u f d 1 = LS_fail <->
  Forall (fun s => (norm_square (vsub (fst (mapped_location (unit_update u s d))) p)
                      <? norm_square f) = false) step_lengths.
Proof.
  rewrite line_search_explicit. unfold step_lengths. cbv zeta.
  split.
  - intros H.
    repeat match type of H with
           | context [if ?b then _ else _] => destruct b eqn:?; try discriminate
           end.
    repeat constructor; assumption.
  - intros H. repeat match goal with H : Forall _ (_ :: _) |- _ => inversion_clear H end.
    repeat match goal with H : ?b = false |- context [if ?b then _ else _] => rewrite H end.
    reflexivity.
Qed.

Lemma newton_loop_bounded fuel p it u pr f :
  (it <= 20)%nat -> (21 - it <= fuel)%nat ->
  fst (loop fuel p it u pr f) <> Newton_out_of_fuel /\
  (snd (loop fuel p it u pr f) <= 21 - it)%nat.
Proof.
  revert it u pr f. induction fuel as [|fuel IH]; intros it u pr f Hit Hf.
  - lia.
  - cbn [newton_loop]. destruct (determinant (snd pr) <=? 0).
    + cbn [fst snd]. split; [discriminate | lia].
    + destruct (LS line_search_fuel p u f (mat_vec (invert (snd pr)) f) 1)
        as [u' pr' f'| |] eqn:E.
      * destruct (Nat.ltb newton_iteration_limit (S it)) eqn:Hl.
        { cbn [fst snd]. split; [discriminate | lia]. }
        apply Nat.ltb_ge in Hl. unfold newton_iteration_limit in Hl.
        destruct (eps * eps <? _).
        { destruct (IH (S it) u' pr' f') as [H1 H2]; [lia | lia |].
          cbn [fst snd]. split; [exact H1 | lia]. }
        cbn [fst snd]. split; [discriminate | lia].
      * cbn [fst snd]. split; [discriminate | lia].
      * exfalso. exact (line_search_terminates _ _ _ _ E).
Qed.

Lemma newton_run_bounded p u0 :
  fst (run p u0) <> Newton_out_of_fuel /\ (snd (run p u0) <= 21)%nat.
Proof.
  unfold newton_run. destruct (_ <? _).
  - cbn [fst snd]. split; [discriminate | lia].
  - apply newton_loop_bounded; unfold newton_fuel; lia.
Qed.

Lemma newton_loop_fuel_indep fuel1 fuel2 p it u pr f :
  (it <= 20)%nat -> (21 - it <= fuel1)%nat -> (21 - it <= fuel2)%nat ->
  loop fuel1 p it u pr f = loop fuel2 p it u pr f.
Proof.
  revert fuel2 it u pr f. induction fuel1 as [|fuel1 IH];
    intros fuel2 it u pr f Hit H1 H2; [lia|].
  destruct fuel2 as [|fuel2]; [lia|].
  cbn [newton_loop]. destruct (determinant (snd pr) <=? 0); [reflexivity|].
  destruct (LS line_search_fuel p u f (mat_vec (invert (snd pr)) f) 1)
    as [u' pr' f'| |]; try reflexivity.
  destruct (Nat.ltb newton_iteration_limit (S it)) eqn:Hl; [reflexivity|].
  apply Nat.ltb_ge in Hl. unfold newton_iteration_limit in Hl.
  destruct (eps * eps <? _); [|reflexivity].
  rewrite (IH fuel2 (S it)) by lia. reflexivity.
Qed.

Lemma newton_loop_not_early fuel p it u pr f u1 :
  fst (loop fuel p it u pr f) <> Newton_early_out u1.
Proof.
  revert it u pr f. induction fuel as [|fuel IH]; intros it u pr f; [discriminate|].
  cbn [newton_loop]. destruct (determinant (snd pr) <=? 0); [discriminate|].
  destruct (LS line_search_fuel p u f (mat_vec (invert (snd pr)) f) 1); try discriminate.
  destruct (Nat.ltb _ _); [discriminate|].
  destruct (eps * eps <? _); [apply IH | discriminate].
Qed.

Lemma visited_le p u0 u pr f it : vis p u0 u pr f it -> (it <= 20)%nat.
Proof.
  induction 1 as [|u pr f it u' pr' f' _ _ _ _ Hl _].
  - lia.
  - apply Nat.ltb_ge in Hl. unfold newton_iteration_limit in Hl. lia.
Qed.

Lemma visited_run p u0 u pr f it :
  vis p u0 u pr f it -> fst (run p u0) = fst (loop (21 - it) p it u pr f).
Proof.
  induction 1 as [Hi|u pr f it u' pr' f' Hv IH Hd Hls Hl Hw].
  - unfold newton_run. rewrite Hi.
    rewrite (newton_loop_fuel_indep newton_fuel 21) by (unfold newton_fuel; lia).
    reflexivity.
  - rewrite IH. pose proof (visited_le _ _ _ _ _ _ Hv) as Hle.
    replace (21 - it)%nat with (S (21 - S it)) by lia.
    cbn [newton_loop]. rewrite Hd, Hls, Hl, Hw. reflexivity.
Qed.

Lemma newton_loop_outcome p u0 fuel it u pr f :
  vis p u0 u pr f it ->
  (newton_failed UPt (fst (loop fuel p it u pr f)) = true ->
   exists u1 pr1 f1 it1, vis p u0 u1 pr1 f1 it1 /\ fail_at p u1 pr1 f1 it1) /\
  (forall uc, fst (loop fuel p it u pr f) = Newton_converged uc ->
   exists u1 pr1 f1 it1 pr' f',
     vis p u0 u1 pr1 f1 it1 /\ (determinant (snd pr1) <=? 0) = false /\
     LS line_search_fuel p u1 f1 (mat_vec (invert (snd pr1)) f1) 1 = LS_accept uc pr' f' /\
     Nat.ltb newton_iteration_limit (S it1) = false /\
     (eps * eps <? norm_square (mat_vec (invert (snd pr1)) f')) = false).
Proof.
  revert it u pr f. induction fuel as [|fuel IH]; intros it u pr f Hv.
  - cbn. split; [discriminate | intros uc H; discriminate].
  - cbn [newton_loop]. destruct (determinant (snd pr) <=? 0) eqn:Hd.
    { cbn [fst]. split; [|intros uc H; discriminate].
      intros _. exists u, pr, f, it. split; [exact Hv | left; exact Hd]. }
    destruct (LS line_search_fuel p u f (mat_vec (invert (snd pr)) f) 1)
      as [u' pr' f'| |] eqn:E.
    + destruct (Nat.ltb newton_iteration_limit (S it)) eqn:Hl.
      { cbn [fst]. split; [|intros uc H; discriminate].
        intros _. exists u, pr, f, it. split; [exact Hv|].
        right; right. split; [exact Hd|]. exists u', pr', f'. split; assumption. }
      destruct (eps * eps <? norm_square (mat_vec (invert (snd pr)) f')) eqn:Hw.
      * cbn [fst]. apply IH. econstructor; eassumption.
      * cbn [fst]. split; [discriminate|]. intros uc Huc. injection Huc as <-.
        exists u, pr, f, it, pr', f'. repeat split; assumption.
    + cbn [fst]. split; [|intros uc H; discriminate].
      intros _. exists u, pr, f, it. split; [exact Hv|].
      right; left. split; assumption.
    + cbn [fst]. split; discriminate.
Qed.

Lemma failure_at_run p u0 u pr f it :
  vis p u0 u pr f it -> fail_at p u pr f it ->
  newton_failed UPt (fst (run p u0)) = true.
Proof.
  intros Hv Hf. rewrite (visited_run _ _ _ _ _ _ Hv).
  pose proof (visited_le _ _ _ _ _ _ Hv) as Hle.
  replace (21 - it)%nat with (S (20 - it)) by lia.
  cbn [newton_loop].
  destruct Hf as [Hd | [[Hd Hls] | [Hd [u' [pr' [f' [Hls Hl]]]]]]].
  - rewrite Hd. reflexivity.
  - rewrite Hd, Hls. reflexivity.
  - rewrite Hd, Hls, Hl. reflexivity.
Qed.

Lemma visited_initial_test p u0 u pr f it :
  vis p u0 u pr f it ->
  (norm_square (vsub (fst (mapped_location u0)) p)
     <? 1e-24 * mat_norm_square (snd (mapped_location u0))) = false.
Proof. induction 1; assumption. Qed.

Local Abbreviation doT := (do_transform_real_to_unit_cell_internal UPt Vec Mat
  mapped_location vsub norm_square mat_norm_square determinant invert mat_vec
  unit_update origin set_first_coord).
Local Abbreviation pub := (transform_real_to_unit_cell_newton UPt Vec Mat
  mapped_location vsub norm_square mat_norm_square determinant invert mat_vec
  unit_update origin set_first_coord first_coord).

(** C2 (as amended): the Newton inversion always ends (never by running out
    of the model's recursion budget). It returns the initial guess unchanged
    exactly when the early-exit test ||f||^2 < 1e-24 ||DF||^2 holds at the
    initial guess; this exit checks no determinant. Otherwise it reports one
    of the three failures exactly when, at some state reached by the loop,
    the determinant is <= 0, or the line search (step lengths 1, 1/2, ...,
    1/32) finds no step with ||f_trial|| < ||f||, or an accepted step brings
    the iteration count above 20. A converged result is an accepted step
    whose weighted residual ||DF^-1 f'||^2 is not above eps^2. On failure the
    internal function returns the point with first coordinate infinity, and
    the public function throws [ExcTransformationFailed]. *)
Theorem do_transform_real_to_unit_cell_internal_outcomes
  (H_first : forall u x, first_coord (set_first_coord u x) = x) (p : Vec) (u0 : UPt) :
  fst (run p u0) <> Newton_out_of_fuel /\
  (forall u, fst (run p u0) = Newton_early_out u <->
     u = u0 /\
     (norm_square (vsub (fst (mapped_location u0)) p)
        <? 1e-24 * mat_norm_square (snd (mapped_location u0))) = true) /\
  (newton_failed UPt (fst (run p u0)) = true <->
     exists u pr f it, vis p u0 u pr f it /\ fail_at p u pr f it) /\
  (forall u, fst (run p u0) = Newton_converged u ->
     exists u1 pr f it pr' f',
       vis p u0 u1 pr f it /\ (determinant (snd pr) <=? 0) = false /\
       LS line_search_fuel p u1 f (mat_vec (invert (snd pr)) f) 1 = LS_accept u pr' f' /\
       (eps * eps <? norm_square (mat_vec (invert (snd pr)) f')) = false) /\
  (forall u f d, LS line_search_fuel p u f d 1 = LS_fail <->
     Forall (fun s => (norm_square (vsub (fst (mapped_location (unit_update u s d))) p)
                         <? norm_square f) = false) step_lengths) /\
  (newton_failed UPt (fst (run p u0)) = true ->
     doT p u0 = invalid_point UPt origin set_first_coord /\
     pub p u0 = Throw_ExcTransformationFailed).
Proof.
  destruct (norm_square (vsub (fst (mapped_location u0)) p)
              <? 1e-24 * mat_norm_square (snd (mapped_location u0))) eqn:Hi.
  - assert (Hr : fst (run p u0) = Newton_early_out u0)
      by (unfold newton_run; rewrite Hi; reflexivity).
    rewrite Hr. split; [discriminate|].
    split.
    { intros u. split.
      - intros He; injection He as <-. split; reflexivity.
      - intros [-> _]; reflexivity. }
    split.
    { split; [discriminate|]. intros [u [pr [f [it [Hv _]]]]].
      rewrite (visited_initial_test _ _ _ _ _ _ Hv) in Hi. discriminate. }
    split; [intros u He; discriminate|].
    split; [intros; apply line_search_fail_iff|].
    intros He; discriminate.
  - pose proof (visited_initial UPt Vec Mat mapped_location vsub norm_square
                  mat_norm_square determinant invert mat_vec unit_update p u0 Hi) as Hv0.
    assert (Hr : run p u0 = loop newton_fuel p 0 u0 (mapped_location u0)
                              (vsub (fst (mapped_location u0)) p))
      by (unfold newton_run; rewrite Hi; reflexivity).
    destruct (newton_loop_outcome p u0 newton_fuel 0 _ _ _ Hv0) as [Hfail Hconv].
    rewrite <- Hr in Hfail, Hconv.
    split; [apply newton_run_bounded|].
    split.
    { intros u. split.
      - intros H. exfalso. rewrite Hr in H. exact (newton_loop_not_early _ _ _ _ _ _ _ H).
      - intros [_ H]. discriminate. }
    split.
    { split; [exact Hfail|]. intros [u [pr [f [it [Hv Hf]]]]].
      exact (failure_at_run _ _ _ _ _ _ Hv Hf). }
    split.
    { intros u Hu. destruct (Hconv u Hu) as (u1 & pr & f & it & pr' & f' & H1 & H2 & H3 & _ & H5).
      exists u1, pr, f, it, pr', f'. repeat split; assumption. }
    split; [intros; apply line_search_fail_iff|].
    intros Hf.
    assert (Hd : doT p u0 = invalid_point UPt origin set_first_coord).
    { unfold do_transform_real_to_unit_cell_internal.
      destruct (fst (run p u0)); try discriminate; reflexivity. }
    split; [exact Hd|].
    unfold transform_real_to_unit_cell_newton. rewrite Hd.
    unfold invalid_point. rewrite H_first. reflexivity.
Qed.




Local Abbreviation tpoints := (transform_points_real_to_unit_cell UPt Vec Mat
  mapped_location vsub norm_square mat_norm_square determinant invert mat_vec
  unit_update origin set_first_coord initial_guess).

(** C10: [transform_points_real_to_unit_cell] returns one entry per input
    point and throws nothing; entry i is the Newton inversion of point i
    from its own initial guess, independent of the other points. When that
    inversion fails the entry's first coordinate is infinity, and when it
    converges (or exits early) the entry is the converged point. *)
Theorem transform_points_real_to_unit_cell_per_point
  (H_first : forall u x, first_coord (set_first_coord u x) = x) (real_points : list Vec) :
  length (tpoints real_points) = length real_points /\
  forall i x, nth_error real_points i = Some x ->
    nth_error (tpoints real_points) i = Some (doT x (initial_guess x)) /\
    (newton_failed UPt (fst (run x (initial_guess x))) = true ->
       first_coord (doT x (initial_guess x)) = infinity) /\
    (forall u, fst (run x (initial_guess x)) = Newton_converged u \/
               fst (run x (initial_guess x)) = Newton_early_out u ->
       nth_error (tpoints real_points) i = Some u).
Proof.
  split; [apply length_map|].
  intros i x Hx.
  assert (Hn : nth_error (tpoints real_points) i = Some (doT x (initial_guess x))).
  { unfold transform_points_real_to_unit_cell. rewrite nth_error_map, Hx. reflexivity. }
  split; [exact Hn|]. split.
  - intros Hf. unfold do_transform_real_to_unit_cell_internal.
    destruct (fst (run x (initial_guess x))); try discriminate;
      unfold invalid_point; apply H_first.
  - intros u Hu. rewrite Hn. unfold do_transform_real_to_unit_cell_internal.
    destruct Hu as [Hu | Hu]; rewrite Hu; reflexivity.
Qed.
End Proofs.
End NewtonProofs.

Module NewtonExamples.
Import MappingQGenericImplementation NewtonProofs.
Local Open Scope float_scope.

(** C2, counterexample: the 1d linear cell with vertices 1 and 0 has
    Jacobian -1 at every point; the initial guess 0.5 maps exactly to
    p = 0.5, so the early exit returns 0.5 although the determinant at this
    iterate is negative, and no exception is raised. *)
Lemma newton_early_out_skips_determinant_check :
  (id_1d (snd (mapped_location_q1_1d 1 0 0.5)) <=? 0) = true /\
  fst (newton_run_1d (mapped_location_q1_1d 1 0) 0.5 0.5) = Newton_early_out 0.5 /\
  pub_1d (mapped_location_q1_1d 1 0) 0.5 0.5 = Ret 0.5.
Proof. vm_compute. repeat split; reflexivity. Qed.

Lemma do_transform_real_to_unit_cell_internal_outcomes_witness :
  (forall u x : float, id_1d (set_first_1d u x) = x) /\
  fst (newton_run_1d (mapped_location_q1_1d 0 2) 0.5 0.25) <> Newton_out_of_fuel.
Proof.
  split; [intros; reflexivity|].
  exact (proj1 (do_transform_real_to_unit_cell_internal_outcomes float float float
    (mapped_location_q1_1d 0 2) sub sq_1d sq_1d id_1d inv_1d mul update_1d 0
    set_first_1d id_1d (fun _ _ => eq_refl) 0.5 0.25)).
Defined.


Lemma transform_points_real_to_unit_cell_per_point_witness :
  (forall u x : float, id_1d (set_first_1d u x) = x) /\
  length (transform_points_real_to_unit_cell float float float mapped_location_cubic_1d
            sub sq_1d sq_1d id_1d inv_1d mul update_1d 0 set_first_1d (fun x => x)
            [0; 0.125]) = length [0; 0.125].
Proof.
  split; [intros; reflexivity|].
  exact (proj1 (transform_points_real_to_unit_cell_per_point float float float
    mapped_location_cubic_1d sub sq_1d sq_1d id_1d inv_1d mul update_1d 0
    set_first_1d id_1d (fun x => x) (fun _ _ => eq_refl) [0; 0.125])).
Defined.

End NewtonExamples.

Module MappingQ1Proofs.
Import MappingQ1.
Local Open Scope ld_scope.

(** Signs: [nonneg x] holds of every value that is not below zero
    (zeros, positive numbers, +infinity and NaN). *)
Local Abbreviation nonneg x :=
  (match x with S754_finite true _ _ | S754_infinity true => false | _ => true end).

Lemma Ret_pair_inj {A B : Type} (a1 a2 : A) (b1 b2 : B) :
  @Ret (A * B) (a1, b1) = Ret (a2, b2) -> a1 = a2 /\ b1 = b2.
Proof. intros H. injection H. auto. Qed.

Lemma ld_lt_nan_r x : ld_lt x S754_nan = false.
Proof. destruct x; reflexivity. Qed.

Lemma ld_mul_nan_l y : S754_nan * y = S754_nan.
Proof. reflexivity. Qed.

Lemma ld_sub_nan_l y : S754_nan - y = S754_nan.
Proof. reflexivity. Qed.

Lemma ld_add_nan_l y : S754_nan + y = S754_nan.
Proof. reflexivity. Qed.

Lemma xi_denominator_nan c0 c1 c2 c3 : xi_denominator S754_nan c0 c1 c2 c3 = S754_nan.
Proof. unfold xi_denominator. rewrite ld_mul_nan_l, ld_sub_nan_l, ld_add_nan_l. reflexivity. Qed.

Lemma nonneg_abs x : nonneg (ld_abs x) = true.
Proof. destruct x; reflexivity. Qed.

Lemma nonneg_max a b : nonneg a = true -> nonneg b = true -> nonneg (ld_max a b) = true.
Proof. unfold ld_max. destruct (ld_lt a b); auto. Qed.

Lemma nonneg_max_abs c0 c1 c2 c3 : nonneg (max_abs c0 c1 c2 c3) = true.
Proof. unfold max_abs. repeat apply nonneg_max; apply nonneg_abs. Qed.

Lemma binary_round_aux_nonneg mx ex lx :
  nonneg (binary_round_aux ld_prec ld_emax false mx ex lx) = true.
Proof.
  unfold binary_round_aux.
  destruct (shr_fexp ld_prec ld_emax mx ex lx) as [mrs' e'].
  destruct (shr_fexp ld_prec ld_emax _ e' loc_Exact) as [mrs'' e''].
  destruct (shr_m mrs''); [reflexivity| |reflexivity].
  destruct (Z.leb e'' (ld_emax - ld_prec)); reflexivity.
Qed.

Lemma ld_1e_10_value : ld_1e_10 = S754_finite false 15845632502852868096 (-97).
Proof. vm_compute. reflexivity. Qed.

Lemma nonneg_threshold m : nonneg m = true -> nonneg (ld_1e_10 * m) = true.
Proof.
  rewrite ld_1e_10_value. intros Hm.
  destruct m as [s|s| |s mm ee]; try reflexivity.
  - destruct s; [discriminate|reflexivity].
  - destruct s; [discriminate|]. apply binary_round_aux_nonneg.
Qed.

(** A value above a non-negative threshold in magnitude is a non-zero number. *)
Lemma above_threshold_nonzero t d :
  nonneg t = true -> ld_lt t (ld_abs d) = true -> ld_lt ld_0 (ld_abs d) = true.
Proof.
  intros Ht H. destruct d as [s|s| |s mm ee]; try reflexivity.
  - cbn in H. destruct t as [st|st| |st mt et]; try discriminate;
      destruct st; discriminate.
  - rewrite ld_lt_nan_r in H. discriminate.
Qed.

(** C3 (as amended). The closed-form inversion of a bilinear quadrilateral,
    computed in [long double] as the C++ code does, throws
    ExcTransformationFailed exactly when the test [discriminant > 0] fails
    (also for a NaN discriminant), or when both the x-based and the y-based
    xi denominators fail the tests [|denominator| > 1e-10 max_i |c_i|];
    otherwise it returns (xi, eta) rounded to double. eta is not NaN. In
    special case #1 (b <> 0 and |b| equal to the computed square root of the
    discriminant) eta is - c / b; otherwise eta is, of the two candidate roots
    eta1 and eta2 of the quadratic formula (in the form 2 c / (- b -+ sqrt)
    when |a| < 1e-8 |b|), the one whose computed distance to 0.5 is smaller
    (eta2 on ties). xi divides by the x-based denominator when its test holds,
    else by the y-based one; the denominator used is a non-zero number. *)
Theorem transform_real_to_unit_cell_q1_2d_outcomes (x0 y0 x1 y1 x2 y2 x3 y3 x y : float) :
  let X0 := ld_of_double x0 in let Y0 := ld_of_double y0 in
  let X1 := ld_of_double x1 in let Y1 := ld_of_double y1 in
  let X2 := ld_of_double x2 in let Y2 := ld_of_double y2 in
  let X3 := ld_of_double x3 in let Y3 := ld_of_double y3 in
  let X := ld_of_double x in let Y := ld_of_double y in
  let a := qa X0 Y0 X1 Y1 X2 Y2 X3 Y3 in
  let b := qb X0 Y0 X1 Y1 X2 Y2 X3 Y3 X Y in
  let c := qc X0 Y0 X1 Y1 X Y in
  let discriminant := b * b - ld_4 * a * c in
  let s := ld_sqrt discriminant in
  let eta := pick_eta (eta_candidates a b c s) in
  let den0 := xi_denominator eta X0 X1 X2 X3 in
  let den1 := xi_denominator eta Y0 Y1 Y2 Y3 in
  let ok0 := ld_lt (ld_1e_10 * max_abs X0 X1 X2 X3) (ld_abs den0) in
  let ok1 := ld_lt (ld_1e_10 * max_abs Y0 Y1 Y2 Y3) (ld_abs den1) in
  let T := transform_real_to_unit_cell_q1_2d (x0, y0) (x1, y1) (x2, y2) (x3, y3) (x, y) in
  (T = Throw_ExcTransformationFailed <->
     ld_lt ld_0 discriminant = false \/ (ok0 = false /\ ok1 = false)) /\
  (T = Throw_ExcTransformationFailed \/ exists xi e, T = Ret (xi, e)) /\
  (forall xi e, T = Ret (xi, e) ->
     ld_lt ld_0 discriminant = true /\ e = double_of_ld eta /\ eta <> S754_nan /\
     ((special_case_1 b s = true /\ eta = - c / b) \/
      (special_case_1 b s = false /\
       exists eta1 eta2,
         (eta1, eta2) = (if ld_lt (ld_abs a) (ld_1e_8 * ld_abs b)
                         then (ld_2 * c / (- b - s), ld_2 * c / (- b + s))
                         else ((- b - s) / (ld_2 * a), (- b + s) / (ld_2 * a))) /\
         ((ld_lt (ld_abs (eta1 - ld_half)) (ld_abs (eta2 - ld_half)) = true /\ eta = eta1) \/
          (ld_lt (ld_abs (eta1 - ld_half)) (ld_abs (eta2 - ld_half)) = false /\ eta = eta2)))) /\
     ((ok0 = true /\ ld_lt ld_0 (ld_abs den0) = true /\
       xi = double_of_ld ((X + subexpr eta X0 X2) / den0)) \/
      (ok0 = false /\ ok1 = true /\ ld_lt ld_0 (ld_abs den1) = true /\
       xi = double_of_ld ((subexpr eta Y0 Y2 + Y) / den1)))).
Proof.
  intros X0 Y0 X1 Y1 X2 Y2 X3 Y3 X Y a b c discriminant s eta den0 den1 ok0 ok1 T.
  assert (Hunf : T =
    if ld_lt ld_0 discriminant then
      if ok0 then Ret (double_of_ld ((X + subexpr eta X0 X2) / den0), double_of_ld eta)
      else if ok1 then Ret (double_of_ld ((subexpr eta Y0 Y2 + Y) / den1), double_of_ld eta)
      else Throw_ExcTransformationFailed
    else Throw_ExcTransformationFailed) by reflexivity.
  assert (Heta : ok0 = true \/ ok1 = true -> eta <> S754_nan).
  { intros Hok Hnan. unfold ok0, ok1, den0, den1 in Hok. rewrite Hnan in Hok.
    rewrite !xi_denominator_nan in Hok. cbn [ld_abs SFabs] in Hok.
    rewrite !ld_lt_nan_r in Hok. destruct Hok; discriminate. }
  assert (Hpick : (special_case_1 b s = true /\ eta = - c / b) \/
      (special_case_1 b s = false /\
       exists eta1 eta2,
         (eta1, eta2) = (if ld_lt (ld_abs a) (ld_1e_8 * ld_abs b)
                         then (ld_2 * c / (- b - s), ld_2 * c / (- b + s))
                         else ((- b - s) / (ld_2 * a), (- b + s) / (ld_2 * a))) /\
         ((ld_lt (ld_abs (eta1 - ld_half)) (ld_abs (eta2 - ld_half)) = true /\ eta = eta1) \/
          (ld_lt (ld_abs (eta1 - ld_half)) (ld_abs (eta2 - ld_half)) = false /\ eta = eta2)))).
  { unfold eta, eta_candidates.
    destruct (special_case_1 b s) eqn:Esp.
    - left. split; [reflexivity|]. cbn [pick_eta].
      match goal with |- (if ?t then _ else _) = _ => destruct t end; reflexivity.
    - right. split; [reflexivity|].
      destruct (if ld_lt (ld_abs a) (ld_1e_8 * ld_abs b)
                then (ld_2 * c / (- b - s), ld_2 * c / (- b + s))
                else ((- b - s) / (ld_2 * a), (- b + s) / (ld_2 * a))) as [e1 e2].
      exists e1, e2. split; [reflexivity|]. cbn [pick_eta].
      destruct (ld_lt (ld_abs (e1 - ld_half)) (ld_abs (e2 - ld_half))); auto. }
  assert (Hnn0 : nonneg (ld_1e_10 * max_abs X0 X1 X2 X3) = true)
    by (apply nonneg_threshold, nonneg_max_abs).
  assert (Hnn1 : nonneg (ld_1e_10 * max_abs Y0 Y1 Y2 Y3) = true)
    by (apply nonneg_threshold, nonneg_max_abs).
  rewrite Hunf.
  destruct (ld_lt ld_0 discriminant) eqn:Ed.
  - destruct ok0 eqn:E0.
    + split; [split; [discriminate | intros [H | [H _]]; discriminate]|].
      split; [right; eauto|].
      intros xi e Hr. apply Ret_pair_inj in Hr as [<- <-].
      split; [reflexivity|]. split; [reflexivity|].
      split; [apply Heta; auto|]. split; [exact Hpick|].
      left. split; [reflexivity|]. split; [|reflexivity].
      exact (above_threshold_nonzero _ _ Hnn0 E0).
    + destruct ok1 eqn:E1.
      * split; [split; [discriminate | intros [H | [_ H]]; discriminate]|].
        split; [right; eauto|].
        intros xi e Hr. apply Ret_pair_inj in Hr as [<- <-].
        split; [reflexivity|]. split; [reflexivity|].
        split; [apply Heta; auto|]. split; [exact Hpick|].
        right. split; [reflexivity|]. split; [reflexivity|]. split; [|reflexivity].
        exact (above_threshold_nonzero _ _ Hnn1 E1).
      * split; [split; [intros _; right; split; reflexivity | reflexivity]|].
        split; [left; reflexivity|].
        intros xi e Hr; discriminate.
  - split; [split; [intros _; left; reflexivity | reflexivity]|].
    split; [left; reflexivity|].
    intros xi e Hr; discriminate.
Qed.

End MappingQ1Proofs.

Module MappingQ1Examples.
Import MappingQ1.
Local Open Scope ld_scope.

(** C3 counterexample: the cell (0,0), (1,0), (-2,1/2), (-2,1) and the point
    (-7/4, 0), which lies on the line through the first two vertices (c = 0).
    In long double a = 1/2, b = -3/8 and c = 0 exactly, and the quadratic
    1/2 eta^2 - 3/8 eta = 0 has the roots 0 and 3/4; special case #1
    applies (|b| = sqrt(b^2)) and the code returns eta = 0, although the root
    3/4 is closer to 0.5. *)
Lemma q1_2d_special_case_picks_farther_root :
  let X0 := ld_of_double 0 in let Y0 := ld_of_double 0 in
  let X1 := ld_of_double 1 in let Y1 := ld_of_double 0 in
  let X2 := ld_of_double (-2) in let Y2 := ld_of_double 0.5 in
  let X3 := ld_of_double (-2) in let Y3 := ld_of_double 1 in
  let X := ld_of_double (-1.75) in let Y := ld_of_double 0 in
  let a := qa X0 Y0 X1 Y1 X2 Y2 X3 Y3 in
  let b := qb X0 Y0 X1 Y1 X2 Y2 X3 Y3 X Y in
  let c := qc X0 Y0 X1 Y1 X Y in
  let r := ld_of_double 0.75 in
  transform_real_to_unit_cell_q1_2d (0, 0)%float (1, 0)%float (-2, 0.5)%float
    (-2, 1)%float (-1.75, 0)%float = Ret ((-1.75)%float, 0%float) /\
  special_case_1 b (ld_sqrt (b * b - ld_4 * a * c)) = true /\
  a * r * r + b * r + c = ld_0 /\
  ld_lt (ld_abs (r - ld_half)) (ld_abs (ld_0 - ld_half)) = true.
Proof. vm_compute. repeat split; reflexivity. Qed.

End MappingQ1Examples.

Module MatrixFreeProofs.
Import MatrixFreeImplementation.

Lemma list_sum_repeat k n : list_sum (repeat k n) = n * k.
Proof. induction n; simpl; lia. Qed.

Lemma map_seq_ext (f g : nat -> nat) a n :
  (forall k, a <= k < a + n -> f k = g k) -> map f (seq a n) = map g (seq a n).
Proof.
  intros H. apply map_ext_in. intros k Hk. apply in_seq in Hk. apply H. lia.
Qed.

Section Lanes.
Variable n_lanes : nat.
Hypothesis n_lanes_pos : 0 < n_lanes.

Lemma n_batches_of_split n :
  (n + n_lanes - 1) / n_lanes =
  n / n_lanes + (if Nat.eqb (n mod n_lanes) 0 then 0 else 1).
Proof.
  assert (Hn : n_lanes <> 0) by lia.
  pose proof (Nat.div_mod n n_lanes Hn) as Hd.
  pose proof (Nat.mod_upper_bound n n_lanes Hn) as Hm.
  set (q := n / n_lanes) in *. set (r := n mod n_lanes) in *.
  destruct (Nat.eqb_spec r 0) as [Hr | Hr].
  - symmetry; apply Nat.div_unique with (r := n_lanes - 1); lia.
  - symmetry; apply Nat.div_unique with (r := r - 1); lia.
Qed.

Lemma group_lanes_length n :
  length (group_lanes n_lanes n) = (n + n_lanes - 1) / n_lanes.
Proof.
  unfold group_lanes. rewrite n_batches_of_split, length_app, repeat_length.
  destruct (Nat.eqb (n mod n_lanes) 0); reflexivity.
Qed.


Lemma group_lanes_sum n : list_sum (group_lanes n_lanes n) = n.
Proof.
  unfold group_lanes. rewrite list_sum_app, list_sum_repeat.
  assert (Hn : n_lanes <> 0) by lia.
  pose proof (Nat.div_mod n n_lanes Hn).
  destruct (Nat.eqb_spec (n mod n_lanes) 0) as [Hr | Hr]; simpl; lia.
Qed.

Lemma group_lanes_bounded n k :
  In k (group_lanes n_lanes n) -> 0 < k <= n_lanes.
Proof.
  unfold group_lanes. intros H. apply in_app_or in H as [H | H].
  - apply repeat_spec in H. lia.
  - assert (Hn : n_lanes <> 0) by lia.
    pose proof (Nat.mod_upper_bound n n_lanes Hn).
    destruct (Nat.eqb_spec (n mod n_lanes) 0); simpl in H; [tauto|].
    destruct H as [H | []]. lia.
Qed.

(** Padding only in the last batch of a group. *)
Lemma group_lanes_full_but_last n l1 k l2 :
  group_lanes n_lanes n = l1 ++ k :: l2 -> k < n_lanes -> l2 = [].
Proof.
  intros H Hk. destruct l2 as [|k' l2]; [reflexivity|]. exfalso.
  assert (Hpos : nth (length l1) (group_lanes n_lanes n) 0 = k)
    by (rewrite H, app_nth2, Nat.sub_diag by lia; reflexivity).
  assert (Hlen : length (group_lanes n_lanes n) = length l1 + S (S (length l2)))
    by (rewrite H, length_app; simpl; lia).
  unfold group_lanes in Hpos, Hlen. rewrite length_app, repeat_length in Hlen.
  assert (Hlt : length l1 < length (repeat n_lanes (n / n_lanes))).
  { rewrite repeat_length.
    destruct (Nat.eqb (n mod n_lanes) 0); simpl in Hlen; lia. }
  rewrite app_nth1 in Hpos by exact Hlt.
  assert (Hin : In k (repeat n_lanes (n / n_lanes)))
    by (rewrite <- Hpos; apply nth_In; exact Hlt).
  apply repeat_spec in Hin. lia.
Qed.


(** One step of the write-back loop. *)
Lemma write_group_step r irr b group :
  (forall k, b <= k -> irr k = 0) ->
  let '(r', irr', b') := write_group n_lanes (r, irr, b) group in
  r' = r ++ group /\
  b' = b + (length group + n_lanes - 1) / n_lanes /\
  (forall k, k < b -> irr' k = irr k) /\
  (forall k, b' <= k -> irr' k = 0) /\
  map (n_comp n_lanes irr') (seq b (b' - b)) = group_lanes n_lanes (length group).
Proof.
  intros Hz. unfold write_group.
  set (n := length group).
  assert (Hn : n_lanes <> 0) by lia.
  pose proof (Nat.mod_upper_bound n n_lanes Hn) as Hm.
  pose proof (n_batches_of_split n) as Hsplit.
  split; [reflexivity|]. split; [reflexivity|].
  split; [|split].
  - intros k Hk. unfold set_irregular. destruct (Nat.eqb_spec k (n / n_lanes + b)); lia.
  - intros k Hk. unfold set_irregular.
    destruct (Nat.eqb_spec k (n / n_lanes + b)) as [E | E].
    + destruct (Nat.eqb_spec (n mod n_lanes) 0); [assumption | lia].
    + apply Hz. lia.
  - replace (b + (n + n_lanes - 1) / n_lanes - b) with ((n + n_lanes - 1) / n_lanes) by lia.
    rewrite Hsplit. unfold group_lanes. rewrite seq_app, map_app. f_equal.
    + rewrite (map_seq_ext _ (fun _ => n_lanes)).
      * rewrite map_const, length_seq. reflexivity.
      * intros k Hk. unfold n_comp, set_irregular.
        destruct (Nat.eqb_spec k (n / n_lanes + b)); [lia|].
        rewrite Hz by lia. reflexivity.
    + destruct (Nat.eqb_spec (n mod n_lanes) 0) as [E | E]; [reflexivity|].
      simpl. unfold n_comp, set_irregular.
      replace (b + n / n_lanes) with (n / n_lanes + b) by lia.
      rewrite Nat.eqb_refl.
      destruct (Nat.ltb_spec 0 (n mod n_lanes)); [reflexivity | lia].
Qed.

(** The whole write-back loop. *)
Lemma write_groups_spec groups r irr b :
  (forall k, b <= k -> irr k = 0) ->
  let '(r', irr', b') := fold_left (write_group n_lanes) groups (r, irr, b) in
  r' = r ++ concat groups /\
  b' = b + list_sum (map (fun g => (length g + n_lanes - 1) / n_lanes) groups) /\
  (forall k, k < b -> irr' k = irr k) /\
  (forall k, b' <= k -> irr' k = 0) /\
  map (n_comp n_lanes irr') (seq b (b' - b)) =
    concat (map (fun g => group_lanes n_lanes (length g)) groups).
Proof.
  revert r irr b. induction groups as [|g groups IH]; intros r irr b Hz.
  - simpl. rewrite app_nil_r, Nat.add_0_r, Nat.sub_diag. repeat split; auto.
  - cbn [fold_left].
    pose proof (write_group_step r irr b g Hz) as Hs.
    destruct (write_group n_lanes (r, irr, b) g) as [[r1 irr1] b1].
    destruct Hs as [Hr1 [Hb1 [Hlo1 [Hz1 Hl1]]]].
    specialize (IH r1 irr1 b1 Hz1).
    destruct (fold_left (write_group n_lanes) groups (r1, irr1, b1))
      as [[r2 irr2] b2].
    destruct IH as [Hr2 [Hb2 [Hlo2 [Hz2 Hl2]]]].
    lazy beta iota.
    split; [subst; simpl; rewrite app_assoc; reflexivity|].
    split; [subst; simpl; lia|].
    split; [intros k Hk; rewrite Hlo2 by lia; apply Hlo1; exact Hk|].
    split; [exact Hz2|].
    simpl. rewrite <- Hl1, <- Hl2.
    replace (b2 - b) with ((b1 - b) + (b2 - b1)) by lia.
    rewrite seq_app, map_app.
    replace (b + (b1 - b)) with b1 by lia.
    f_equal. apply map_seq_ext. intros k Hk. unfold n_comp. rewrite Hlo2 by lia.
    reflexivity.
Qed.

End Lanes.

(** Bucketing by push_back is filtering. *)
Lemma fold_push_by_fe_index (fe : nat -> nat) cells b j :
  fold_left (push_by_fe_index fe) cells b j =
  b j ++ filter (fun c => Nat.eqb (fe c) j) cells.
Proof.
  revert b. induction cells as [|c cells IH]; intros b.
  - simpl. rewrite app_nil_r. reflexivity.
  - simpl. rewrite IH. unfold push_by_fe_index.
    rewrite (Nat.eqb_sym (fe c) j).
    destruct (Nat.eqb j (fe c)); simpl; [rewrite <- app_assoc|]; reflexivity.
Qed.

Lemma filter_or_perm {X} (p q : X -> bool) l :
  (forall x, p x && q x = false) ->
  Permutation (filter (fun x => p x || q x) l) (filter p l ++ filter q l).
Proof.
  intros Hd. induction l as [|x l IH]; [constructor|].
  simpl. specialize (Hd x).
  destruct (p x) eqn:Ep; destruct (q x) eqn:Eq; simpl in *; try discriminate.
  - constructor. exact IH.
  - apply Permutation_cons_app. exact IH.
  - exact IH.
Qed.

Lemma buckets_perm (fe : nat -> nat) m l :
  Permutation (concat (map (fun j => filter (fun c => Nat.eqb (fe c) j) l) (seq 0 m)))
              (filter (fun c => Nat.ltb (fe c) m) l).
Proof.
  induction m as [|m IH].
  - simpl. induction l as [|c l IHl]; [constructor|]. simpl. exact IHl.
  - rewrite seq_S, map_app, concat_app. simpl. rewrite app_nil_r.
    rewrite (filter_ext (fun c => Nat.ltb (fe c) (S m))
               (fun c => Nat.ltb (fe c) m || Nat.eqb (fe c) m)).
    + rewrite filter_or_perm.
      * apply Permutation_app_tail. exact IH.
      * intros c. destruct (Nat.ltb_spec (fe c) m); destruct (Nat.eqb_spec (fe c) m);
          simpl; lia || reflexivity.
    + intros c. destruct (Nat.ltb_spec (fe c) (S m)); destruct (Nat.ltb_spec (fe c) m);
        destruct (Nat.eqb_spec (fe c) m); simpl; lia || reflexivity.
Qed.

Lemma filter_all {X} (p : X -> bool) l : (forall x, In x l -> p x = true) -> filter p l = l.
Proof.
  induction l as [|x l IH]; intros H; [reflexivity|]. simpl.
  rewrite H by (left; reflexivity). f_equal. apply IH. intros y Hy. apply H. right. exact Hy.
Qed.

(** The cells of a segment, regrouped. *)
Lemma regroup_segment_spec n_lanes mfi fe cells irr b :
  0 < n_lanes ->
  (forall c, In c cells -> fe c < mfi) ->
  (forall k, b <= k -> irr k = 0) ->
  let '(r', irr', b') := regroup_segment n_lanes mfi fe cells irr b in
  Permutation r' cells /\
  b' = b + list_sum (map (fun n => (n + n_lanes - 1) / n_lanes) (group_sizes mfi fe cells)) /\
  (forall k, k < b -> irr' k = irr k) /\
  (forall k, b' <= k -> irr' k = 0) /\
  map (n_comp n_lanes irr') (seq b (b' - b)) =
    concat (map (group_lanes n_lanes) (group_sizes mfi fe cells)).
Proof.
  intros Hl Hfe Hz. unfold regroup_segment.
  pose proof (write_groups_spec n_lanes Hl
    (map (fold_left (push_by_fe_index fe) cells (fun _ => [])) (seq 0 mfi)) [] irr b Hz)
    as Hw.
  destruct (fold_left _ _ _) as [[r' irr'] b'].
  destruct Hw as [Hr [Hb [Hlo [Hz' Hlanes]]]].
  lazy beta iota zeta.
  assert (Hgroups : map (fold_left (push_by_fe_index fe) cells (fun _ => [])) (seq 0 mfi) =
                    map (fun j => filter (fun c => Nat.eqb (fe c) j) cells) (seq 0 mfi)).
  { apply map_ext. intros j. rewrite fold_push_by_fe_index. reflexivity. }
  rewrite Hgroups in Hr, Hb, Hlanes. rewrite map_map in Hb, Hlanes.
  unfold group_sizes. rewrite !map_map.
  split; [|split; [|split; [|split]]]; auto.
  - rewrite Hr. simpl. rewrite buckets_perm.
    rewrite filter_all; [reflexivity|].
    intros c Hc. apply Nat.ltb_lt. apply Hfe. exact Hc.
Qed.

Lemma group_sizes_sum mfi fe cells :
  (forall c, In c cells -> fe c < mfi) ->
  list_sum (group_sizes mfi fe cells) = length cells.
Proof.
  intros Hfe. unfold group_sizes.
  transitivity (length (concat (map (fun j => filter (fun c => Nat.eqb (fe c) j) cells)
                                   (seq 0 mfi)))).
  - rewrite length_concat, map_map. reflexivity.
  - rewrite (Permutation_length (buckets_perm fe mfi cells)).
    rewrite filter_all; [reflexivity|].
    intros c Hc; apply Nat.ltb_lt; auto.
Qed.

Lemma list_sum_concat_group_lanes n_lanes sizes :
  0 < n_lanes ->
  list_sum (concat (map (group_lanes n_lanes) sizes)) = list_sum sizes.
Proof.
  intros Hl. induction sizes as [|n sizes IH]; [reflexivity|].
  simpl. rewrite list_sum_app, group_lanes_sum by exact Hl. rewrite IH. reflexivity.
Qed.

Lemma in_firstn_in {X} (x : X) n l : In x (firstn n l) -> In x l.
Proof. intros H. rewrite <- (firstn_skipn n l). apply in_or_app. left. exact H. Qed.

Lemma in_skipn_in {X} (x : X) n l : In x (skipn n l) -> In x l.
Proof. intros H. rewrite <- (firstn_skipn n l). apply in_or_app. right. exact H. Qed.

(** The hp regrouping of the cell batches: the cells of
    each segment (cells at the MPI boundary, the remaining locally owned
    cells) are grouped by active FE index, and every group gets its own
    batches. The new [renumbering] is a permutation of the old one (the
    locally owned part a permutation of the locally owned cells, ghosts in
    place); the number of batches is the sum over the groups of
    ceil(n_g / n_lanes), not ceil(N / n_lanes); the lane counts of the
    batches are, group after group, full batches followed by at most one
    partial batch, so that padding lanes occur only in the last batch of a
    group; and the lane counts sum to the number N of locally owned cells. *)
Theorem hp_regroup_batches (n_lanes max_fe_index : nat) (fe : nat -> nat)
  (renumbering : list nat) (n_active_cells start_nonboundary : nat)
  (Hl : 0 < n_lanes) (Hn : n_active_cells <= length renumbering)
  (Hfe : forall c, In c (firstn n_active_cells renumbering) -> fe c < max_fe_index) :
  let owned := firstn n_active_cells renumbering in
  let n_boundary := Nat.min (start_nonboundary * n_lanes) n_active_cells in
  let sizes := group_sizes max_fe_index fe (firstn n_boundary owned) ++
               group_sizes max_fe_index fe (skipn n_boundary owned) in
  let '(renumbering', irregular_cells, n_batches) :=
    hp_regroup n_lanes max_fe_index fe renumbering n_active_cells start_nonboundary in
  Permutation renumbering' renumbering /\
  Permutation (firstn n_active_cells renumbering') owned /\
  skipn n_active_cells renumbering' = skipn n_active_cells renumbering /\
  n_batches = list_sum (map (n_batches_of n_lanes) sizes) /\
  batch_lanes n_lanes irregular_cells n_batches = concat (map (group_lanes n_lanes) sizes) /\
  (forall n l1 k l2, In n sizes -> group_lanes n_lanes n = l1 ++ k :: l2 ->
     k < n_lanes -> l2 = []) /\
  list_sum sizes = n_active_cells /\
  list_sum (batch_lanes n_lanes irregular_cells n_batches) = n_active_cells.
Proof.
  intros owned n_boundary sizes. unfold hp_regroup. fold owned n_boundary.
  assert (Hown : length owned = n_active_cells)
    by (unfold owned; rewrite length_firstn; lia).
  assert (Hfe1 : forall c, In c (firstn n_boundary owned) -> fe c < max_fe_index).
  { intros c Hc. apply Hfe. apply (in_firstn_in c n_boundary). exact Hc. }
  assert (Hfe2 : forall c, In c (skipn n_boundary owned) -> fe c < max_fe_index).
  { intros c Hc. apply Hfe. apply (in_skipn_in c n_boundary). exact Hc. }
  pose proof (regroup_segment_spec n_lanes max_fe_index fe (firstn n_boundary owned)
                (fun _ => 0) 0 Hl Hfe1 (fun _ _ => eq_refl)) as H1.
  destruct (regroup_segment n_lanes max_fe_index fe (firstn n_boundary owned) (fun _ => 0) 0)
    as [[r1 irr1] b1].
  destruct H1 as [Hp1 [Hb1 [_ [Hz1 Hl1]]]].
  pose proof (regroup_segment_spec n_lanes max_fe_index fe (skipn n_boundary owned)
                irr1 b1 Hl Hfe2 Hz1) as H2.
  destruct (regroup_segment n_lanes max_fe_index fe (skipn n_boundary owned) irr1 b1)
    as [[r2 irr2] b2].
  destruct H2 as [Hp2 [Hb2 [Hlo2 [Hz2 Hl2]]]].
  lazy beta iota zeta.
  assert (Hp12 : Permutation (r1 ++ r2) owned).
  { rewrite <- (firstn_skipn n_boundary owned).
    apply Permutation_app; assumption. }
  assert (Hlen12 : length (r1 ++ r2) = n_active_cells)
    by (rewrite (Permutation_length Hp12); exact Hown).
  assert (Hsizes : list_sum sizes = n_active_cells).
  { unfold sizes. rewrite list_sum_app, !group_sizes_sum by assumption.
    rewrite <- length_app, firstn_skipn. exact Hown. }
  assert (Hlanes : batch_lanes n_lanes irr2 b2 = concat (map (group_lanes n_lanes) sizes)).
  { unfold batch_lanes, sizes. rewrite map_app, concat_app.
    rewrite <- Hl1, <- Hl2, !Nat.sub_0_r.
    replace b2 with (b1 + (b2 - b1)) at 1 by lia.
    rewrite seq_app, map_app. f_equal.
    apply map_seq_ext. intros k Hk. unfold n_comp. rewrite Hlo2 by lia. reflexivity. }
  split; [|split; [|split; [|split; [|split; [|split; [|split]]]]]].
  - rewrite app_assoc. rewrite <- (firstn_skipn n_active_cells renumbering) at 2.
    apply Permutation_app_tail. exact Hp12.
  - rewrite app_assoc, firstn_app, <- Hlen12, Nat.sub_diag, firstn_all. simpl.
    rewrite app_nil_r. exact Hp12.
  - rewrite app_assoc, skipn_app, <- Hlen12, Nat.sub_diag, skipn_all. reflexivity.
  - rewrite Hb2, Hb1. unfold sizes. rewrite map_app, list_sum_app. reflexivity.
  - exact Hlanes.
  - intros n l1 k l2 _ Hg Hk. exact (group_lanes_full_but_last n_lanes Hl n l1 k l2 Hg Hk).
  - exact Hsizes.
  - rewrite Hlanes, list_sum_concat_group_lanes by exact Hl. exact Hsizes.
Qed.

Section CellLevelIndexProofs.
Variable A : Type.
Variable n_lanes : nat.
Hypothesis n_lanes_pos : 0 < n_lanes.
Variables (old : list A) (renumbering : list nat) (irregular_cells : nat -> nat).

Local Abbreviation lookup := (lookup_cell old renumbering).
Local Abbreviation nc := (n_comp n_lanes irregular_cells).

Lemma collect_lanes_spec pos n :
  (forall k, pos <= k < pos + n -> lookup k <> None) ->
  exists l, collect_lanes old renumbering pos n = Some l /\ length l = n /\
    forall j, j < n -> nth_error l j = lookup (pos + j).
Proof.
  revert pos. induction n as [|n IH]; intros pos Hk.
  - exists []. split; [reflexivity|]. split; [reflexivity|]. intros j Hj; lia.
  - simpl. destruct (lookup pos) as [x|] eqn:Ex.
    2: { exfalso. apply (Hk pos); [lia | exact Ex]. }
    destruct (IH (S pos)) as [l [Hl [Hlen Hnth]]].
    { intros k Hk'. apply Hk. lia. }
    rewrite Hl. exists (x :: l). split; [reflexivity|]. split; [simpl; lia|].
    intros [|j] Hj; simpl.
    + rewrite Nat.add_0_r. symmetry. exact Ex.
    + rewrite Hnth by lia. f_equal. lia.
Qed.

Lemma n_comp_bounds i : irregular_cells i <= n_lanes -> 1 <= nc i <= n_lanes.
Proof.
  intros H. unfold n_comp. destruct (Nat.ltb_spec 0 (irregular_cells i)); lia.
Qed.

Lemma fill_cell_level_index_spec nb i pos :
  (forall i', i <= i' < i + nb -> irregular_cells i' <= n_lanes) ->
  (forall k, pos <= k < pos + list_sum (map nc (seq i nb)) -> lookup k <> None) ->
  exists flat,
    fill_cell_level_index n_lanes old renumbering irregular_cells i nb pos = Some flat /\
    length flat = nb * n_lanes /\
    forall i0 j, i0 < nb -> j < n_lanes ->
      nth_error flat (i0 * n_lanes + j) =
      lookup (pos + list_sum (map nc (seq i i0)) +
              (if Nat.ltb j (nc (i + i0)) then j else nc (i + i0) - 1)).
Proof.
  revert i pos. induction nb as [|nb IH]; intros i pos Hirr Hk.
  - exists []. split; [reflexivity|]. split; [reflexivity|]. intros i0 j Hi0; lia.
  - pose proof (n_comp_bounds i (Hirr i ltac:(lia))) as Hb.
    assert (Hsum : forall i' m, list_sum (map nc (seq i' (S m))) =
                                nc i' + list_sum (map nc (seq (S i') m)))
      by reflexivity.
    rewrite Hsum in Hk.
    destruct (collect_lanes_spec pos (nc i)) as [filled [Hf [Hflen Hfnth]]].
    { intros k Hk'. apply Hk. lia. }
    destruct (lookup (pos + nc i - 1)) as [last|] eqn:Elast.
    2: { exfalso. apply (Hk (pos + nc i - 1)); [lia | exact Elast]. }
    destruct (IH (S i) (pos + nc i)) as [rest [Hr [Hrlen Hrnth]]].
    { intros i' Hi'. apply Hirr. lia. }
    { intros k Hk'. apply Hk. lia. }
    exists (filled ++ repeat last (n_lanes - nc i) ++ rest).
    simpl. rewrite Hf, Elast, Hr. split; [reflexivity|].
    split; [rewrite !length_app, repeat_length; lia|].
    intros [|i0] j Hi0 Hj.
    + simpl. rewrite !Nat.add_0_r.
      destruct (Nat.ltb_spec j (nc i)) as [Hlt | Hge].
      * rewrite nth_error_app1 by lia. apply Hfnth. exact Hlt.
      * rewrite nth_error_app2 by lia. rewrite nth_error_app1 by (rewrite repeat_length; lia).
        rewrite nth_error_repeat by lia. symmetry.
        replace (pos + (nc i - 1)) with (pos + nc i - 1) by lia. exact Elast.
    + rewrite nth_error_app2 by (simpl; nia).
      rewrite nth_error_app2 by (rewrite repeat_length; simpl; nia).
      rewrite repeat_length.
      replace (S i0 * n_lanes + j - length filled - (n_lanes - nc i))
        with (i0 * n_lanes + j) by (simpl; nia).
      rewrite Hrnth by lia.
      replace (S i + i0) with (i + S i0) by lia.
      rewrite Hsum. f_equal. lia.
Qed.

End CellLevelIndexProofs.

(** C5 (as amended). [cell_level_index] has n_batches * n_lanes entries;
    lane j of batch i holds, for a filled lane (j < n_comp i), the cell at
    position offset(i) + j of the renumbered sequence, where offset(i) is
    the sum of the lane counts of the batches before i (equal to i * n_lanes
    only when all earlier batches are full), and for a padding lane a copy of
    the batch's last filled cell, at position offset(i) + n_comp i - 1. This
    holds whenever the lane counts are at most n_lanes and all positions
    below offset(n_batches) are valid indices. *)
Theorem cell_level_index_layout (A : Type) (n_lanes : nat) (old : list A)
  (renumbering : list nat) (irregular_cells : nat -> nat) (n_batches : nat)
  (Hl : 0 < n_lanes)
  (Hirr : forall i, i < n_batches -> irregular_cells i <= n_lanes)
  (Hk : forall k, k < batch_offset n_lanes irregular_cells n_batches ->
        lookup_cell old renumbering k <> None) :
  exists flat,
    cell_level_index n_lanes old renumbering irregular_cells n_batches = Some flat /\
    length flat = n_batches * n_lanes /\
    forall i j, i < n_batches -> j < n_lanes ->
      nth_error flat (i * n_lanes + j) =
      lookup_cell old renumbering
        (batch_offset n_lanes irregular_cells i +
         (if Nat.ltb j (n_comp n_lanes irregular_cells i) then j
          else n_comp n_lanes irregular_cells i - 1)).
Proof.
  destruct (fill_cell_level_index_spec A n_lanes Hl old renumbering irregular_cells
              n_batches 0 0) as [flat [H1 [H2 H3]]].
  - intros i' Hi'. apply Hirr. lia.
  - intros k Hk'. apply Hk. exact (proj2 Hk').
  - exists flat. split; [exact H1|]. split; [exact H2|].
    intros i j Hi Hj. rewrite H3 by assumption. reflexivity.
Qed.

End MatrixFreeProofs.

Module MatrixFreeExamples.
Import MatrixFreeImplementation MatrixFreeProofs.

(** Two cells with different active FE indices and two SIMD lanes. *)
Definition fe_two_cells (c : nat) : nat := c.

(** Three cells, the first with FE index 0, the others with FE index 1. *)
Definition fe_three_cells (c : nat) : nat := if Nat.eqb c 0 then 0 else 1.

(** Two locally owned cells with FE indices 0 and 1 and
    n_lanes = 2 give two batches of one filled lane each, while
    ceil(2 / 2) = 1. *)
Lemma hp_regroup_two_fe_indices_two_batches :
  snd (hp_regroup 2 2 fe_two_cells [0; 1] 2 0) = 2 /\
  n_batches_of 2 2 = 1 /\
  batch_lanes 2 (snd (fst (hp_regroup 2 2 fe_two_cells [0; 1] 2 0))) 2 = [1; 1].
Proof. vm_compute. repeat split. Qed.

Lemma hp_regroup_batches_witness :
  0 < 2 /\ 3 <= length [0; 1; 2] /\
  (forall c, In c (firstn 3 [0; 1; 2]) -> fe_three_cells c < 2) /\
  snd (hp_regroup 2 2 fe_three_cells [0; 1; 2] 3 0) = 2.
Proof.
  refine (conj _ (conj _ (conj _ _))).
  - lia.
  - simpl; lia.
  - intros c _. unfold fe_three_cells. destruct (Nat.eqb c 0); lia.
  - pose proof (hp_regroup_batches 2 2 fe_three_cells [0; 1; 2] 3 0
                  ltac:(lia) ltac:(simpl; lia)
                  (fun c _ => ltac:(unfold fe_three_cells; destruct (Nat.eqb c 0); lia)))
      as H.
    vm_compute in H. vm_compute.
    destruct H as [_ [_ [_ [H _]]]]. exact H.
Defined.

(** The irregular_cells of the regrouping of three cells with FE indices
    0, 1, 1: the lane counts are [1; 2]. *)
Definition three_cells_irregular : nat -> nat :=
  snd (fst (hp_regroup 2 2 fe_three_cells [0; 1; 2] 3 0)).

(** C5 counterexample: after the regrouping above, with cell handles
    10, 11, 12, the second batch (i = 1) starts at flat position 2 with the
    handle 11 of the renumbered cell at position 1, not with the handle 12
    of the cell at position i * n_lanes + 0 = 2. *)
Lemma cell_level_index_shifted_by_padding :
  batch_lanes 2 three_cells_irregular 2 = [1; 2] /\
  cell_level_index 2 [10; 11; 12] [0; 1; 2] three_cells_irregular 2 =
    Some [10; 10; 11; 12] /\
  lookup_cell [10; 11; 12] [0; 1; 2] (1 * 2 + 0) = Some 12.
Proof. vm_compute. repeat split. Qed.

Lemma cell_level_index_layout_witness :
  0 < 2 /\
  (forall i, i < 2 -> three_cells_irregular i <= 2) /\
  (forall k, k < batch_offset 2 three_cells_irregular 2 ->
     lookup_cell [10; 11; 12] [0; 1; 2] k <> None) /\
  cell_level_index 2 [10; 11; 12] [0; 1; 2] three_cells_irregular 2 <> None.
Proof.
  assert (Hirr : forall i, i < 2 -> three_cells_irregular i <= 2).
  { intros i Hi. destruct i as [|[|i]]; vm_compute; lia. }
  assert (Hk : forall k, k < batch_offset 2 three_cells_irregular 2 ->
                 lookup_cell [10; 11; 12] [0; 1; 2] k <> None).
  { intros k Hk. vm_compute in Hk.
    destruct k as [|[|[|k]]]; vm_compute; try discriminate. lia. }
  refine (conj _ (conj Hirr (conj Hk _))); [lia|].
  destruct (cell_level_index_layout nat 2 [10; 11; 12] [0; 1; 2] three_cells_irregular 2
              ltac:(lia) Hirr Hk) as [flat [H _]].
  rewrite H. discriminate.
Defined.

End MatrixFreeExamples.

Module ConstraintPoolProofs.
Import ConstraintPool.

Section PoolProofs.
Variable C : Type.
Variable C_eq_dec : forall x y : C, {x = y} + {x <> y}.

Local Abbreviation find := (find_constraint C_eq_dec).

Lemma find_constraint_in cs v i : find cs v = Some i -> In (v, i) cs.
Proof.
  induction cs as [|[w j] cs IH]; simpl; [discriminate|].
  destruct (list_eq_dec C_eq_dec w v) as [<- | _].
  - intros H. injection H as <-. left. reflexivity.
  - intros H. right. apply IH. exact H.
Qed.

Lemma find_constraint_none cs v : find cs v = None -> ~ In v (map fst cs).
Proof.
  induction cs as [|[w j] cs IH]; simpl; [tauto|].
  destruct (list_eq_dec C_eq_dec w v) as [E | E]; [discriminate|].
  intros H [H1 | H1]; [contradiction | exact (IH H H1)].
Qed.

Lemma find_constraint_some cs v : In v (map fst cs) -> exists i, find cs v = Some i.
Proof.
  induction cs as [|[w j] cs IH]; simpl; [tauto|].
  destruct (list_eq_dec C_eq_dec w v) as [E | E]; [eauto|].
  intros [H | H]; [contradiction | exact (IH H)].
Qed.

(** The invariant of the content-addressed map: rows numbered 0, 1, ... in
    insertion order, and pairwise different coefficient vectors. *)
Definition map_inv (cs : constraint_map C) : Prop :=
  map snd cs = seq 0 (length cs) /\ NoDup (map fst cs).

Lemma insert_constraint_inv cs v :
  map_inv cs ->
  let '(cs', i) := insert_constraint C_eq_dec cs v in
  map_inv cs' /\ In (v, i) cs' /\ incl cs cs'.
Proof.
  intros [Hs Hn]. unfold insert_constraint.
  destruct (find cs v) as [i|] eqn:E.
  - split; [split; assumption|]. split; [apply find_constraint_in; exact E|].
    apply incl_refl.
  - split; [split|split].
    + rewrite !map_app, length_app, Hs. simpl. rewrite Nat.add_1_r, seq_S. reflexivity.
    + rewrite map_app. simpl. apply NoDup_app; [exact Hn | constructor; [tauto|constructor] |].
      intros x Hx [Ex | []]. subst x. apply (find_constraint_none cs v E). exact Hx.
    + apply in_or_app. right. left. reflexivity.
    + apply incl_appl, incl_refl.
Qed.

Lemma insert_all_inv_gen vs cs :
  map_inv cs ->
  let cs' := fold_left (fun cs v => fst (insert_constraint C_eq_dec cs v)) vs cs in
  map_inv cs' /\ incl cs cs' /\ forall v, In v vs -> In v (map fst cs').
Proof.
  revert cs. induction vs as [|v vs IH]; intros cs Hinv; simpl.
  - split; [exact Hinv|]. split; [apply incl_refl | tauto].
  - pose proof (insert_constraint_inv cs v Hinv) as Hi.
    destruct (insert_constraint C_eq_dec cs v) as [cs1 i] eqn:E. simpl.
    destruct Hi as [Hinv1 [Hin1 Hincl1]].
    destruct (IH cs1 Hinv1) as [Hinv2 [Hincl2 Hall2]].
    split; [exact Hinv2|]. split; [eapply incl_tran; eassumption|].
    intros w [Ew | Hw]; [subst w|apply Hall2; exact Hw].
    apply in_map_iff. exists (v, i). split; [reflexivity|]. apply Hincl2. exact Hin1.
Qed.

Lemma insert_all_inv vs :
  map_inv (insert_all C_eq_dec vs) /\
  forall v, In v vs -> In v (map fst (insert_all C_eq_dec vs)).
Proof.
  destruct (insert_all_inv_gen vs [] ltac:(split; [reflexivity | constructor]) : _)
    as [H1 [_ H3]].
  split; assumption.
Qed.

Lemma in_seq_map_inv (cs : constraint_map C) a (v : list C) i :
  map snd cs = seq a (length cs) -> In (v, i) cs ->
  a <= i /\ nth_error cs (i - a) = Some (v, i).
Proof.
  revert a. induction cs as [|[w j] cs IH]; intros a Hs Hin; [destruct Hin|].
  simpl in Hs. injection Hs as Hj Hs.
  destruct Hin as [E | Hin].
  - injection E as <- <-. subst. rewrite Nat.sub_diag. split; [lia | reflexivity].
  - destruct (IH (S a) Hs Hin) as [Ha Hn]. split; [lia|].
    replace (i - a) with (S (i - S a)) by lia. exact Hn.
Qed.

(** The slot array after [constraints[it.second] = &it.first]. *)
Lemma fill_slots_spec (entries : constraint_map C) (slots : list (option (list C))) :
  NoDup (map snd entries) ->
  (forall v i, In (v, i) entries -> i < length slots) ->
  exists slots',
    fill_slots entries slots = Some slots' /\ length slots' = length slots /\
    (forall v i, In (v, i) entries -> nth_error slots' i = Some (Some v)) /\
    (forall i, (forall v, ~ In (v, i) entries) -> nth_error slots' i = nth_error slots i).
Proof.
  revert slots. induction entries as [|[v i] entries IH]; intros slots Hnd Hlt.
  - exists slots. split; [reflexivity|]. split; [reflexivity|].
    split; [intros v i []|]. intros; reflexivity.
  - simpl in Hnd. inversion Hnd as [|? ? Hni Hnd']. subst.
    assert (Hi : i < length slots) by (apply (Hlt v); left; reflexivity).
    simpl. unfold set_slot. destruct (Nat.ltb_spec i (length slots)); [|lia].
    set (slots1 := firstn i slots ++ Some v :: skipn (S i) slots).
    assert (Hlen1 : length slots1 = length slots).
    { unfold slots1. rewrite length_app, length_firstn, length_cons, length_skipn. lia. }
    assert (Hnth1 : forall k, nth_error slots1 k = if Nat.eqb k i then Some (Some v)
                                                   else nth_error slots k).
    { intros k. unfold slots1.
      destruct (Nat.lt_total k i) as [Hk | [Hk | Hk]].
      - rewrite nth_error_app1 by (rewrite length_firstn; lia).
        rewrite nth_error_firstn. destruct (Nat.ltb_spec k i); [|lia].
        destruct (Nat.eqb_spec k i); [lia | reflexivity].
      - subst k. rewrite nth_error_app2 by (rewrite length_firstn; lia).
        rewrite length_firstn. replace (i - Nat.min i (length slots)) with 0 by lia.
        rewrite Nat.eqb_refl. reflexivity.
      - rewrite nth_error_app2 by (rewrite length_firstn; lia).
        rewrite length_firstn. replace (k - Nat.min i (length slots)) with (S (k - S i)) by lia.
        change (nth_error (Some v :: skipn (S i) slots) (S (k - S i)))
          with (nth_error (skipn (S i) slots) (k - S i)).
        rewrite nth_error_skipn. destruct (Nat.eqb_spec k i); [lia|].
        f_equal. lia. }
    destruct (IH slots1 Hnd') as [slots' [Hf [Hlen' [Hin' Hout']]]].
    { intros w j Hw. rewrite Hlen1. apply (Hlt w). right. exact Hw. }
    exists slots'. split; [exact Hf|]. split; [lia|]. split.
    + intros w j [E | Hw].
      * injection E as <- <-. rewrite Hout'.
        -- rewrite Hnth1, Nat.eqb_refl. reflexivity.
        -- intros w Hw. apply Hni. apply in_map_iff. exists (w, i). split; [reflexivity | exact Hw].
      * apply Hin'. exact Hw.
    + intros k Hk. rewrite Hout'.
      * rewrite Hnth1. destruct (Nat.eqb_spec k i) as [-> | _]; [|reflexivity].
        exfalso. apply (Hk v). left. reflexivity.
      * intros w Hw. apply (Hk w). right. exact Hw.
Qed.

Lemma all_set_map_some (rows : list (list C)) : all_set (map Some rows) = Some rows.
Proof. induction rows as [|r rows IH]; simpl; [reflexivity|]. rewrite IH. reflexivity. Qed.

(** The loop appending the rows. *)
Lemma fold_pool_step (rows : list (list C)) (d : list C) (ri : list nat) :
  fold_left pool_step rows (d, ri) =
  (d ++ concat rows,
   ri ++ map (fun k => length d + length (concat (firstn (S k) rows))) (seq 0 (length rows))).
Proof.
  revert d ri. induction rows as [|r rows IH]; intros d ri.
  - simpl. rewrite !app_nil_r. reflexivity.
  - simpl. rewrite IH. f_equal.
    + rewrite app_assoc. reflexivity.
    + rewrite <- app_assoc. f_equal. simpl. rewrite length_app, app_nil_r. f_equal.
      rewrite <- seq_shift, map_map. apply map_ext. intros k.
      simpl. rewrite !length_app. lia.
Qed.

Lemma firstn_S_nth_error {X} (l : list X) k x :
  nth_error l k = Some x -> firstn (S k) l = firstn k l ++ [x].
Proof.
  revert k. induction l as [|y l IH]; intros [|k] H; simpl in *; try discriminate.
  - injection H as ->. reflexivity.
  - rewrite (IH k H). reflexivity.
Qed.

Lemma row_index_nth (rows : list (list C)) k :
  k <= length rows ->
  nth_error (0 :: map (fun k => 0 + length (concat (firstn (S k) rows))) (seq 0 (length rows))) k
  = Some (length (concat (firstn k rows))).
Proof.
  intros Hk. destruct k as [|k]; [reflexivity|].
  simpl. rewrite nth_error_map, nth_error_seq. destruct (Nat.ltb_spec k (length rows)); [|lia].
  reflexivity.
Qed.

End PoolProofs.

(** C9. After [initialize_indices] has set up the constraint pool from the
    content-addressed map of coefficient vectors, in whatever order the map
    is iterated: no two pool rows hold equal coefficient vectors, every
    inserted vector is found at the row the map assigns to it,
    [constraint_pool_data] is the concatenation of the rows,
    [constraint_pool_row_index] has one entry more than there are rows,
    starts at 0, each entry exceeds the previous one by the length of the
    row in between, and the last entry is the length of
    [constraint_pool_data]. *)
Theorem constraint_pool_dedup_csr (C : Type) (C_eq_dec : forall x y : C, {x = y} + {x <> y})
  (vs : list (list C)) (map_entries : constraint_map C)
  (Hperm : Permutation map_entries (insert_all C_eq_dec vs)) :
  let rows := map fst (insert_all C_eq_dec vs) in
  exists constraint_pool_data constraint_pool_row_index,
    set_constraint_pool map_entries =
      Some (constraint_pool_data, constraint_pool_row_index) /\
    NoDup rows /\
    (forall v, In v vs -> exists i,
       find_constraint C_eq_dec (insert_all C_eq_dec vs) v = Some i /\
       nth_error rows i = Some v) /\
    constraint_pool_data = concat rows /\
    length constraint_pool_row_index = S (length rows) /\
    nth_error constraint_pool_row_index 0 = Some 0 /\
    (forall k r, nth_error rows k = Some r -> exists a,
       nth_error constraint_pool_row_index k = Some a /\
       nth_error constraint_pool_row_index (S k) = Some (a + length r)) /\
    nth_error constraint_pool_row_index (length rows) = Some (length constraint_pool_data).
Proof.
  intros rows.
  set (cs := insert_all C_eq_dec vs) in *.
  destruct (insert_all_inv C C_eq_dec vs) as [[Hs Hnd] Hall]. fold cs in Hs, Hnd, Hall.
  assert (Hlen : length map_entries = length cs) by exact (Permutation_length Hperm).
  assert (Hrows_len : length rows = length cs) by (unfold rows; apply length_map).
  assert (Hcs_nth : forall i, i < length cs -> exists v, nth_error cs i = Some (v, i)).
  { intros i Hi.
    assert (E : nth_error (map snd cs) i = Some i)
      by (rewrite Hs, nth_error_seq; destruct (Nat.ltb_spec i (length cs)); [reflexivity | lia]).
    rewrite nth_error_map in E.
    destruct (nth_error cs i) as [[v j]|]; simpl in E; [|discriminate].
    injection E as ->. exists v. reflexivity. }
  assert (Hin_lt : forall v i, In (v, i) map_entries -> i < length cs).
  { intros v i Hin. apply (Permutation_in _ Hperm) in Hin.
    destruct (in_seq_map_inv C cs 0 v i Hs Hin) as [_ Hn].
    rewrite Nat.sub_0_r in Hn. apply nth_error_Some. rewrite Hn. discriminate. }
  assert (Hnd_idx : NoDup (map snd map_entries)).
  { apply (Permutation_NoDup (Permutation_sym (Permutation_map snd Hperm))).
    rewrite Hs. apply seq_NoDup. }
  destruct (fill_slots_spec C map_entries (repeat None (length map_entries)) Hnd_idx)
    as [slots [Hfill [Hslen [Hsin Hsout]]]].
  { intros v i Hin. rewrite repeat_length, Hlen. exact (Hin_lt v i Hin). }
  assert (Hslots : slots = map Some rows).
  { apply nth_error_ext. intros i.
    destruct (Nat.lt_ge_cases i (length cs)) as [Hi | Hi].
    - destruct (Hcs_nth i Hi) as [v Hv].
      rewrite (Hsin v i).
      + unfold rows. rewrite !nth_error_map, Hv. reflexivity.
      + apply (Permutation_in _ (Permutation_sym Hperm)). eapply nth_error_In. exact Hv.
    - rewrite Hsout.
      + rewrite (proj2 (nth_error_None _ _)) by (rewrite repeat_length; lia).
        symmetry. apply nth_error_None. rewrite length_map. lia.
      + intros v Hv. specialize (Hin_lt v i Hv). lia. }
  unfold set_constraint_pool. rewrite Hfill, Hslots, all_set_map_some, fold_pool_step.
  cbn [app]. change (length (@nil C)) with 0.
  eexists; eexists. split; [reflexivity|].
  split; [exact Hnd|].
  split.
  { intros v Hv. destruct (find_constraint_some C C_eq_dec cs v (Hall v Hv)) as [i Hi].
    exists i. split; [exact Hi|].
    destruct (in_seq_map_inv C cs 0 v i Hs (find_constraint_in C C_eq_dec cs v i Hi))
      as [_ Hn]. rewrite Nat.sub_0_r in Hn.
    unfold rows. rewrite nth_error_map, Hn. reflexivity. }
  split; [reflexivity|].
  split; [rewrite length_cons, length_map, length_seq; reflexivity|].
  split; [reflexivity|].
  split.
  { intros k r Hk.
    assert (Hkl : k < length rows) by (apply nth_error_Some; rewrite Hk; discriminate).
    exists (length (concat (firstn k rows))).
    split; [apply (row_index_nth C rows k); lia|].
    rewrite (row_index_nth C rows (S k)) by lia.
    rewrite (firstn_S_nth_error rows k r Hk), concat_app, length_app. simpl.
    rewrite app_nil_r. reflexivity. }
  rewrite (row_index_nth C rows (length rows)) by lia.
  rewrite firstn_all. reflexivity.
Qed.

End ConstraintPoolProofs.

Module ConstraintPoolExamples.
Import ConstraintPool ConstraintPoolProofs.

(** Three cells with constraints, the first and the last one equal; the map
    iterates its two entries in the reverse order of insertion. *)
Definition example_constraints : list (list nat) := [[1; 2]; [3]; [1; 2]].
Definition example_map_entries : constraint_map nat := [([3], 1); ([1; 2], 0)].

Lemma constraint_pool_dedup_csr_witness :
  Permutation example_map_entries (insert_all Nat.eq_dec example_constraints) /\
  set_constraint_pool example_map_entries = Some ([1; 2; 3], [0; 2; 3]).
Proof.
  assert (Hp : Permutation example_map_entries (insert_all Nat.eq_dec example_constraints)).
  { vm_compute. apply perm_swap. }
  split; [exact Hp|].
  destruct (constraint_pool_dedup_csr nat Nat.eq_dec example_constraints
              example_map_entries Hp) as [d [ri [H _]]].
  rewrite H. vm_compute in H. injection H as <- <-. reflexivity.
Defined.

End ConstraintPoolExamples.

Module FillFEValuesProofs.
Import FillFEValues.

Section FillProofs.
Variables (Cell SupportPoint QPoint Contra Cov Scalar
           JacGrad PFGrad Jac2nd PF2nd Jac3rd PF3rd Normal : Type).
Variable compute_mapping_support_points : Cell -> list SupportPoint.
Variable q_point_at : list SupportPoint -> nat -> QPoint.
Variable contravariant_at : list SupportPoint -> nat -> Contra.
Variable jacobian_grad_at : list SupportPoint -> nat -> JacGrad.
Variable pushed_forward_grad_at : list SupportPoint -> list Cov -> nat -> PFGrad.
Variable jacobian_2nd_at : list SupportPoint -> nat -> Jac2nd.
Variable pushed_forward_2nd_at : list SupportPoint -> list Cov -> nat -> PF2nd.
Variable jacobian_3rd_at : list SupportPoint -> nat -> Jac3rd.
Variable pushed_forward_3rd_at : list SupportPoint -> list Cov -> nat -> PF3rd.
Variable tensor_q_point_at : list SupportPoint -> nat -> QPoint.
Variable tensor_contravariant_at : list SupportPoint -> nat -> Contra.
Variable tensor_jacobian_grad_at : list SupportPoint -> nat -> JacGrad.
Variable collocation_q_point_at : list SupportPoint -> nat -> QPoint.
Variable covariant_form : Contra -> Cov.
Variable determinant : Contra -> Scalar.
Variable transpose : Cov -> Contra.
Variable area_element : Contra -> Scalar.
Variable mult : Scalar -> Scalar -> Scalar.
Variable cell_normal : Cell -> Contra -> Normal.
Variable neg_normal : Normal -> Normal.
Variables (zero_contra : Contra) (zero_cov : Cov) (zero_scalar : Scalar).

Local Abbreviation fill :=
  (fill_fe_values Cell SupportPoint QPoint Contra Cov Scalar
     JacGrad PFGrad Jac2nd PF2nd Jac3rd PF3rd Normal
     compute_mapping_support_points q_point_at contravariant_at jacobian_grad_at
     pushed_forward_grad_at jacobian_2nd_at pushed_forward_2nd_at
     jacobian_3rd_at pushed_forward_3rd_at tensor_q_point_at
     tensor_contravariant_at tensor_jacobian_grad_at collocation_q_point_at
     covariant_form determinant transpose area_element mult cell_normal
     neg_normal zero_contra zero_cov zero_scalar).

Lemma if_same {X : Type} (b : bool) (x : X) : (if b then x else x) = x.
Proof. destruct b; reflexivity. Qed.

Lemma maybe_update_higher_translation {X : Type} flag (f : nat -> X) arr :
  maybe_update_higher flag translation f arr = arr.
Proof. unfold maybe_update_higher; destruct flag; reflexivity. Qed.

Lemma update_JxW_and_normals_translation dim spacedim cell flags weights contra
  n jxw normals :
  update_JxW_and_normals Cell Contra Scalar Normal determinant
    area_element mult cell_normal neg_normal zero_contra zero_scalar dim spacedim
    cell translation flags weights contra n jxw normals = (jxw, normals).
Proof. unfold update_JxW_and_normals; destruct (_ || _); reflexivity. Qed.

(** C7: for a mapping of degree 1 and a cell tagged as a translation of the
    previous cell, [fill_fe_values] returns the tag [translation] and leaves
    the cached contravariant Jacobians, covariant forms and volume elements,
    the Jacobian gradients, all higher-derivative outputs (plain and pushed
    forward, 2nd and 3rd order), the Jacobians, inverse Jacobians, JxW values
    and normal vectors unchanged. For a degree other than 1 it returns the tag
    [none] and computes exactly what it computes for degree 1 and an incoming
    tag [none], whatever the incoming tag is. *)
Theorem fill_fe_values_cell_similarity
  (dim spacedim polynomial_degree : nat) (cell : Cell)
  (cell_similarity : Similarity) (weights : list Scalar)
  (data : InternalData SupportPoint Contra Cov Scalar)
  (output_data : OutputData QPoint Contra Scalar JacGrad PFGrad Jac2nd PF2nd
                   Jac3rd PF3rd Normal) :
  (polynomial_degree = 1 -> cell_similarity = translation ->
   forall s d o,
   fill dim spacedim polynomial_degree cell cell_similarity weights data output_data
     = (s, d, o) ->
   s = translation /\
   contravariant _ _ _ _ d = contravariant _ _ _ _ data /\
   covariant _ _ _ _ d = covariant _ _ _ _ data /\
   volume_elements _ _ _ _ d = volume_elements _ _ _ _ data /\
   jacobian_grads _ _ _ _ _ _ _ _ _ _ o = jacobian_grads _ _ _ _ _ _ _ _ _ _ output_data /\
   jacobian_pushed_forward_grads _ _ _ _ _ _ _ _ _ _ o
     = jacobian_pushed_forward_grads _ _ _ _ _ _ _ _ _ _ output_data /\
   jacobian_2nd_derivatives _ _ _ _ _ _ _ _ _ _ o
     = jacobian_2nd_derivatives _ _ _ _ _ _ _ _ _ _ output_data /\
   jacobian_pushed_forward_2nd_derivatives _ _ _ _ _ _ _ _ _ _ o
     = jacobian_pushed_forward_2nd_derivatives _ _ _ _ _ _ _ _ _ _ output_data /\
   jacobian_3rd_derivatives _ _ _ _ _ _ _ _ _ _ o
     = jacobian_3rd_derivatives _ _ _ _ _ _ _ _ _ _ output_data /\
   jacobian_pushed_forward_3rd_derivatives _ _ _ _ _ _ _ _ _ _ o
     = jacobian_pushed_forward_3rd_derivatives _ _ _ _ _ _ _ _ _ _ output_data /\
   jacobians _ _ _ _ _ _ _ _ _ _ o = jacobians _ _ _ _ _ _ _ _ _ _ output_data /\
   inverse_jacobians _ _ _ _ _ _ _ _ _ _ o
     = inverse_jacobians _ _ _ _ _ _ _ _ _ _ output_data /\
   JxW_values _ _ _ _ _ _ _ _ _ _ o = JxW_values _ _ _ _ _ _ _ _ _ _ output_data /\
   normal_vectors _ _ _ _ _ _ _ _ _ _ o
     = normal_vectors _ _ _ _ _ _ _ _ _ _ output_data) /\
  (polynomial_degree <> 1 ->
   fst (fst (fill dim spacedim polynomial_degree cell cell_similarity weights
               data output_data)) = none /\
   fill dim spacedim polynomial_degree cell cell_similarity weights data output_data
   = fill dim spacedim 1 cell none weights data output_data).
Proof.
  split.
  - intros -> -> s d o Hf.
    unfold fill_fe_values in Hf. cbn [Nat.eqb] in Hf.
    destruct ((1 <? dim) && _) eqn:Et.
    + destruct (maybe_update_q_points_Jacobians_and_grads_tensor _ _ _ _ _ _ _ _ _ _ _ _ _ _ _ _ _)
        as [[d1 qp1] jg1] eqn:Ef.
      unfold maybe_update_q_points_Jacobians_and_grads_tensor,
        update_covariant_and_volume in Ef.
      cbn [not_translation Similarity_eqb negb andb] in Ef.
      lazy beta iota zeta in Ef.
      try rewrite !if_same in Ef.
      lazy beta iota zeta in Hf.
      rewrite !maybe_update_higher_translation, update_JxW_and_normals_translation in Hf.
      cbn [not_translation Similarity_eqb negb] in Hf.
      try rewrite !if_same in Hf.
      injection Hf as <- <- <-.
      destruct (_ && _ && _ && _) in Ef;
        injection Ef as <- <- <-; destruct data; cbn; repeat split; reflexivity.
    + unfold maybe_update_Jacobians, maybe_update_jacobian_grads,
        update_covariant_and_volume in Hf.
      cbn [not_translation Similarity_eqb negb andb] in Hf.
      lazy beta iota zeta in Hf.
      try rewrite !if_same in Hf.
      lazy beta iota zeta in Hf.
      rewrite !maybe_update_higher_translation, update_JxW_and_normals_translation in Hf.
      cbn [not_translation Similarity_eqb negb] in Hf.
      try rewrite !if_same in Hf.
      injection Hf as <- <- <-. destruct data; cbn; repeat split; reflexivity.
  - intros Hd. apply Nat.eqb_neq in Hd.
    unfold fill_fe_values at 1 2. rewrite Hd. cbn [Nat.eqb].
    split; [|reflexivity].
    destruct (_ && _);
      [destruct (maybe_update_q_points_Jacobians_and_grads_tensor _ _ _ _ _ _ _ _ _ _ _ _ _ _ _ _ _)
         as [[? ?] ?]|];
      cbn beta iota zeta;
      destruct (update_JxW_and_normals _ _ _ _ _ _ _ _ _ _ _ _ _ _ _ _ _ _ _ _ _);
      reflexivity.
Qed.

End FillProofs.
End FillFEValuesProofs.

Module FillFEValuesExamples.
Import FillFEValues.

Definition all_flags : UpdateFlags :=
  Build_UpdateFlags true true true true true true true true true true true true
    true true.

(** A cell whose cached data and outputs hold recognisable values, with all
    update flags set, on the non-tensor-product path. *)
Definition data_ex : InternalData nat nat nat nat :=
  Build_InternalData nat nat nat nat all_flags false false 2 [] [7; 7] [8; 8] [9; 9].

Definition output_ex : OutputData nat nat nat nat nat nat nat nat nat nat :=
  Build_OutputData nat nat nat nat nat nat nat nat nat nat
    [1; 1] [2; 2] [3; 3] [4; 4] [5; 5] [6; 6] [7; 7] [8; 8] [9; 9] [10; 10] [11; 11].

Definition fill_ex :=
  fill_fe_values nat nat nat nat nat nat nat nat nat nat nat nat nat
    (fun c => [c; S c]) (fun _ p => 10 + p) (fun _ p => 100 + p)
    (fun _ p => 200 + p) (fun _ _ p => 300 + p) (fun _ p => 400 + p)
    (fun _ _ p => 500 + p) (fun _ p => 600 + p) (fun _ _ p => 700 + p)
    (fun _ p => 800 + p) (fun _ p => 900 + p) (fun _ p => 1000 + p)
    (fun _ p => 1100 + p) S (fun j => 2 * j) (fun c => c) (fun j => j) Nat.mul
    (fun _ j => j) (fun n => 5 + n) 0 0 0.

(** With degree 2 the tag [translation] is downgraded and the contravariant
    Jacobians are recomputed. *)
Lemma fill_fe_values_degree_two_recomputes :
  fst (fst (fill_ex 2 2 2 0 translation [1; 1] data_ex output_ex)) = none /\
  contravariant _ _ _ _ (snd (fst (fill_ex 2 2 2 0 translation [1; 1] data_ex output_ex)))
  = [100; 101].
Proof. vm_compute. split; reflexivity. Qed.

Lemma fill_fe_values_cell_similarity_witness :
  1 = 1 /\ translation = translation /\
  contravariant _ _ _ _ (snd (fst (fill_ex 2 2 1 0 translation [1; 1] data_ex output_ex)))
  = [7; 7].
Proof.
  destruct (FillFEValuesProofs.fill_fe_values_cell_similarity
              nat nat nat nat nat nat nat nat nat nat nat nat nat
              (fun c => [c; S c]) (fun _ p => 10 + p) (fun _ p => 100 + p)
              (fun _ p => 200 + p) (fun _ _ p => 300 + p) (fun _ p => 400 + p)
              (fun _ _ p => 500 + p) (fun _ p => 600 + p) (fun _ _ p => 700 + p)
              (fun _ p => 800 + p) (fun _ p => 900 + p) (fun _ p => 1000 + p)
              (fun _ p => 1100 + p) S (fun j => 2 * j) (fun c => c) (fun j => j)
              Nat.mul (fun _ j => j) (fun n => 5 + n) 0 0 0
              2 2 1 0 translation [1; 1] data_ex output_ex) as [H1 _].
  split; [reflexivity | split; [reflexivity |]].
  destruct (fill_ex 2 2 1 0 translation [1; 1] data_ex output_ex) as [[s d] o] eqn:E.
  destruct (H1 eq_refl eq_refl s d o E) as [_ [Hc _]].
  cbn [snd fst]. rewrite Hc. reflexivity.
Defined.

End FillFEValuesExamples.

Module ComputeDofInfoProofs.
Import ComputeDofInfo.

(** C6 (as amended): the incompatibility of a non-empty
    [cell_vectorization_category] with a task-parallel scheme is checked by a
    debug-mode [Assert] only. In a debug build, such a set-up call always
    fails with an assertion and runs none of the partitioning phases; when
    no earlier assertion fires (single-element FE collections, category
    indices in range) the failure is the [ExcMessage] of this check, raised
    after the loop over the cells that reads the DoF indices. In a release
    build the call raises nothing: it reads the cells and runs the
    task-parallel partitioning. *)
Theorem compute_dof_info_category_with_tasks
  (fe_collection_sizes : list nat) (on_mg_level : bool)
  (cell_indices : list nat) (scheme : TasksParallelScheme)
  (cell_vectorization_category : list nat) :
  (scheme <> none -> cell_vectorization_category <> [] ->
   exists trace e,
     compute_dof_info_categories true fe_collection_sizes on_mg_level
       cell_indices scheme cell_vectorization_category = (trace, Some e) /\
     ~ In Create_blocks_serial trace /\ ~ In Task_partitioning trace) /\
  (scheme <> none -> cell_vectorization_category <> [] ->
   (forall n, In n fe_collection_sizes -> n = 1) ->
   (forall i, In i cell_indices -> i < length cell_vectorization_category) ->
   compute_dof_info_categories true fe_collection_sizes on_mg_level
     cell_indices scheme cell_vectorization_category
   = ([Read_dof_indices], Some ExcMessage)) /\
  compute_dof_info_categories false fe_collection_sizes on_mg_level
    cell_indices scheme cell_vectorization_category
  = ([Read_dof_indices;
      if scheme_is_none scheme then Create_blocks_serial else Task_partitioning],
     None).
Proof.
  assert (Hen : forall l : list nat, l <> [] -> negb (length l =? 0) = true).
  { intros [|x l] H; [congruence | reflexivity]. }
  assert (Hsch : forall s, s <> none -> scheme_is_none s = false).
  { intros [] H; [congruence | reflexivity..]. }
  split; [|split].
  - intros Hs Hc. unfold compute_dof_info_categories.
    rewrite (Hen _ Hc), (Hsch _ Hs). cbn [andb orb negb].
    destruct (existsb _ fe_collection_sizes);
      [eexists; eexists; split; [reflexivity | cbn; tauto]|].
    destruct (existsb (fun n => on_mg_level || (n =? 1)) fe_collection_sizes && _);
      eexists; eexists; (split; [reflexivity|]);
      split; cbn; intros [H | []]; discriminate.
  - intros Hs Hc Hfe Hi. unfold compute_dof_info_categories.
    rewrite (Hen _ Hc), (Hsch _ Hs). cbn [andb orb negb].
    replace (existsb (fun n => 1 <? n) fe_collection_sizes) with false.
    2:{ symmetry. apply not_true_iff_false. intros Hex.
        apply existsb_exists in Hex as [n [Hn Hlt]].
        rewrite (Hfe n Hn) in Hlt. discriminate. }
    replace (existsb (fun i => length cell_vectorization_category <=? i)
               cell_indices) with false.
    2:{ symmetry. apply not_true_iff_false. intros Hex.
        apply existsb_exists in Hex as [i [Hin Hle]].
        apply Nat.leb_le in Hle. specialize (Hi i Hin). lia. }
    rewrite andb_false_r. reflexivity.
  - unfold compute_dof_info_categories. cbn [andb].
    destruct (scheme_is_none scheme); reflexivity.
Qed.

End ComputeDofInfoProofs.

Module ComputeDofInfoExamples.
Import ComputeDofInfo.

(** A release build with the [color] scheme and a category for the single
    cell: no error, the task-parallel partitioning runs. *)
Lemma release_category_with_color_scheme_no_error :
  compute_dof_info_categories false [1] false [0] color [0]
  = ([Read_dof_indices; Task_partitioning], None).
Proof. reflexivity. Qed.

Lemma compute_dof_info_category_with_tasks_witness :
  color <> none /\ [0] <> [] /\
  compute_dof_info_categories true [1] false [0] color [0]
  = ([Read_dof_indices], Some ExcMessage).
Proof.
  split; [discriminate | split; [discriminate |]].
  apply (ComputeDofInfoProofs.compute_dof_info_category_with_tasks
           [1] false [0] color [0]).
  - discriminate.
  - discriminate.
  - intros n [<- | []]; reflexivity.
  - intros i [<- | []]; cbn; lia.
Defined.

End ComputeDofInfoExamples.

Module MappingQGenericPublicProofs.
Import MappingQGenericPublic.

(** The inversion is only attempted for five of the six
    (dim, spacedim) pairs. For (1,3) with a mapping that is not a
    vertex-preserving degree-1 mapping, [transform_real_to_unit_cell] does
    not invert the map at all: a debug build aborts with
    [ExcNotImplemented], and a release build returns the reference point 0
    for every input point. For (1,3) with a vertex-preserving degree-1
    mapping it returns the affine approximation. For (1,1) with a
    vertex-preserving degree-1 mapping it returns the exact 1d formula
    (p - v0) / (v1 - v0). For dim = spacedim with any other mapping, it
    returns the Newton iterate started from the projected initial guess, or
    throws [ExcTransformationFailed] when the iteration reports failure. *)
Theorem transform_real_to_unit_cell_dispatch
  (debug : bool) (dim spacedim polynomial_degree : nat)
  (preserves_vertex_locations : bool) (v0 v1 : point)
  (q1_2d : point -> exc_result point)
  (affine project : point -> point)
  (newton : point -> point -> point)
  (codim1 : point -> point -> exc_result point) (p : point) :
  let T := transform_real_to_unit_cell debug dim spacedim polynomial_degree
             preserves_vertex_locations v0 v1 q1_2d affine project newton codim1 in
  (dim = 1%nat -> spacedim = 3%nat ->
   preserves_vertex_locations && Nat.eqb polynomial_degree 1 = false ->
   T p = if debug then Abort_ExcNotImplemented else Ret [0%float]) /\
  (dim = 1%nat -> spacedim = 3%nat ->
   preserves_vertex_locations = true -> polynomial_degree = 1%nat ->
   T p = Ret (affine p)) /\
  (dim = 1%nat -> spacedim = 1%nat ->
   preserves_vertex_locations = true -> polynomial_degree = 1%nat ->
   T p = Ret (q1_transform_real_to_unit_cell_1d v0 v1 p)) /\
  (dim = spacedim ->
   preserves_vertex_locations && Nat.eqb polynomial_degree 1 = false ->
   let u0 := project (if preserves_vertex_locations then affine p
                      else repeat 0.5%float dim) in
   T p = if PrimFloat.eqb (nth 0 (newton p u0) 0%float) infinity
         then Throw_ExcTransformationFailed else Ret (newton p u0)).
Proof.
  intros T. unfold T, transform_real_to_unit_cell, exact_formula,
    transform_real_to_unit_cell_internal.
  split; [|split; [|split]].
  - intros -> -> Hpd. rewrite Hpd. cbn [andb Nat.eqb orb].
    replace (preserves_vertex_locations && true && Nat.eqb polynomial_degree 1)
      with false.
    2:{ rewrite andb_true_r. symmetry. exact Hpd. }
    destruct debug; cbn; [reflexivity|].
    replace (PrimFloat.eqb 0 infinity) with false by reflexivity. reflexivity.
  - intros -> -> -> ->. reflexivity.
  - intros -> -> -> ->. reflexivity.
  - intros <- Hpd. rewrite Hpd. cbn [andb].
    replace (preserves_vertex_locations && Nat.eqb dim 1 && Nat.eqb polynomial_degree 1)
      with false.
    2:{ destruct preserves_vertex_locations, (Nat.eqb polynomial_degree 1);
        cbn in Hpd |- *; try discriminate; rewrite ?andb_false_r; reflexivity. }
    rewrite Nat.eqb_refl. reflexivity.
Qed.

End MappingQGenericPublicProofs.

Module MappingQGenericPublicExamples.
Import MappingQGenericPublic.

(** The point xi = 1/2 of a straight degree-2 segment in 3d is mapped to
    (1/2, 0, 0); mapping it back gives 0 in a release build (an error of 1/2,
    not below 1e-10) and aborts with [ExcNotImplemented] in a debug build. *)
Lemma q2_segment_in_3d_not_inverted :
  q2_segment_unit_to_real 0.5 = [0.5; 0; 0]%float /\
  segment_1_3_transform false (q2_segment_unit_to_real 0.5) = Ret [0]%float /\
  segment_1_3_transform true (q2_segment_unit_to_real 0.5) = Abort_ExcNotImplemented.
Proof. vm_compute. repeat split; reflexivity. Qed.

Lemma transform_real_to_unit_cell_dispatch_witness :
  (1 = 1 /\ 3 = 3 /\ (true && Nat.eqb 2 1) = false)%nat /\
  segment_1_3_transform false [0.5; 0; 0]%float = Ret [0]%float.
Proof.
  split; [split; [reflexivity | split; reflexivity] |].
  destruct (MappingQGenericPublicProofs.transform_real_to_unit_cell_dispatch
              false 1 3 2 true [0]%float [1]%float
              (fun _ => Throw_ExcTransformationFailed) (fun q => [nth 0 q 0%float])
              clamp_unit (fun _ u => u) (fun _ u => Ret u) [0.5; 0; 0]%float)
    as [H _].
  exact (H eq_refl eq_refl eq_refl).
Defined.

End MappingQGenericPublicExamples.

(* ------------------------------------------------------------------ *)
Module MappingQGenericDataProofs.
Import MappingQGenericData.

(** Equalities of boolean formulas over flag bits: case analysis on the
    first undecided bit of a disjunction or conjunction. *)
Ltac bool_atom a :=
  lazymatch a with
  | orb _ _ => fail | andb _ _ => fail | negb _ => fail
  | true => fail | false => fail | _ => idtac
  end.

Ltac bool_cases :=
  repeat (cbn [orb andb negb];
    match goal with
    | |- ?l = ?l => reflexivity
    | |- context [orb ?a _] => bool_atom a; destruct a
    | |- context [andb ?a _] => bool_atom a; destruct a
    | |- context [orb _ ?a] => bool_atom a; destruct a
    | |- context [andb _ ?a] => bool_atom a; destruct a
    | |- context [negb ?a] => bool_atom a; destruct a
    end).

(** Pointwise equality of flag masks. *)
Definition same_flags (a b : UpdateFlags) : Prop := forall f, a f = b f.

Lemma any_of_same a b fs : same_flags a b -> any_of a fs = any_of b fs.
Proof.
  intros H. unfold any_of. induction fs as [|f fs IH]; simpl; [reflexivity|].
  rewrite H, IH. reflexivity.
Qed.

Lemma or_flag_if_same c c' a b g :
  c = c' -> same_flags a b -> same_flags (or_flag_if c a g) (or_flag_if c' b g).
Proof. intros -> H f. unfold or_flag_if. rewrite H. reflexivity. Qed.

Lemma requires_update_flags_step_same a b :
  same_flags a b ->
  same_flags (requires_update_flags_step a) (requires_update_flags_step b).
Proof.
  intros H. unfold requires_update_flags_step.
  repeat (apply or_flag_if_same; [apply any_of_same|]);
  repeat (apply or_flag_if_same || apply any_of_same); assumption.
Qed.

Lemma iterate_steps_same n a b :
  same_flags a b -> same_flags (iterate_steps n a) (iterate_steps n b).
Proof.
  revert a b. induction n as [|n IH]; intros a b H; simpl; [exact H|].
  apply IH, requires_update_flags_step_same, H.
Qed.

(** The flags that the loop adds, as a closed formula of the input. *)
Definition closure (i : UpdateFlags) : UpdateFlags :=
  fun f =>
    match f with
    | update_boundary_forms =>
        i update_boundary_forms || i update_JxW_values || i update_normal_vectors
    | update_covariant_transformation =>
        i update_covariant_transformation || i update_inverse_jacobians ||
        i update_jacobian_pushed_forward_grads ||
        i update_jacobian_pushed_forward_2nd_derivatives ||
        i update_jacobian_pushed_forward_3rd_derivatives
    | update_contravariant_transformation =>
        i update_contravariant_transformation ||
        i update_covariant_transformation || i update_inverse_jacobians ||
        i update_jacobian_pushed_forward_grads ||
        i update_jacobian_pushed_forward_2nd_derivatives ||
        i update_jacobian_pushed_forward_3rd_derivatives ||
        i update_JxW_values || i update_jacobians || i update_jacobian_grads ||
        i update_boundary_forms || i update_normal_vectors
    | update_volume_elements =>
        i update_volume_elements ||
        i update_contravariant_transformation ||
        i update_covariant_transformation || i update_inverse_jacobians ||
        i update_jacobian_pushed_forward_grads ||
        i update_jacobian_pushed_forward_2nd_derivatives ||
        i update_jacobian_pushed_forward_3rd_derivatives ||
        i update_JxW_values || i update_jacobians || i update_jacobian_grads ||
        i update_boundary_forms || i update_normal_vectors
    | f => i f
    end.

Ltac unfold_step :=
  cbv beta iota delta [requires_update_flags_step or_flag_if any_of existsb
                       flag_eqb UpdateFlag_eq_dec UpdateFlag_rec UpdateFlag_rect
                       closure sumbool_rec sumbool_rect] zeta.

Lemma step_closure i : same_flags (requires_update_flags_step (closure i)) (closure i).
Proof. intros f; destruct f; unfold_step; bool_cases. Qed.

Lemma two_steps_closure i :
  same_flags (requires_update_flags_step (requires_update_flags_step i)) (closure i).
Proof. intros f; destruct f; unfold_step; bool_cases. Qed.

Lemma iterate_closure n i : same_flags (iterate_steps n (closure i)) (closure i).
Proof.
  induction n as [|n IH]; simpl; intros f; [reflexivity|].
  rewrite (iterate_steps_same n _ _ (step_closure i)). apply IH.
Qed.

Lemma requires_update_flags_closure i f : requires_update_flags i f = closure i f.
Proof.
  unfold requires_update_flags. change 5 with (3 + 2).
  change (iterate_steps (3 + 2) i) with
    (iterate_steps 3 (requires_update_flags_step (requires_update_flags_step i))).
  rewrite (iterate_steps_same 3 _ _ (two_steps_closure i)).
  apply iterate_closure.
Qed.

Lemma closure_same a b : same_flags a b -> same_flags (closure a) (closure b).
Proof. intros H f; destruct f; cbn [closure]; rewrite ?H; reflexivity. Qed.

Lemma closure_idem i : same_flags (closure (closure i)) (closure i).
Proof. intros f; destruct f; cbv beta iota delta [closure]; bool_cases. Qed.

(** [X1] [requires_update_flags] only ever adds the four flags
    [update_boundary_forms], [update_covariant_transformation],
    [update_contravariant_transformation] and [update_volume_elements]:
    boundary forms exactly when JxW values or normal vectors are asked
    for, the covariant transformation when the inverse Jacobians or a
    pushed-forward derivative is asked for, the contravariant
    transformation when any of those or the covariant transformation, JxW
    values, Jacobians, Jacobian gradients, boundary forms or normal
    vectors are, and the volume elements whenever the contravariant
    transformation ends up set. Every other flag is returned as given. *)
Theorem requires_update_flags_result (in_flags : UpdateFlags) :
  let out := requires_update_flags in_flags in
  out update_boundary_forms =
    any_of in_flags [update_boundary_forms; update_JxW_values; update_normal_vectors] /\
  out update_covariant_transformation =
    any_of in_flags [update_covariant_transformation; update_inverse_jacobians;
                     update_jacobian_pushed_forward_grads;
                     update_jacobian_pushed_forward_2nd_derivatives;
                     update_jacobian_pushed_forward_3rd_derivatives] /\
  out update_contravariant_transformation =
    any_of in_flags [update_contravariant_transformation;
                     update_covariant_transformation; update_inverse_jacobians;
                     update_jacobian_pushed_forward_grads;
                     update_jacobian_pushed_forward_2nd_derivatives;
                     update_jacobian_pushed_forward_3rd_derivatives;
                     update_JxW_values; update_jacobians; update_jacobian_grads;
                     update_boundary_forms; update_normal_vectors] /\
  out update_volume_elements =
    (in_flags update_volume_elements || out update_contravariant_transformation) /\
  (forall f, f <> update_boundary_forms -> f <> update_covariant_transformation ->
             f <> update_contravariant_transformation -> f <> update_volume_elements ->
             out f = in_flags f).
Proof.
  cbv zeta. rewrite !requires_update_flags_closure.
  split; [cbn; bool_cases|]. split; [cbn; bool_cases|]. split; [cbn; bool_cases|].
  split; [cbn; bool_cases|].
  intros f H1 H2 H3 H4. rewrite requires_update_flags_closure.
  destruct f; try reflexivity; congruence.
Qed.

(** [X2] [requires_update_flags] is idempotent: the flags it returns
    already satisfy all five of its rules, so applying it again returns
    the same flags. *)
Theorem requires_update_flags_idempotent (in_flags : UpdateFlags) (f : UpdateFlag) :
  requires_update_flags (requires_update_flags in_flags) f =
  requires_update_flags in_flags f.
Proof.
  rewrite requires_update_flags_closure,
    (closure_same _ _ (requires_update_flags_closure in_flags)), closure_idem,
    requires_update_flags_closure.
  reflexivity.
Qed.

(** [X3] The five passes of the loop of [requires_update_flags] are more
    than it needs: the flags reach their final value after two passes. *)
Theorem requires_update_flags_two_passes (in_flags : UpdateFlags) (f : UpdateFlag) :
  iterate_steps 2 in_flags f = requires_update_flags in_flags f.
Proof.
  rewrite requires_update_flags_closure. apply two_steps_closure.
Qed.

Lemma get_data_sizes dim deg fl q :
  covariant (get_data dim deg fl q) =
    (if requires_update_flags fl update_covariant_transformation then q_size q else 0) /\
  contravariant (get_data dim deg fl q) =
    (if requires_update_flags fl update_contravariant_transformation then q_size q else 0) /\
  volume_elements (get_data dim deg fl q) =
    (if requires_update_flags fl update_volume_elements then q_size q else 0) /\
  update_each (get_data dim deg fl q) = requires_update_flags fl.
Proof.
  unfold get_data, initialize, resize_if.
  cbn [new_internal_data polynomial_degree shape_info_n_q_points].
  destruct (Nat.ltb 1 dim), (Nat.ltb deg 2 || Nat.eqb (q_size q) 1),
    (q_is_tensor_product q), (tensor_basis_agrees (q_tensor_basis q));
    repeat split; reflexivity.
Qed.

(** [X4] [get_data] sizes the [covariant] array to [q.size()] exactly when
    the covariant transformation, the inverse Jacobians or a pushed-forward
    derivative is requested; [contravariant] when any of those or the
    contravariant transformation, JxW values, Jacobians, Jacobian gradients,
    boundary forms or normal vectors is requested; [volume_elements] when
    that holds or the volume elements are requested. Otherwise the arrays
    stay empty. *)
Theorem get_data_transformation_sizes (dim degree : nat) (fl : UpdateFlags)
  (q : Quadrature) :
  let data := get_data dim degree fl q in
  let n := q_size q in
  let cov_flags := [update_covariant_transformation; update_inverse_jacobians;
                    update_jacobian_pushed_forward_grads;
                    update_jacobian_pushed_forward_2nd_derivatives;
                    update_jacobian_pushed_forward_3rd_derivatives] in
  let contra_flags := cov_flags ++
                   [update_contravariant_transformation; update_JxW_values;
                    update_jacobians; update_jacobian_grads;
                    update_boundary_forms; update_normal_vectors] in
  covariant data = (if any_of fl cov_flags then n else 0) /\
  contravariant data = (if any_of fl contra_flags then n else 0) /\
  volume_elements data =
    (if any_of fl (update_volume_elements :: contra_flags) then n else 0).
Proof.
  cbv zeta. destruct (get_data_sizes dim degree fl q) as (H1 & H2 & H3 & _).
  rewrite H1, H2, H3, !requires_update_flags_closure.
  cbn [any_of existsb app closure].
  repeat split;
    match goal with
    | |- (if ?a then _ else _) = (if ?b then _ else _) =>
        replace a with b by bool_cases; reflexivity
    end.
Qed.


Lemma any_of_requires fl fs :
  any_of (requires_update_flags fl) fs = any_of (closure fl) fs.
Proof. apply any_of_same. intros f. apply requires_update_flags_closure. Qed.

(** [X5] [get_data] takes the tensor-product path exactly when the
    quadrature is a tensor product, the degree is at least 2, the
    quadrature has other than one point and (for [dim > 1]) its
    one-dimensional formulas agree; only then, for [dim > 1], is
    [shape_info] set up for [q.size()] points. The shape-function values
    (for quadrature points) and derivatives (for any flag that needs the
    Jacobian) get [(degree+1)^dim * q.size()] entries only off that path,
    in 1D, or when a higher derivative is requested; otherwise they stay
    empty. *)
Theorem get_data_tensor_path (dim degree : nat) (fl : UpdateFlags) (q : Quadrature) :
  let data := get_data dim degree fl q in
  let higher := [update_jacobian_pushed_forward_grads; update_jacobian_2nd_derivatives;
                 update_jacobian_pushed_forward_2nd_derivatives;
                 update_jacobian_3rd_derivatives;
                 update_jacobian_pushed_forward_3rd_derivatives] in
  let big := Nat.eqb dim 1 || negb (tensor_product_quadrature data) ||
             any_of fl higher in
  let n := Nat.pow (degree + 1) dim * q_size q in
  tensor_product_quadrature data =
    (q_is_tensor_product q && Nat.leb 2 degree && negb (Nat.eqb (q_size q) 1) &&
     (Nat.leb dim 1 || tensor_basis_agrees (q_tensor_basis q))) /\
  shape_info_n_q_points data =
    (if Nat.ltb 1 dim && tensor_product_quadrature data then Some (q_size q) else None) /\
  shape_values data =
    (if big && fl update_quadrature_points then n else 0) /\
  shape_derivatives data =
    (if big && any_of fl
        (higher ++ [update_covariant_transformation; update_contravariant_transformation;
                    update_JxW_values; update_boundary_forms; update_normal_vectors;
                    update_jacobians; update_jacobian_grads; update_inverse_jacobians])
     then n else 0).
Proof.
  cbv zeta.
  assert (Hh : forall fs, any_of (requires_update_flags fl) fs = any_of (closure fl) fs)
    by apply any_of_requires.
  unfold get_data, initialize, resize_if.
  cbn [new_internal_data polynomial_degree shape_info_n_q_points n_shape_functions
       tensor_product_quadrature shape_values shape_derivatives].
  rewrite !Hh, requires_update_flags_closure.
  cbn [any_of existsb closure app].
  assert (Hlt : Nat.ltb degree 2 = negb (Nat.leb 2 degree)).
  { destruct (Nat.ltb degree 2) eqn:E1, (Nat.leb 2 degree) eqn:E2; try reflexivity;
      apply Nat.ltb_lt in E1 || apply Nat.ltb_ge in E1;
      apply Nat.leb_le in E2 || apply Nat.leb_gt in E2; lia. }
  assert (Hd : Nat.leb dim 1 = negb (Nat.ltb 1 dim)).
  { destruct (Nat.leb dim 1) eqn:E1, (Nat.ltb 1 dim) eqn:E2; try reflexivity;
      apply Nat.leb_le in E1 || apply Nat.leb_gt in E1;
      apply Nat.ltb_lt in E2 || apply Nat.ltb_ge in E2; lia. }
  rewrite Hlt, Hd.
  destruct (Nat.ltb 1 dim) eqn:Edim, (Nat.leb 2 degree), (Nat.eqb (q_size q) 1),
    (q_is_tensor_product q), (tensor_basis_agrees (q_tensor_basis q));
    cbn [negb orb andb tensor_product_quadrature shape_info_n_q_points
         shape_values shape_derivatives new_internal_data];
    repeat split;
    repeat match goal with
    | |- (if ?a then ?x else ?y) = (if ?b then ?x else ?y) =>
        replace a with b by bool_cases; reflexivity
    end.
Qed.

(** [X6] For [dim] 2 or 3, [get_face_data] sizes the per-point arrays to
    the size of the face quadrature, not to that of the projected
    quadrature: [contravariant] gets [n_face_q_points] entries exactly when
    a flag that needs the Jacobian is requested, and when boundary forms,
    normal vectors, Jacobians, JxW values or inverse Jacobians are requested
    [aux] gets [dim - 1] vectors and every one of the
    [2 * dim * (dim - 1)] [unit_tangentials] vectors gets
    [n_face_q_points] entries; otherwise both stay empty. *)
Theorem get_face_data_sizes (dim degree : nat) (fl : UpdateFlags)
  (projected : Quadrature) (n_face_q_points : nat) (Hdim : 2 <= dim <= 3) :
  let data := get_face_data dim degree fl projected n_face_q_points in
  let tangential := any_of fl [update_boundary_forms; update_normal_vectors;
                               update_jacobians; update_JxW_values;
                               update_inverse_jacobians] in
  contravariant data =
    (if any_of fl [update_contravariant_transformation;
                   update_covariant_transformation; update_inverse_jacobians;
                   update_jacobian_pushed_forward_grads;
                   update_jacobian_pushed_forward_2nd_derivatives;
                   update_jacobian_pushed_forward_3rd_derivatives;
                   update_JxW_values; update_jacobians; update_jacobian_grads;
                   update_boundary_forms; update_normal_vectors]
     then n_face_q_points else 0) /\
  aux data = (if tangential then repeat n_face_q_points (dim - 1) else []) /\
  unit_tangentials data =
    repeat (if tangential then n_face_q_points else 0) (2 * dim * (dim - 1)).
Proof.
  cbv zeta.
  assert (Hc : any_of fl [update_contravariant_transformation;
                   update_covariant_transformation; update_inverse_jacobians;
                   update_jacobian_pushed_forward_grads;
                   update_jacobian_pushed_forward_2nd_derivatives;
                   update_jacobian_pushed_forward_3rd_derivatives;
                   update_JxW_values; update_jacobians; update_jacobian_grads;
                   update_boundary_forms; update_normal_vectors] =
               requires_update_flags fl update_contravariant_transformation).
  { rewrite requires_update_flags_closure. cbn [any_of existsb closure]. bool_cases. }
  assert (Ht : forall fs, any_of (requires_update_flags fl) fs = any_of (closure fl) fs)
    by apply any_of_requires.
  assert (Ht' : any_of (closure fl) [update_boundary_forms; update_normal_vectors;
                   update_jacobians; update_JxW_values; update_inverse_jacobians] =
                any_of fl [update_boundary_forms; update_normal_vectors;
                   update_jacobians; update_JxW_values; update_inverse_jacobians]).
  { cbn [any_of existsb closure]. bool_cases. }
  rewrite Hc.
  assert (E : dim = 2 \/ dim = 3) by lia.
  unfold get_face_data, initialize_face.
  set (d := initialize dim (new_internal_data dim degree) (requires_update_flags fl)
              projected n_face_q_points).
  assert (Hd : update_each d = requires_update_flags fl /\
               contravariant d =
                 (if requires_update_flags fl update_contravariant_transformation
                  then n_face_q_points else 0) /\
               aux d = [] /\ unit_tangentials d = repeat 0 (2 * dim * (dim - 1))).
  { subst d. unfold initialize, resize_if.
    cbn [new_internal_data polynomial_degree shape_info_n_q_points].
    destruct (Nat.ltb 1 dim), (Nat.ltb degree 2 || Nat.eqb (q_size projected) 1),
      (q_is_tensor_product projected), (tensor_basis_agrees (q_tensor_basis projected));
      repeat split; reflexivity. }
  destruct Hd as (H1 & H2 & H3 & H4).
  cbn [update_each contravariant aux unit_tangentials].
  rewrite H1, H2, H3, H4, Ht, Ht'.
  split; [reflexivity|].
  destruct E as [-> | ->];
    match goal with |- context [(_ <? _) && ?t] => destruct t end;
    split; reflexivity.
Qed.

Lemma array_size_get_data dim deg fl q a :
  array_size (get_data dim deg fl q) a =
    if requires_update_flags fl
         match a with
         | a_covariant => update_covariant_transformation
         | a_contravariant => update_contravariant_transformation
         | a_volume_elements => update_volume_elements
         end
    then q_size q else 0.
Proof.
  destruct (get_data_sizes dim deg fl q) as (H1 & H2 & H3 & _).
  destruct a; cbn [array_size]; assumption.
Qed.

(** [X7] Apart from the three cases of [X8], a [transform] call in a debug
    build on data made by [get_data] either stops at one of its assertions
    or reads only arrays that [get_data] sized for all its output points:
    whenever its checks pass, the output has at most [q.size()] entries and
    the call reads array [a] at [n] indices, [a] has at least [n]
    entries. *)
Theorem transform_reads_within_get_data (input : TransformInput) (kind : MappingKind)
  (dim degree : nat) (fl : UpdateFlags) (q : Quadrature)
  (n_input n_output : nat) (arrays : list InternalArray) (n : nat)
  (Hfields : ~ ((input = Tensor_1 \/ input = DerivativeForm_1) /\ kind = mapping_covariant))
  (Hform2 : ~ (input = DerivativeForm_2 /\ kind = mapping_covariant_gradient))
  (Hout : n_output <= q_size q)
  (Hreads : transform true input kind (QGeneric_data (get_data dim degree fl q)) n_input n_output =
            Reads arrays n) :
  forall a, In a arrays -> n <= array_size (get_data dim degree fl q) a.
Proof.
  intros a Ha. rewrite array_size_get_data.
  destruct (get_data_sizes dim degree fl q) as (_ & _ & _ & Hu).
  unfold transform, transform_fields, transform_gradients, transform_hessians,
    transform_differential_forms, with_internal_data, assert_that in Hreads.
  rewrite Hu in Hreads.
  destruct (requires_update_flags fl update_covariant_transformation) eqn:Ec,
    (requires_update_flags fl update_contravariant_transformation) eqn:Ecn,
    (requires_update_flags fl update_volume_elements) eqn:Ev,
    (Nat.eqb n_input n_output);
    destruct input, kind; cbn in Hreads;
    try (exfalso; apply Hfields; auto; fail);
    try (exfalso; apply Hform2; auto; fail);
    try discriminate Hreads;
    injection Hreads as <- <-;
    repeat (destruct Ha as [<- | Ha]; [rewrite ?Ec, ?Ecn, ?Ev; lia|]);
    destruct Ha.
Qed.

(** [X8] The covariant transformations of the [Tensor<1>] and
    [DerivativeForm<1>] overloads and the [mapping_covariant_gradient] of
    the [DerivativeForm<2>] overload check the contravariant flag, although
    they read [data.covariant]. So if the flags given to [get_data]
    include one that implies the contravariant transformation (such as JxW
    values or normal vectors) but none that implies the covariant one, the
    debug checks pass and the call reads [data.covariant] at every output
    index, while [get_data] left [covariant] empty. *)
Theorem transform_covariant_checks_contravariant_flag (input : TransformInput)
  (kind : MappingKind) (dim degree : nat) (fl : UpdateFlags) (q : Quadrature) (n : nat)
  (Hcase : ((input = Tensor_1 \/ input = DerivativeForm_1) /\ kind = mapping_covariant) \/
           (input = DerivativeForm_2 /\ kind = mapping_covariant_gradient))
  (Hcontra : any_of fl [update_contravariant_transformation; update_JxW_values;
                        update_jacobians; update_jacobian_grads;
                        update_boundary_forms; update_normal_vectors] = true)
  (Hcov : any_of fl [update_covariant_transformation; update_inverse_jacobians;
                     update_jacobian_pushed_forward_grads;
                     update_jacobian_pushed_forward_2nd_derivatives;
                     update_jacobian_pushed_forward_3rd_derivatives] = false) :
  transform true input kind (QGeneric_data (get_data dim degree fl q)) n n = Reads [a_covariant] n /\
  covariant (get_data dim degree fl q) = 0 /\
  contravariant (get_data dim degree fl q) = q_size q.
Proof.
  destruct (get_data_sizes dim degree fl q) as (H1 & H2 & _ & Hu).
  assert (Ecn : requires_update_flags fl update_contravariant_transformation = true).
  { rewrite requires_update_flags_closure. cbn [closure].
    cbn [any_of existsb] in Hcontra. clear Hcov H1 H2 Hu.
    revert Hcontra.
    destruct (fl update_contravariant_transformation), (fl update_JxW_values),
      (fl update_jacobians), (fl update_jacobian_grads),
      (fl update_boundary_forms), (fl update_normal_vectors);
      cbn [orb]; intros Hc; rewrite ?orb_true_r; try reflexivity; discriminate. }
  assert (Ec : requires_update_flags fl update_covariant_transformation = false).
  { rewrite requires_update_flags_closure. cbn [closure].
    cbn [any_of existsb] in Hcov. rewrite orb_false_r in Hcov.
    rewrite <- orb_assoc, <- orb_assoc, <- orb_assoc. exact Hcov. }
  rewrite H1, H2, Ec, Ecn. split; [|split; reflexivity].
  unfold transform, transform_fields, transform_differential_forms, with_internal_data,
    assert_that.
  rewrite Hu, Ecn, Nat.eqb_refl.
  destruct Hcase as [[[-> | ->] ->] | [-> ->]]; reflexivity.
Qed.

End MappingQGenericDataProofs.

Module MappingQGenericDataExamples.
Import MappingQGenericData MappingQGenericDataProofs.

(** A quadrature of four points that is not a tensor product. *)
Definition q_four : Quadrature :=
  {| q_size := 4; q_is_tensor_product := false; q_tensor_basis := [] |}.

Lemma get_face_data_sizes_witness :
  (2 <= 2 <= 3) /\
  unit_tangentials (get_face_data 2 2 (mask_of [update_JxW_values]) q_four 3) =
    [3; 3; 3; 3] /\
  aux (get_face_data 2 2 (mask_of [update_JxW_values]) q_four 3) = [3].
Proof.
  split; [lia|].
  destruct (get_face_data_sizes 2 2 (mask_of [update_JxW_values]) q_four 3
              ltac:(lia)) as (_ & Ha & Hu).
  rewrite Hu, Ha. split; reflexivity.
Defined.

Lemma transform_reads_within_get_data_witness :
  ~ ((Tensor_2 = Tensor_1 \/ Tensor_2 = DerivativeForm_1) /\
     mapping_piola_gradient = mapping_covariant) /\
  ~ (Tensor_2 = DerivativeForm_2 /\ mapping_piola_gradient = mapping_covariant_gradient) /\
  4 <= q_size q_four /\
  transform true Tensor_2 mapping_piola_gradient
    (QGeneric_data
       (get_data 2 1 (mask_of [update_covariant_transformation; update_volume_elements]) q_four))
    4 4 = Reads [a_covariant; a_contravariant; a_volume_elements] 4 /\
  4 <= array_size
         (get_data 2 1 (mask_of [update_covariant_transformation; update_volume_elements])
            q_four) a_contravariant.
Proof.
  assert (H1 : ~ ((Tensor_2 = Tensor_1 \/ Tensor_2 = DerivativeForm_1) /\
                  mapping_piola_gradient = mapping_covariant))
    by (intros [[H | H] _]; discriminate).
  assert (H2 : ~ (Tensor_2 = DerivativeForm_2 /\
                  mapping_piola_gradient = mapping_covariant_gradient))
    by (intros [H _]; discriminate).
  assert (H3 : 4 <= q_size q_four) by (cbn; lia).
  assert (H4 : transform true Tensor_2 mapping_piola_gradient
    (QGeneric_data
       (get_data 2 1 (mask_of [update_covariant_transformation; update_volume_elements]) q_four))
    4 4 = Reads [a_covariant; a_contravariant; a_volume_elements] 4)
    by (vm_compute; reflexivity).
  refine (conj H1 (conj H2 (conj H3 (conj H4 _)))).
  apply (transform_reads_within_get_data Tensor_2 mapping_piola_gradient 2 1
           (mask_of [update_covariant_transformation; update_volume_elements]) q_four
           4 4 _ 4 H1 H2 H3 H4).
  cbn; auto.
Defined.

Lemma transform_covariant_checks_contravariant_flag_witness :
  (((Tensor_1 = Tensor_1 \/ Tensor_1 = DerivativeForm_1) /\
    mapping_covariant = mapping_covariant) \/
   (Tensor_1 = DerivativeForm_2 /\ mapping_covariant = mapping_covariant_gradient)) /\
  transform true Tensor_1 mapping_covariant
    (QGeneric_data (get_data 2 2 (mask_of [update_JxW_values]) q_four)) 4 4 = Reads [a_covariant] 4 /\
  covariant (get_data 2 2 (mask_of [update_JxW_values]) q_four) = 0.
Proof.
  assert (Hc : ((Tensor_1 = Tensor_1 \/ Tensor_1 = DerivativeForm_1) /\
                mapping_covariant = mapping_covariant) \/
               (Tensor_1 = DerivativeForm_2 /\
                mapping_covariant = mapping_covariant_gradient))
    by (left; split; [left|]; reflexivity).
  destruct (transform_covariant_checks_contravariant_flag Tensor_1 mapping_covariant
              2 2 (mask_of [update_JxW_values]) q_four 4 Hc
              ltac:(vm_compute; reflexivity) ltac:(vm_compute; reflexivity))
    as (H1 & H2 & _).
  exact (conj Hc (conj H1 H2)).
Defined.

End MappingQGenericDataExamples.

(* ------------------------------------------------------------------ *)
Module CellSubrangeHpProofs.
Import CellSubrangeHp.

Section LowerBound.
Variable v : list nat.

(** [v] is sorted on [[lo, hi)]. *)
Definition sorted_on (lo hi : nat) : Prop :=
  forall i j, lo <= i -> i <= j -> j < hi -> nth i v 0 <= nth j v 0.

Lemma sorted_on_adjacent lo hi :
  (forall i, lo < i < hi -> nth (i - 1) v 0 <= nth i v 0) -> sorted_on lo hi.
Proof.
  intros H i j Hi Hij Hj.
  induction j as [|j IH].
  - assert (i = 0) by lia. subst. lia.
  - destruct (Nat.eq_dec i (S j)) as [->|Hne]; [lia|].
    specialize (H (S j) ltac:(lia)). replace (S j - 1) with j in H by lia.
    specialize (IH ltac:(lia) ltac:(lia)). lia.
Qed.

Lemma lower_bound_loop_spec fuel first count value :
  count <= fuel -> first + count <= length v -> sorted_on first (first + count) ->
  exists r, lower_bound_loop fuel v first count value = Some r /\
    first <= r <= first + count /\
    (forall i, first <= i < r -> nth i v 0 < value) /\
    (forall i, r <= i < first + count -> value <= nth i v 0).
Proof.
  revert first count. induction fuel as [|fuel IH]; intros first count Hf Hlen Hs.
  - exists first. assert (count = 0) by lia. subst count. cbn.
    repeat split; try lia; intros i Hi; lia.
  - cbn [lower_bound_loop].
    destruct (Nat.ltb 0 count) eqn:Ec.
    2: { apply Nat.ltb_ge in Ec. exists first. repeat split; try lia; intros i Hi; lia. }
    apply Nat.ltb_lt in Ec.
    assert (Hstep : count / 2 < count) by (apply Nat.div_lt; lia).
    assert (Hit : first + count / 2 < length v) by lia.
    destruct (nth_error v (first + count / 2)) as [x|] eqn:Ex.
    2: { apply nth_error_None in Ex. lia. }
    assert (Hx : nth (first + count / 2) v 0 = x)
      by (apply nth_error_nth; exact Ex).
    destruct (Nat.ltb x value) eqn:Ev.
    + apply Nat.ltb_lt in Ev.
      destruct (IH (first + count / 2 + 1) (count - (count / 2 + 1)))
        as [r [Hr [Hb [Hlo Hhi]]]]; try lia.
      { intros i j Hi Hij Hj. apply Hs; lia. }
      exists r. split; [exact Hr|]. split; [lia|]. split.
      * intros i Hi. destruct (Nat.lt_ge_cases i (first + count / 2 + 1)).
        -- assert (nth i v 0 <= x) by (rewrite <- Hx; apply Hs; lia). lia.
        -- apply Hlo. lia.
      * intros i Hi. apply Hhi. lia.
    + apply Nat.ltb_ge in Ev.
      destruct (IH first (count / 2)) as [r [Hr [Hb [Hlo Hhi]]]]; try lia.
      { intros i j Hi Hij Hj. apply Hs; lia. }
      exists r. split; [exact Hr|]. split; [lia|]. split.
      * exact Hlo.
      * intros i Hi. destruct (Nat.lt_ge_cases i (first + count / 2)).
        -- apply Hhi. lia.
        -- assert (x <= nth i v 0) by (rewrite <- Hx; apply Hs; lia). lia.
Qed.

Lemma lower_bound_spec first last value :
  first <= last -> last <= length v -> sorted_on first last ->
  exists r, lower_bound v first last value = Some r /\
    first <= r <= last /\
    (forall i, first <= i < r -> nth i v 0 < value) /\
    (forall i, r <= i < last -> value <= nth i v 0).
Proof.
  intros H1 H2 H3. unfold lower_bound.
  destruct (lower_bound_loop_spec (last - first) first (last - first) value)
    as [r [Hr [Hb [Hlo Hhi]]]]; try lia.
  { replace (first + (last - first)) with last by lia. exact H3. }
  exists r. split; [exact Hr|]. split; [lia|]. split; [exact Hlo|].
  intros i Hi. apply Hhi. lia.
Qed.

Lemma first_unsorted_none i n :
  0 < i -> n = 0 \/ i + n <= length v ->
  (forall k, i <= k < i + n -> nth (k - 1) v 0 <= nth k v 0) ->
  first_unsorted v i n = None.
Proof.
  revert i. induction n as [|n IH]; intros i Hi Hlen Hs; cbn; [reflexivity|].
  destruct Hlen as [Hlen | Hlen]; [discriminate|].
  destruct (nth_error v i) as [a|] eqn:Ea.
  2: { apply nth_error_None in Ea. lia. }
  destruct (nth_error v (i - 1)) as [b|] eqn:Eb.
  2: { apply nth_error_None in Eb. lia. }
  apply nth_error_nth with (d := 0) in Ea, Eb.
  pose proof (Hs i ltac:(lia)) as Hab. rewrite Ea, Eb in Hab.
  apply Nat.leb_le in Hab. rewrite Hab.
  apply IH; try lia. intros k Hk. apply Hs. lia.
Qed.

Lemma first_unsorted_some i n :
  0 < i -> i + n <= length v ->
  (exists k, i <= k < i + n /\ nth k v 0 < nth (k - 1) v 0) ->
  first_unsorted v i n = Some ExcMessage_unsorted_range.
Proof.
  revert i. induction n as [|n IH]; intros i Hi Hlen [k [Hk Hlt]]; [lia|].
  cbn.
  destruct (nth_error v i) as [a|] eqn:Ea.
  2: { apply nth_error_None in Ea. lia. }
  destruct (nth_error v (i - 1)) as [b|] eqn:Eb.
  2: { apply nth_error_None in Eb. lia. }
  apply nth_error_nth with (d := 0) in Ea, Eb.
  destruct (Nat.leb b a) eqn:Eab; [|reflexivity].
  apply Nat.leb_le in Eab.
  apply IH; try lia.
  exists k. split; [|exact Hlt].
  destruct (Nat.eq_dec k i) as [->|]; [rewrite Ea, Eb in Hlt; lia | lia].
Qed.

End LowerBound.

(** [X9] On a range [[first, second)] inside [cell_active_fe_index] over
    which the FE indices are sorted, [create_cell_subrange_hp_by_index]
    (in a debug or a release build) passes its checks and returns the
    sub-range of the cells with active FE index [fe_index]: it lies inside
    the given range, every cell of it has that FE index, the cells before
    it have smaller and the cells after it larger FE indices. *)
Theorem create_cell_subrange_hp_by_index_spec (debug : bool) (max_fe_index : nat)
  (fe_indices : list nat) (first second fe_index : nat)
  (Hfe : fe_index < max_fe_index) (Hne : fe_indices <> [])
  (Hrange : first <= second <= length fe_indices)
  (Hsorted : forall i, first < i < second ->
             nth (i - 1) fe_indices 0 <= nth i fe_indices 0) :
  exists a b,
    create_cell_subrange_hp_by_index debug max_fe_index fe_indices (first, second)
      fe_index = inr (a, b) /\
    first <= a /\ a <= b /\ b <= second /\
    (forall i, first <= i < a -> nth i fe_indices 0 < fe_index) /\
    (forall i, a <= i < b -> nth i fe_indices 0 = fe_index) /\
    (forall i, b <= i < second -> fe_index < nth i fe_indices 0).
Proof.
  pose proof (sorted_on_adjacent fe_indices first second Hsorted) as Hs.
  destruct (lower_bound_spec fe_indices first second fe_index)
    as [a [Ha [Hab [Hlo Hhi]]]]; try lia; [exact Hs|].
  destruct (lower_bound_spec fe_indices a second (fe_index + 1))
    as [b [Hb [Hbb [Hlo' Hhi']]]]; try lia.
  { intros i j Hi Hij Hj. apply Hs; lia. }
  exists a, b.
  split.
  - unfold create_cell_subrange_hp_by_index.
    assert (Hfe' : Nat.ltb fe_index max_fe_index = true) by (apply Nat.ltb_lt; lia).
    rewrite Hfe'.
    destruct fe_indices as [|x xs] eqn:Efe; [contradiction|].
    rewrite <- Efe in *.
    assert (Hc : (if debug then
          match first_unsorted fe_indices (first + 1) (second - (first + 1)) with
          | Some e => Some e
          | None =>
              if negb (Nat.ltb first (length fe_indices + 1)) then Some ExcIndexRange
              else if negb (Nat.ltb second (length fe_indices + 1))
              then Some ExcIndexRange
              else None
          end
        else None) = None).
    { destruct debug; [|reflexivity].
      rewrite first_unsorted_none; try lia.
      - assert (E1 : Nat.ltb first (length fe_indices + 1) = true)
          by (apply Nat.ltb_lt; lia).
        assert (E2 : Nat.ltb second (length fe_indices + 1) = true)
          by (apply Nat.ltb_lt; lia).
        rewrite E1, E2. reflexivity.
      - intros k Hk. apply Hsorted. lia. }
    cbn [andb negb].
    destruct debug; cbn [andb negb] in Hc |- *; [rewrite Hc|]; rewrite Ha, Hb; [|reflexivity].
    assert (E : Nat.leb first a && Nat.leb b second = true).
    { apply andb_true_intro. split; apply Nat.leb_le; lia. }
    rewrite E. reflexivity.
  - split; [lia|]. split; [lia|]. split; [lia|]. split; [exact Hlo|]. split.
    + intros i Hi. assert (fe_index <= nth i fe_indices 0) by (apply Hhi; lia).
      assert (nth i fe_indices 0 < fe_index + 1) by (apply Hlo'; lia). lia.
    + intros i Hi. assert (fe_index + 1 <= nth i fe_indices 0) by (apply Hhi'; lia).
      lia.
Qed.

(** [X10] In a debug build, if the FE indices decrease somewhere inside a
    range [[first, second)] that lies inside [cell_active_fe_index],
    [create_cell_subrange_hp_by_index] stops with the assertion "Cell range
    must be over sorted range of fe indices in hp case!". *)
Theorem create_cell_subrange_hp_by_index_unsorted (max_fe_index : nat)
  (fe_indices : list nat) (first second fe_index : nat)
  (Hfe : fe_index < max_fe_index)
  (Hrange : first <= second <= length fe_indices)
  (Hunsorted : exists i, first < i < second /\
               nth i fe_indices 0 < nth (i - 1) fe_indices 0) :
  create_cell_subrange_hp_by_index true max_fe_index fe_indices (first, second) fe_index =
  inl ExcMessage_unsorted_range.
Proof.
  unfold create_cell_subrange_hp_by_index.
  assert (Hfe' : Nat.ltb fe_index max_fe_index = true) by (apply Nat.ltb_lt; lia).
  rewrite Hfe'. cbn [andb negb].
  destruct fe_indices as [|x xs] eqn:Efe.
  { destruct Hunsorted as [i [Hi _]]. cbn in Hrange. lia. }
  rewrite <- Efe in *.
  destruct Hunsorted as [i [Hi Hlt]].
  rewrite first_unsorted_some; [reflexivity | lia | lia |].
  exists i. split; [lia | exact Hlt].
Qed.

End CellSubrangeHpProofs.

Module CellSubrangeHpExamples.
Import CellSubrangeHp CellSubrangeHpProofs.

Lemma create_cell_subrange_hp_by_index_spec_witness :
  1 < 3 /\ [0; 0; 1; 1; 1; 2] <> [] /\ 1 <= 5 <= length [0; 0; 1; 1; 1; 2] /\
  (forall i, 1 < i < 5 -> nth (i - 1) [0; 0; 1; 1; 1; 2] 0 <= nth i [0; 0; 1; 1; 1; 2] 0) /\
  create_cell_subrange_hp_by_index true 3 [0; 0; 1; 1; 1; 2] (1, 5) 1 = inr (2, 5).
Proof.
  assert (Hs : forall i, 1 < i < 5 ->
                 nth (i - 1) [0; 0; 1; 1; 1; 2] 0 <= nth i [0; 0; 1; 1; 1; 2] 0).
  { intros i Hi. destruct i as [|[|[|[|[|i]]]]]; cbn; lia. }
  assert (Hne : [0; 0; 1; 1; 1; 2] <> []) by discriminate.
  assert (Hr : 1 <= 5 <= length [0; 0; 1; 1; 1; 2]) by (cbn; lia).
  assert (Hf : 1 < 3) by lia.
  refine (conj Hf (conj Hne (conj Hr (conj Hs _)))).
  destruct (create_cell_subrange_hp_by_index_spec true 3 [0; 0; 1; 1; 1; 2] 1 5 1
              Hf Hne Hr Hs) as [a [b [H _]]].
  rewrite H. vm_compute in H. exact (eq_sym H).
Defined.

Lemma create_cell_subrange_hp_by_index_unsorted_witness :
  0 < 3 /\ 0 <= 3 <= length [0; 2; 1] /\
  (exists i, 0 < i < 3 /\ nth i [0; 2; 1] 0 < nth (i - 1) [0; 2; 1] 0) /\
  create_cell_subrange_hp_by_index true 3 [0; 2; 1] (0, 3) 0 = inl ExcMessage_unsorted_range.
Proof.
  assert (Hu : exists i, 0 < i < 3 /\ nth i [0; 2; 1] 0 < nth (i - 1) [0; 2; 1] 0)
    by (exists 2; cbn; lia).
  assert (Hr : 0 <= 3 <= length [0; 2; 1]) by (cbn; lia).
  assert (Hf : 0 < 3) by lia.
  refine (conj Hf (conj Hr (conj Hu _))).
  exact (create_cell_subrange_hp_by_index_unsorted 3 [0; 2; 1] 0 3 0 Hf Hr Hu).
Defined.

End CellSubrangeHpExamples.

(* ------------------------------------------------------------------ *)
Module GhostSlotsProofs.
Import MatrixFreeImplementation GhostSlots.

Lemma fold_set_zero (l : list nat) (irr : nat -> nat) (j : nat) :
  fold_left (fun irr i => set_irregular irr i 0) l irr j =
  if existsb (Nat.eqb j) l then 0 else irr j.
Proof.
  revert irr. induction l as [|i l IH]; intros irr; cbn; [reflexivity|].
  rewrite IH. unfold set_irregular.
  destruct (Nat.eqb j i); destruct (existsb (Nat.eqb j) l); reflexivity.
Qed.

Ltac nat_bool_facts :=
  repeat match goal with
  | H : Nat.eqb _ _ = true |- _ => apply Nat.eqb_eq in H
  | H : Nat.eqb _ _ = false |- _ => apply Nat.eqb_neq in H
  | H : Nat.leb _ _ = true |- _ => apply Nat.leb_le in H
  | H : Nat.leb _ _ = false |- _ => apply Nat.leb_gt in H
  | H : Nat.ltb _ _ = true |- _ => apply Nat.ltb_lt in H
  | H : Nat.ltb _ _ = false |- _ => apply Nat.ltb_ge in H
  end.

Lemma existsb_seq_eqb j s n :
  existsb (Nat.eqb j) (seq s n) = (Nat.leb s j && Nat.ltb j (s + n)).
Proof.
  revert s. induction n as [|n IH]; intros s; cbn [seq existsb].
  - destruct (Nat.leb s j) eqn:E1, (Nat.ltb j (s + 0)) eqn:E2;
      cbn; try reflexivity; nat_bool_facts; lia.
  - rewrite IH.
    destruct (Nat.eqb j s) eqn:E0, (Nat.leb s j) eqn:E1, (Nat.leb (S s) j) eqn:E3,
      (Nat.ltb j (S s + n)) eqn:E4, (Nat.ltb j (s + S n)) eqn:E2;
      cbn; try reflexivity; nat_bool_facts; lia.
Qed.

Lemma list_sum_cons_eq (a : nat) (l : list nat) : list_sum (a :: l) = a + list_sum l.
Proof. reflexivity. Qed.

Lemma count_lanes_const n_lanes irr start n :
  (forall k, k < n -> irr (start + k) = 0) ->
  count_lanes n_lanes irr start n = n * n_lanes.
Proof.
  revert start. induction n as [|n IH]; intros start H; [reflexivity|].
  unfold count_lanes in *. cbn [seq map]. rewrite list_sum_cons_eq.
  rewrite IH.
  - unfold n_comp. replace start with (start + 0) at 1 by lia.
    rewrite H by lia. cbn. lia.
  - intros k Hk. replace (S start + k) with (start + S k) by lia. apply H. lia.
Qed.

Lemma count_lanes_ext n_lanes irr irr' start n :
  (forall k, start <= k < start + n -> irr k = irr' k) ->
  count_lanes n_lanes irr start n = count_lanes n_lanes irr' start n.
Proof.
  revert start. induction n as [|n IH]; intros start H; [reflexivity|].
  unfold count_lanes in *. cbn [seq map]. rewrite list_sum_cons_eq.
  unfold n_comp at 1 3. rewrite (H start) by lia.
  rewrite IH; [reflexivity|]. intros k Hk. apply H. lia.
Qed.

Lemma count_lanes_snoc n_lanes irr start n :
  count_lanes n_lanes irr start (S n) =
  count_lanes n_lanes irr start n + n_comp n_lanes irr (start + n).
Proof.
  unfold count_lanes. rewrite seq_S, map_app, list_sum_app. cbn. lia.
Qed.

(** [X11] After the ghost slots are written, the second counting loop of
    [compute_dof_info] finds [n_ghost_cells] cells, so that its
    [AssertDimension] holds, exactly when [n_ghost_slots] is the number of
    batches [ceil(n_ghost_cells / n_lanes)] the ghost cells need; the
    writes leave the entries before the ghost slots, which the first
    counting loop reads, unchanged. *)
Theorem ghost_slots_count (n_lanes : nat) (irregular_cells : nat -> nat)
  (back n_ghost_slots n_ghost_cells : nat) (Hl : 0 < n_lanes) :
  let irr := write_ghost_slots n_lanes irregular_cells back n_ghost_slots n_ghost_cells in
  (count_lanes n_lanes irr back n_ghost_slots = n_ghost_cells <->
   n_ghost_slots = n_batches_of n_lanes n_ghost_cells) /\
  count_lanes n_lanes irr 0 back = count_lanes n_lanes irregular_cells 0 back.
Proof.
  cbv zeta. unfold write_ghost_slots, n_batches_of.
  set (g := n_ghost_cells).
  assert (Hdm : g = n_lanes * (g / n_lanes) + g mod n_lanes)
    by (apply Nat.div_mod; lia).
  assert (Hm : g mod n_lanes < n_lanes) by (apply Nat.mod_upper_bound; lia).
  assert (Hceil : (g + n_lanes - 1) / n_lanes =
                  if Nat.eqb (g mod n_lanes) 0 then g / n_lanes else S (g / n_lanes)).
  { destruct (Nat.eqb (g mod n_lanes) 0) eqn:E.
    - apply Nat.eqb_eq in E.
      symmetry. apply (Nat.div_unique _ _ _ (n_lanes - 1)); lia.
    - apply Nat.eqb_neq in E.
      symmetry. apply (Nat.div_unique _ _ _ (g mod n_lanes - 1)); lia. }
  destruct n_ghost_slots as [|m].
  - cbn [Nat.ltb Nat.leb]. split; [|reflexivity].
    unfold count_lanes. cbn. rewrite Hceil.
    destruct (Nat.eqb (g mod n_lanes) 0) eqn:E.
    + apply Nat.eqb_eq in E. split; intros H.
      * rewrite <- H. symmetry. apply Nat.Div0.div_0_l.
      * nia.
    + split; intros H; [|discriminate]. apply Nat.eqb_neq in E. lia.
  - assert (Hlt : Nat.ltb 0 (S m) = true) by reflexivity. rewrite Hlt.
    set (irr := set_irregular _ _ _).
    assert (Hlow : forall k, k < m -> irr (back + k) = 0).
    { intros k Hk. unfold irr, set_irregular.
      destruct (Nat.eqb (back + k) (back + S m - 1)) eqn:E.
      { apply Nat.eqb_eq in E. lia. }
      rewrite fold_set_zero, existsb_seq_eqb.
      replace (Nat.leb back (back + k)) with true by (symmetry; apply Nat.leb_le; lia).
      replace (Nat.ltb (back + k) (back + (S m - 1))) with true
        by (symmetry; apply Nat.ltb_lt; lia).
      reflexivity. }
    assert (Hlast : irr (back + m) = g mod n_lanes).
    { unfold irr, set_irregular. replace (back + S m - 1) with (back + m) by lia.
      rewrite Nat.eqb_refl. reflexivity. }
    split.
    + rewrite count_lanes_snoc, count_lanes_const by exact Hlow.
      unfold n_comp. rewrite Hlast, Hceil.
      destruct (Nat.eqb (g mod n_lanes) 0) eqn:E.
      * apply Nat.eqb_eq in E. rewrite E. cbn [Nat.ltb Nat.leb].
        split; intros H; nia.
      * apply Nat.eqb_neq in E.
        replace (Nat.ltb 0 (g mod n_lanes)) with true by (symmetry; apply Nat.ltb_lt; lia).
        split; intros H; nia.
    + apply count_lanes_ext. intros k Hk. unfold irr, set_irregular.
      destruct (Nat.eqb k (back + S m - 1)) eqn:E.
      { apply Nat.eqb_eq in E. lia. }
      rewrite fold_set_zero, existsb_seq_eqb.
      replace (Nat.leb back k) with false by (symmetry; apply Nat.leb_gt; lia).
      reflexivity.
Qed.

End GhostSlotsProofs.

Module GhostSlotsExamples.
Import MatrixFreeImplementation GhostSlots GhostSlotsProofs.

(** Seven ghost cells in two slots of four lanes after two batches of
    locally owned cells. *)
Lemma ghost_slots_count_witness :
  0 < 4 /\
  count_lanes 4 (write_ghost_slots 4 (fun _ => 0) 2 2 7) 2 2 = 7.
Proof.
  assert (H : 0 < 4) by lia.
  split; [exact H|].
  apply (proj2 (proj1 (ghost_slots_count 4 (fun _ => 0) 2 2 7 H))).
  reflexivity.
Defined.

End GhostSlotsExamples.

(* ------------------------------------------------------------------ *)
Module NewtonDescentProofs.
Import MappingQGenericImplementation NewtonProofs.
Local Open Scope float_scope.

Section Descent.
Variables UPt Vec Mat : Type.
Variable mapped_location : UPt -> Vec * Mat.
Variable vsub : Vec -> Vec -> Vec.
Variable norm_square : Vec -> float.
Variable mat_norm_square : Mat -> float.
Variable determinant : Mat -> float.
Variable invert : Mat -> Mat.
Variable mat_vec : Mat -> Vec -> Vec.
Variable unit_update : UPt -> float -> Vec -> UPt.

Local Abbreviation LS := (line_search UPt Vec Mat mapped_location vsub norm_square unit_update).
Local Abbreviation vis := (visited UPt Vec Mat mapped_location vsub norm_square
                         mat_norm_square determinant invert mat_vec unit_update).

Lemma line_search_accept p u f d u' pr' f' :
  LS line_search_fuel p u f d 1 = LS_accept u' pr' f' ->
  exists s, In s step_lengths /\ u' = unit_update u s d /\
    pr' = mapped_location u' /\ f' = vsub (fst pr') p /\
    (norm_square f' <? norm_square f) = true.
Proof.
  rewrite line_search_explicit. cbv zeta. intros H.
  repeat match type of H with
         | (if ?b then _ else _) = _ => destruct b eqn:?
         end;
    try discriminate;
    injection H as <- <- <-;
    match goal with |- exists s, _ /\ unit_update u ?t d = _ /\ _ => exists t end;
    (split; [unfold step_lengths; cbn; tauto|]);
    repeat split; first [reflexivity | assumption].
Qed.

(** [X12] Every state [(p_unit, p_real, f)] that the Newton loop of
    [do_transform_real_to_unit_cell_internal] reaches keeps
    [p_real = compute_mapped_location_of_point(p_unit)] and
    [f = p_real[0] - p]; every state after the first is reached from the
    previous one by [p_unit -= step_length * DF^-1 f] with a step length
    of 1, 1/2, ..., 1/32, and has a strictly smaller residual
    [f.norm_square()] than the previous one. *)
Theorem visited_descent (p : Vec) (u0 u : UPt) (pr : Vec * Mat) (f : Vec) (it : nat)
  (Hv : vis p u0 u pr f it) :
  pr = mapped_location u /\ f = vsub (fst pr) p /\
  (forall k, it = S k ->
   exists u1 pr1 f1 s, vis p u0 u1 pr1 f1 k /\ In s step_lengths /\
     u = unit_update u1 s (mat_vec (invert (snd pr1)) f1) /\
     (norm_square f <? norm_square f1) = true).
Proof.
  destruct Hv as [Hi | u1 pr1 f1 it1 u' pr' f' Hv1 Hd Hls Hl Hw].
  - split; [reflexivity|]. split; [reflexivity|]. intros k Hk; discriminate.
  - destruct (line_search_accept _ _ _ _ _ _ _ Hls) as (s & Hs & Eu & Epr & Ef & Hlt).
    split; [exact Epr|]. split; [exact Ef|].
    intros k Hk. injection Hk as <-.
    exists u1, pr1, f1, s. repeat split; assumption.
Qed.

End Descent.

End NewtonDescentProofs.

Module NewtonDescentExamples.
Import MappingQGenericImplementation NewtonDescentProofs.
Local Open Scope float_scope.

(** The cubic map x(xi) = xi^3 with p = 0 and the initial guess 0.5: the
    state after the first accepted step. *)
Lemma visited_descent_witness :
  exists u pr f,
    visited float float float mapped_location_cubic_1d sub sq_1d sq_1d id_1d inv_1d
      mul update_1d 0 0.5 u pr f 1 /\
    exists u1 pr1 f1 s,
      visited float float float mapped_location_cubic_1d sub sq_1d sq_1d id_1d inv_1d
        mul update_1d 0 0.5 u1 pr1 f1 0 /\ In s step_lengths /\
      u = update_1d u1 s (mul (inv_1d (snd pr1)) f1) /\ (sq_1d f <? sq_1d f1) = true.
Proof.
  assert (H0 : visited float float float mapped_location_cubic_1d sub sq_1d sq_1d id_1d
                 inv_1d mul update_1d 0 0.5 0.5 (mapped_location_cubic_1d 0.5)
                 (sub (fst (mapped_location_cubic_1d 0.5)) 0) 0)
    by (apply visited_initial; vm_compute; reflexivity).
  assert (H1 : exists u pr f,
    visited float float float mapped_location_cubic_1d sub sq_1d sq_1d id_1d inv_1d
      mul update_1d 0 0.5 u pr f 1).
  { do 3 eexists. eapply visited_next; [exact H0 | vm_compute; reflexivity | | |].
    - cbv. reflexivity.
    - vm_compute. reflexivity.
    - cbv. reflexivity. }
  destruct H1 as (u & pr & f & Hv).
  exists u, pr, f. split; [exact Hv|].
  exact (proj2 (proj2 (visited_descent float float float mapped_location_cubic_1d sub
           sq_1d sq_1d id_1d inv_1d mul update_1d 0 0.5 u pr f 1 Hv)) 0%nat eq_refl).
Defined.

End NewtonDescentExamples.

(* ------------------------------------------------------------------ *)
Module FillFEValuesLengthProofs.
Import FillFEValues.

Section LengthProofs.
Variables (Cell SupportPoint QPoint Contra Cov Scalar
           JacGrad PFGrad Jac2nd PF2nd Jac3rd PF3rd Normal : Type).
Variable compute_mapping_support_points : Cell -> list SupportPoint.
Variable q_point_at : list SupportPoint -> nat -> QPoint.
Variable contravariant_at : list SupportPoint -> nat -> Contra.
Variable jacobian_grad_at : list SupportPoint -> nat -> JacGrad.
Variable pushed_forward_grad_at : list SupportPoint -> list Cov -> nat -> PFGrad.
Variable jacobian_2nd_at : list SupportPoint -> nat -> Jac2nd.
Variable pushed_forward_2nd_at : list SupportPoint -> list Cov -> nat -> PF2nd.
Variable jacobian_3rd_at : list SupportPoint -> nat -> Jac3rd.
Variable pushed_forward_3rd_at : list SupportPoint -> list Cov -> nat -> PF3rd.
Variable tensor_q_point_at : list SupportPoint -> nat -> QPoint.
Variable tensor_contravariant_at : list SupportPoint -> nat -> Contra.
Variable tensor_jacobian_grad_at : list SupportPoint -> nat -> JacGrad.
Variable collocation_q_point_at : list SupportPoint -> nat -> QPoint.
Variable covariant_form : Contra -> Cov.
Variable determinant : Contra -> Scalar.
Variable transpose : Cov -> Contra.
Variable area_element : Contra -> Scalar.
Variable mult : Scalar -> Scalar -> Scalar.
Variable cell_normal : Cell -> Contra -> Normal.
Variable neg_normal : Normal -> Normal.
Variables (zero_contra : Contra) (zero_cov : Cov) (zero_scalar : Scalar).

Local Abbreviation fill :=
  (fill_fe_values Cell SupportPoint QPoint Contra Cov Scalar
     JacGrad PFGrad Jac2nd PF2nd Jac3rd PF3rd Normal
     compute_mapping_support_points q_point_at contravariant_at jacobian_grad_at
     pushed_forward_grad_at jacobian_2nd_at pushed_forward_2nd_at
     jacobian_3rd_at pushed_forward_3rd_at tensor_q_point_at
     tensor_contravariant_at tensor_jacobian_grad_at collocation_q_point_at
     covariant_form determinant transpose area_element mult cell_normal
     neg_normal zero_contra zero_cov zero_scalar).


Lemma update_from_length {X : Type} p n (f : nat -> X -> X) arr :
  length (update_from p n f arr) = length arr.
Proof.
  revert p. induction arr as [|x r IH]; intros p; cbn; [reflexivity|].
  rewrite IH. reflexivity.
Qed.

Lemma update_points_length {X : Type} n (f : nat -> X -> X) arr :
  length (update_points n f arr) = length arr.
Proof. apply update_from_length. Qed.

Lemma maybe_update_higher_off {X : Type} cs (f : nat -> X) arr :
  maybe_update_higher false cs f arr = arr.
Proof. reflexivity. Qed.

Lemma update_covariant_and_volume_spec cs n flags contra cov vol cov' vol' :
  update_covariant_and_volume Contra Cov Scalar covariant_form determinant
    zero_contra cs n flags contra cov vol = (cov', vol') ->
  length cov' = length cov /\ length vol' = length vol.
Proof.
  unfold update_covariant_and_volume. intros H. injection H as <- <-.
  destruct (update_covariant_transformation flags), (update_volume_elements flags),
    (not_translation cs); rewrite ?update_points_length; split; reflexivity.
Qed.

Lemma update_JxW_and_normals_spec dim spacedim cell cs flags weights contra n
  jxw normals jxw' normals' :
  update_JxW_and_normals Cell Contra Scalar Normal determinant
    area_element mult cell_normal neg_normal zero_contra zero_scalar dim spacedim
    cell cs flags weights contra n jxw normals = (jxw', normals') ->
  length jxw' = length jxw /\ length normals' = length normals /\
  (update_normal_vectors flags = false -> normals' = normals) /\
  (update_normal_vectors flags = false -> update_JxW_values flags = false ->
   jxw' = jxw).
Proof.
  unfold update_JxW_and_normals. intros H.
  destruct (update_normal_vectors flags) eqn:En, (update_JxW_values flags) eqn:Ej;
    cbn [orb] in H;
    [..|injection H as <- <-; repeat split; reflexivity].
  all: destruct (not_translation cs);
    [|injection H as <- <-; repeat split; reflexivity].
  all: destruct (dim =? spacedim);
    [injection H as <- <-; rewrite ?update_points_length;
     repeat split; intros; try reflexivity; discriminate|].
  all: destruct (Similarity_eqb cs inverted_translation);
    injection H as <- <-; rewrite ?update_points_length;
    repeat split; intros; try reflexivity; discriminate.
Qed.

Lemma maybe_update_Jacobians_spec cs data :
  let d := maybe_update_Jacobians SupportPoint Contra Cov Scalar contravariant_at
             covariant_form determinant zero_contra cs data in
  update_each _ _ _ _ d = update_each _ _ _ _ data /\
  mapping_support_points _ _ _ _ d = mapping_support_points _ _ _ _ data /\
  length (contravariant _ _ _ _ d) = length (contravariant _ _ _ _ data) /\
  length (covariant _ _ _ _ d) = length (covariant _ _ _ _ data) /\
  length (volume_elements _ _ _ _ d) = length (volume_elements _ _ _ _ data).
Proof.
  cbv zeta. unfold maybe_update_Jacobians.
  destruct (update_contravariant_transformation (update_each _ _ _ _ data)),
    (not_translation cs);
    (destruct (update_covariant_and_volume _ _ _ _ _ _ _ _ _ _ _ _) as [cov vol] eqn:E;
     apply update_covariant_and_volume_spec in E as [E1 E2]; cbn;
     rewrite ?update_points_length, ?length_map in *;
     repeat split; assumption).
Qed.

Lemma tensor_spec cs data qp jg d' qp' jg' :
  maybe_update_q_points_Jacobians_and_grads_tensor SupportPoint QPoint Contra Cov
    Scalar JacGrad tensor_q_point_at tensor_contravariant_at tensor_jacobian_grad_at
    collocation_q_point_at covariant_form determinant zero_contra cs data qp jg
    = (d', qp', jg') ->
  update_each _ _ _ _ d' = update_each _ _ _ _ data /\
  mapping_support_points _ _ _ _ d' = mapping_support_points _ _ _ _ data /\
  length (contravariant _ _ _ _ d') = length (contravariant _ _ _ _ data) /\
  length (covariant _ _ _ _ d') = length (covariant _ _ _ _ data) /\
  length (volume_elements _ _ _ _ d') = length (volume_elements _ _ _ _ data) /\
  length qp' = length qp /\ length jg' = length jg /\
  (update_quadrature_points (update_each _ _ _ _ data) = false -> qp' = qp) /\
  (update_jacobian_grads (update_each _ _ _ _ data) = false -> jg' = jg).
Proof.
  unfold maybe_update_q_points_Jacobians_and_grads_tensor. intros H.
  cbv zeta in H.
  destruct (update_quadrature_points (update_each _ _ _ _ data)) eqn:Eq,
    (not_translation cs), (update_contravariant_transformation (update_each _ _ _ _ data)),
    (update_jacobian_grads (update_each _ _ _ _ data)) eqn:Ej,
    (tensor_symmetric_collocation _ _ _ _ data);
    cbn [andb negb] in H;
    try (injection H as <- <- <-; rewrite ?update_points_length;
         repeat split; intros; try reflexivity; discriminate);
    (destruct (update_covariant_and_volume _ _ _ _ _ _ _ _ _ _ _ _)
       as [cov vol] eqn:E in H;
     apply update_covariant_and_volume_spec in E as [E1 E2];
     injection H as <- <- <-; cbn;
     rewrite ?update_points_length, ?length_map in *;
     repeat split; intros; try assumption; try reflexivity; discriminate).
Qed.



(** The two paths of [fill_fe_values] up to the higher derivatives: the
    data they return keeps [update_each] and the array lengths, and the
    quadrature points and Jacobian gradients keep their lengths and are
    left alone when their flag is not set. *)
Lemma fill_paths_spec dim cs data0 qp jg d qp' jg' :
  (if (1 <? dim) && tensor_product_quadrature _ _ _ _ data0 then
     maybe_update_q_points_Jacobians_and_grads_tensor SupportPoint QPoint Contra Cov
       Scalar JacGrad tensor_q_point_at tensor_contravariant_at tensor_jacobian_grad_at
       collocation_q_point_at covariant_form determinant zero_contra cs data0 qp jg
   else
     (maybe_update_Jacobians SupportPoint Contra Cov Scalar contravariant_at
        covariant_form determinant zero_contra cs data0,
      maybe_compute_q_points SupportPoint QPoint Contra Cov Scalar q_point_at data0 qp,
      maybe_update_jacobian_grads SupportPoint Contra Cov Scalar JacGrad jacobian_grad_at
        cs (maybe_update_Jacobians SupportPoint Contra Cov Scalar contravariant_at
              covariant_form determinant zero_contra cs data0) jg))
  = (d, qp', jg') ->
  update_each _ _ _ _ d = update_each _ _ _ _ data0 /\
  length (contravariant _ _ _ _ d) = length (contravariant _ _ _ _ data0) /\
  length (covariant _ _ _ _ d) = length (covariant _ _ _ _ data0) /\
  length (volume_elements _ _ _ _ d) = length (volume_elements _ _ _ _ data0) /\
  length qp' = length qp /\ length jg' = length jg /\
  (update_quadrature_points (update_each _ _ _ _ data0) = false -> qp' = qp) /\
  (update_jacobian_grads (update_each _ _ _ _ data0) = false -> jg' = jg).
Proof.
  destruct (_ && _); intros H.
  - apply tensor_spec in H as (H1 & _ & H3 & H4 & H5 & H6 & H7 & H8 & H9).
    repeat split; assumption.
  - injection H as <- <- <-.
    destruct (maybe_update_Jacobians_spec cs data0) as (H1 & H2 & H3 & H4 & H5).
    unfold maybe_compute_q_points, maybe_update_jacobian_grads.
    rewrite H1, H2.
    destruct (update_quadrature_points _), (update_jacobian_grads _),
      (not_translation cs); rewrite ?update_points_length;
      repeat split; intros; try assumption; try reflexivity; discriminate.
Qed.

Ltac fill_unfold H :=
  destruct (if (_ <? _) && _ then _ else _) as [[d1 qp1] jg1] eqn:Ep in H;
  apply fill_paths_spec in Ep as (P1 & P2 & P3 & P4 & P5 & P6 & P7 & P8);
  cbv zeta in H;
  destruct (update_JxW_and_normals _ _ _ _ _ _ _ _ _ _ _ _ _ _ _ _ _ _ _ _ _)
    as [jxw normals] eqn:Ej in H;
  apply update_JxW_and_normals_spec in Ej as (J1 & J2 & J3 & J4);
  injection H as <- <- <-; cbn in *;
  rewrite P1 in *.

(** [X14] An output array of [fill_fe_values] whose update flag is not set
    in [data.update_each] is returned unchanged, with one exception: the
    JxW values are also written when only the normal vectors are asked
    for, so they are only guaranteed unchanged when neither
    [update_JxW_values] nor [update_normal_vectors] is set. *)
Theorem fill_fe_values_unflagged_outputs_unchanged
  (dim spacedim polynomial_degree : nat) (cell : Cell)
  (cell_similarity : Similarity) (weights : list Scalar)
  (data : InternalData SupportPoint Contra Cov Scalar)
  (output_data : OutputData QPoint Contra Scalar JacGrad PFGrad Jac2nd PF2nd
                   Jac3rd PF3rd Normal) :
  let o := snd (fill dim spacedim polynomial_degree cell cell_similarity weights data
                  output_data) in
  let fl := update_each _ _ _ _ data in
  (update_quadrature_points fl = false ->
   quadrature_points _ _ _ _ _ _ _ _ _ _ o
     = quadrature_points _ _ _ _ _ _ _ _ _ _ output_data) /\
  (update_jacobian_grads fl = false ->
   jacobian_grads _ _ _ _ _ _ _ _ _ _ o = jacobian_grads _ _ _ _ _ _ _ _ _ _ output_data) /\
  (update_jacobian_pushed_forward_grads fl = false ->
   jacobian_pushed_forward_grads _ _ _ _ _ _ _ _ _ _ o
     = jacobian_pushed_forward_grads _ _ _ _ _ _ _ _ _ _ output_data) /\
  (update_jacobian_2nd_derivatives fl = false ->
   jacobian_2nd_derivatives _ _ _ _ _ _ _ _ _ _ o
     = jacobian_2nd_derivatives _ _ _ _ _ _ _ _ _ _ output_data) /\
  (update_jacobian_pushed_forward_2nd_derivatives fl = false ->
   jacobian_pushed_forward_2nd_derivatives _ _ _ _ _ _ _ _ _ _ o
     = jacobian_pushed_forward_2nd_derivatives _ _ _ _ _ _ _ _ _ _ output_data) /\
  (update_jacobian_3rd_derivatives fl = false ->
   jacobian_3rd_derivatives _ _ _ _ _ _ _ _ _ _ o
     = jacobian_3rd_derivatives _ _ _ _ _ _ _ _ _ _ output_data) /\
  (update_jacobian_pushed_forward_3rd_derivatives fl = false ->
   jacobian_pushed_forward_3rd_derivatives _ _ _ _ _ _ _ _ _ _ o
     = jacobian_pushed_forward_3rd_derivatives _ _ _ _ _ _ _ _ _ _ output_data) /\
  (update_normal_vectors fl = false ->
   normal_vectors _ _ _ _ _ _ _ _ _ _ o = normal_vectors _ _ _ _ _ _ _ _ _ _ output_data) /\
  (update_normal_vectors fl = false -> update_JxW_values fl = false ->
   JxW_values _ _ _ _ _ _ _ _ _ _ o = JxW_values _ _ _ _ _ _ _ _ _ _ output_data) /\
  (update_jacobians fl = false ->
   jacobians _ _ _ _ _ _ _ _ _ _ o = jacobians _ _ _ _ _ _ _ _ _ _ output_data) /\
  (update_inverse_jacobians fl = false ->
   inverse_jacobians _ _ _ _ _ _ _ _ _ _ o
     = inverse_jacobians _ _ _ _ _ _ _ _ _ _ output_data).
Proof.
  cbv zeta.
  destruct (fill _ _ _ _ _ _ _ _) as [[s d] o] eqn:Hf. cbn [fst snd].
  unfold fill_fe_values in Hf.
  fill_unfold Hf.
  repeat split; intros Hoff; rewrite ?Hoff;
    try (apply maybe_update_higher_off); auto.
Qed.

End LengthProofs.
End FillFEValuesLengthProofs.

(* ------------------------------------------------------------------ *)
Module FillIndexSubrangeProofs.
Import FillIndexSubrange.

Lemma li_eqb_spec a b : li_eqb a b = true <-> a = b.
Proof.
  destruct a as [a1 a2], b as [b1 b2]. unfold li_eqb. cbn.
  rewrite andb_true_iff, !Nat.eqb_eq. split.
  - intros [-> ->]; reflexivity.
  - intros H; injection H as -> ->; split; reflexivity.
Qed.

Lemma li_eqb_refl a : li_eqb a a = true.
Proof. apply li_eqb_spec. reflexivity. Qed.

Lemma map_find_app m1 m2 k :
  map_find (m1 ++ m2) k =
  match map_find m1 k with Some v => Some v | None => map_find m2 k end.
Proof.
  induction m1 as [|[k' v] m1 IH]; cbn; [reflexivity|].
  destruct (li_eqb k' k); [reflexivity | exact IH].
Qed.

Lemma map_find_insert m a c k :
  map_find (map_insert m a c) k =
  match map_find m k with
  | Some v => Some v
  | None => if li_eqb a k then Some c else None
  end.
Proof.
  unfold map_insert. destruct (map_find m a) as [va|] eqn:Ea.
  - destruct (map_find m k) eqn:Ek; [reflexivity|].
    destruct (li_eqb a k) eqn:E; [|reflexivity].
    apply li_eqb_spec in E. subst. congruence.
  - rewrite map_find_app. destruct (map_find m k); [reflexivity|].
    cbn. destruct (li_eqb a k); reflexivity.
Qed.

Section Spec.
Variable cli : list level_index.

(** Every stored cell carries its key and starts a run of equal keys. *)
Definition stored_ok (m : index_map) : Prop :=
  forall k v, map_find m k = Some v ->
    nth_error cli v = Some k /\ (v = 0 \/ nth (v - 1) cli (0, 0) <> k).

Definition grows (m m' : index_map) : Prop :=
  forall k, map_find m k <> None -> map_find m' k <> None.

(** Cell [c] starts a run of equal (level, index) pairs. *)
Definition run_start (c : nat) : Prop :=
  c = 0 \/ nth c cli (0, 0) <> nth (c - 1) cli (0, 0).

Lemma insert_ok m c k :
  stored_ok m -> nth_error cli c = Some k -> (c = 0 \/ nth (c - 1) cli (0, 0) <> k) ->
  stored_ok (map_insert m k c) /\ grows m (map_insert m k c) /\
  map_find (map_insert m k c) k <> None.
Proof.
  intros Hm Hc Hr. split; [|split].
  - intros k' v. rewrite map_find_insert.
    destruct (map_find m k') eqn:E.
    + intros H; injection H as <-. apply Hm, E.
    + destruct (li_eqb k k') eqn:Ek; [|discriminate].
      apply li_eqb_spec in Ek. subst k'. intros H; injection H as <-. auto.
  - intros k' H. rewrite map_find_insert. destruct (map_find m k'); congruence.
  - rewrite map_find_insert, li_eqb_refl. destruct (map_find m k); discriminate.
Qed.

Lemma fill_index_loop_spec fuel cell m :
  1 <= cell -> cell + fuel <= length cli -> stored_ok m ->
  exists m', fill_index_loop cli cell fuel m = Some m' /\ stored_ok m' /\ grows m m' /\
    (forall c, cell <= c < cell + fuel -> run_start c ->
       map_find m' (nth c cli (0, 0)) <> None).
Proof.
  revert cell m. induction fuel as [|fuel IH]; intros cell m H1 Hlen Hm.
  - exists m. split; [reflexivity|]. split; [exact Hm|]. split; [intros k H; exact H|].
    intros c Hc. lia.
  - cbn [fill_index_loop].
    destruct (nth_error cli cell) as [a|] eqn:Ea.
    2: { apply nth_error_None in Ea. lia. }
    destruct (nth_error cli (cell - 1)) as [b|] eqn:Eb.
    2: { apply nth_error_None in Eb. lia. }
    pose proof Ea as Ea'. pose proof Eb as Eb'.
    apply nth_error_nth with (d := (0, 0)) in Ea', Eb'.
    set (m1 := if li_eqb a b then m else map_insert m a cell).
    assert (Hm1 : stored_ok m1 /\ grows m m1 /\
                  (run_start cell -> map_find m1 a <> None)).
    { unfold m1. destruct (li_eqb a b) eqn:Eab.
      - apply li_eqb_spec in Eab.
        split; [exact Hm|]. split; [intros k H; exact H|].
        intros [Hc | Hc]; [lia|]. rewrite Ea', Eb', Eab in Hc. contradiction.
      - assert (Hab : a <> b) by (intros ->; rewrite li_eqb_refl in Eab; discriminate).
        destruct (insert_ok m cell a Hm Ea) as (I1 & I2 & I3).
        { right. rewrite Eb'. auto. }
        split; [exact I1|]. split; [exact I2|]. intros _; exact I3. }
    destruct Hm1 as (Hm1 & Hg1 & Hs1).
    destruct (IH (S cell) m1) as (m' & Hl & Hm' & Hg & Hc); try lia; [exact Hm1|].
    exists m'. split; [exact Hl|]. split; [exact Hm'|].
    split; [intros k Hk; apply Hg, Hg1, Hk|].
    intros c Hcr Hrs. destruct (Nat.eq_dec c cell) as [->|Hne].
    + apply Hg. rewrite Ea'. apply Hs1, Hrs.
    + apply Hc; [lia | exact Hrs].
Qed.

Lemma fill_index_subrange_spec b e m :
  e <= length cli -> stored_ok m ->
  exists m', fill_index_subrange b e cli m = Some m' /\ stored_ok m' /\ grows m m' /\
    (forall c, b <= c < e -> run_start c -> map_find m' (nth c cli (0, 0)) <> None).
Proof.
  intros He Hm. unfold fill_index_subrange.
  destruct cli as [|x xs] eqn:Ecli.
  { exists m. split; [reflexivity|]. split; [exact Hm|]. split; [intros k H; exact H|].
    intros c Hc. cbn in He. lia. }
  rewrite <- Ecli in *.
  destruct (Nat.eqb b 0) eqn:Eb.
  - apply Nat.eqb_eq in Eb. subst b.
    assert (E0 : nth_error cli 0 = Some x) by (rewrite Ecli; reflexivity).
    rewrite E0.
    assert (Hl1 : 1 <= length cli) by (rewrite Ecli; cbn; lia).
    destruct (insert_ok m 0 x Hm E0 (or_introl eq_refl)) as (I1 & I2 & I3).
    destruct (fill_index_loop_spec (e - 1) 1 (map_insert m x 0)) as (m' & Hl & Hm' & Hg & Hc);
      try lia; [exact I1|].
    exists m'. split; [exact Hl|]. split; [exact Hm'|].
    split; [intros k Hk; apply Hg, I2, Hk|].
    intros c Hcr Hrs. destruct c as [|c].
    + apply Hg. apply nth_error_nth with (d := (0, 0)) in E0. rewrite E0. exact I3.
    + apply Hc; [lia | exact Hrs].
  - apply Nat.eqb_neq in Eb.
    destruct (Nat.le_gt_cases b e) as [Hbe | Hbe].
    + destruct (fill_index_loop_spec (e - b) b m) as (m' & Hl & Hm' & Hg & Hc);
        try lia; [exact Hm|].
      exists m'. split; [exact Hl|]. split; [exact Hm'|]. split; [exact Hg|].
      intros c Hcr Hrs. apply Hc; [lia | exact Hrs].
    + replace (e - b) with 0 by lia. cbn.
      exists m. split; [reflexivity|]. split; [exact Hm|].
      split; [intros k H; exact H|]. intros c Hc. lia.
Qed.

Lemma fill_index_subranges_spec ranges m :
  (forall b e, In (b, e) ranges -> e <= length cli) -> stored_ok m ->
  exists m', fill_index_subranges ranges cli m = Some m' /\ stored_ok m' /\ grows m m' /\
    (forall b e c, In (b, e) ranges -> b <= c < e -> run_start c ->
       map_find m' (nth c cli (0, 0)) <> None).
Proof.
  revert m. induction ranges as [|[b e] rest IH]; intros m Hr Hm.
  - exists m. split; [reflexivity|]. split; [exact Hm|].
    split; [intros k H; exact H|]. intros b e c H. destruct H.
  - cbn [fill_index_subranges].
    destruct (fill_index_subrange_spec b e m) as (m1 & E1 & Hm1 & Hg1 & Hc1);
      [apply (Hr b e); left; reflexivity | exact Hm|].
    rewrite E1.
    destruct (IH m1) as (m' & E' & Hm' & Hg' & Hc');
      [intros b' e' H; apply (Hr b' e'); right; exact H | exact Hm1|].
    exists m'. split; [exact E'|]. split; [exact Hm'|].
    split; [intros k Hk; apply Hg', Hg1, Hk|].
    intros b' e' c [Heq | Hin] Hc Hrs.
    + injection Heq as <- <-. apply Hg', Hc1; assumption.
    + apply (Hc' b' e'); assumption.
Qed.

End Spec.

(** [X15] When the subranges passed to [fill_index_subrange] lie inside
    [cell_level_index] and together cover all of it, in whatever order they
    are processed: no read falls outside the vector, the (level, index)
    pair of every cell is found in the map, and the cell the map returns
    for a pair has that pair in [cell_level_index] and is the first cell of
    a run of equal pairs. *)
Theorem fill_index_subranges_map (cell_level_index : list level_index)
  (ranges : list (nat * nat))
  (Hin : forall b e, In (b, e) ranges -> e <= length cell_level_index)
  (Hcover : forall c, c < length cell_level_index ->
            exists b e, In (b, e) ranges /\ b <= c < e) :
  exists m, fill_index_subranges ranges cell_level_index [] = Some m /\
    (forall c, c < length cell_level_index ->
       exists v, map_find m (nth c cell_level_index (0, 0)) = Some v) /\
    (forall k v, map_find m k = Some v ->
       nth_error cell_level_index v = Some k /\
       (v = 0 \/ nth (v - 1) cell_level_index (0, 0) <> k)).
Proof.
  destruct (fill_index_subranges_spec cell_level_index ranges [] Hin)
    as (m & E & Hm & _ & Hc).
  { intros k v H. discriminate. }
  exists m. split; [exact E|]. split; [|exact Hm].
  assert (Hp : forall c, c < length cell_level_index ->
            map_find m (nth c cell_level_index (0, 0)) <> None).
  { induction c as [|c IHc]; intros Hlt.
    - destruct (Hcover 0 Hlt) as (b & e & Hbe & Hr).
      apply (Hc b e 0 Hbe Hr). left; reflexivity.
    - destruct (li_eqb (nth (S c) cell_level_index (0, 0))
                       (nth c cell_level_index (0, 0))) eqn:Eq.
      + apply li_eqb_spec in Eq. rewrite Eq. apply IHc. lia.
      + destruct (Hcover (S c) Hlt) as (b & e & Hbe & Hr).
        apply (Hc b e (S c) Hbe Hr). right. cbn [Nat.sub]. rewrite Nat.sub_0_r.
        intros Es. rewrite Es, li_eqb_refl in Eq. discriminate. }
  intros c Hlt. specialize (Hp c Hlt).
  destruct (map_find m _) as [v|]; [exists v; reflexivity | contradiction].
Qed.

End FillIndexSubrangeProofs.

Module FillIndexSubrangeExamples.
Import FillIndexSubrange FillIndexSubrangeProofs.

(** Four cells, the pair (0,0) at positions 0, 1 and 3, the subranges
    [2,4) and [0,2) processed in this order. *)
Lemma fill_index_subranges_map_witness :
  let L := [(0, 0); (0, 0); (1, 2); (0, 0)] in
  let R := [(2, 4); (0, 2)] in
  (forall b e, In (b, e) R -> e <= length L) /\
  (forall c, c < length L -> exists b e, In (b, e) R /\ b <= c < e) /\
  exists m, fill_index_subranges R L [] = Some m /\
    (forall c, c < length L -> exists v, map_find m (nth c L (0, 0)) = Some v) /\
    (forall k v, map_find m k = Some v ->
       nth_error L v = Some k /\ (v = 0 \/ nth (v - 1) L (0, 0) <> k)).
Proof.
  cbv zeta.
  assert (H1 : forall b e, In (b, e) [(2, 4); (0, 2)] ->
                 e <= length [(0, 0); (0, 0); (1, 2); (0, 0)]).
  { intros b e [H | [H | []]]; injection H as <- <-; cbn; lia. }
  assert (H2 : forall c, c < length [(0, 0); (0, 0); (1, 2); (0, 0)] ->
                 exists b e, In (b, e) [(2, 4); (0, 2)] /\ b <= c < e).
  { intros c Hc. cbn in Hc.
    destruct c as [|[|[|[|c]]]];
      [exists 0, 2 | exists 0, 2 | exists 2, 4 | exists 2, 4 | lia];
      (split; [cbn; tauto | lia]). }
  exact (conj H1 (conj H2 (fill_index_subranges_map _ _ H1 H2))).
Defined.

End FillIndexSubrangeExamples.
